(** * EfficientCFL: the EfficientNet encoder with the CFL multi-scale decoder

    A shallow embedding of [CFLPytorch/EfficientCFL.py].  Python integers are
    [Z], a Python float is the rational it denotes ([Q]) and the product of
    line 58 is rounded to the nearest double, exceptions are the
    left summand of a result, and the only hidden state the module touches,
    the random generator that initialises freshly constructed layers, is
    threaded explicitly.  A tensor is represented by its shape together with
    the expression that computes its contents, so that both the shape
    discipline of torch and the data flow of [forward] can be stated. *)

From Stdlib Require Import ZArith QArith Qround Qabs Qpower String List Lia.
From Stdlib Require Import DecimalString SpecFloat.
From stdpp Require Import base gmap strings list.

Local Open Scope Z_scope.

(** ** Python run-time: exceptions, the generator, truthiness *)

Inductive exn :=
| ValueError (msg : string)
| AssertionError (msg : string)
| KeyError (key : Z)
| AttributeError (name : string)
| TypeError (msg : string)
| UnboundLocalError (name : string)
| RuntimeError (msg : string)
| OverflowError (msg : string).

(** The state is the position of the random generator: every parameter tensor
    sampled at construction time, and every stochastic-depth mask, is named by
    the position at which it was drawn. *)
Definition rng := nat.

Definition M (A : Type) : Type := rng -> (exn + A) * rng.

#[global] Instance M_ret : MRet M := fun A a s => (inr a, s).
#[global] Instance M_bind : MBind M := fun A B f m s =>
  match m s with
  | (inl e, s') => (inl e, s')
  | (inr a, s') => f a s'
  end.

Definition raise {A} (e : exn) : M A := fun s => (inl e, s).
Definition sample : M nat := fun s => (inr s, S s).

(** [getattr] of an attribute that [__init__] sets only on some paths. *)
Definition getattr {A} (name : string) (o : option A) : M A :=
  match o with
  | Some a => mret a
  | None => raise (AttributeError name)
  end.

(** [if r:] on an optional float: [None] and [0.0] are falsy. *)
Definition truthy (r : option Q) : bool :=
  match r with
  | Some q => negb (Qeq_bool q 0)
  | None => false
  end.

(** [int(x)] on a float truncates toward zero. *)
Definition int (q : Q) : Z :=
  if Qle_bool 0 q then Qfloor q else Qceiling q.

(** To the nearest integer, ties to the even one: Python's [round], and the
    rounding of a mantissa. *)
Definition round_half_even (q : Q) : Z :=
  let f := Qfloor q in
  match ((q - inject_Z f) ?= (1 # 2))%Q with
  | Lt => f
  | Gt => f + 1
  | Eq => if Z.even f then f else f + 1
  end.

(** [floor(log2 q)] for a positive [q]. *)
Definition ilog2 (q : Q) : Z :=
  let d := Z.log2 (Qnum q) - Z.log2 (Zpos (Qden q)) in
  if Qle_bool (2 ^ d) q then d else d - 1.

(** Python floats are IEEE 754 doubles.  [to_double q] is the double nearest
    to [q]: 53 bits of mantissa at the exponent of [q], which is not below
    that of the subnormals, ties to the even mantissa; [None] stands for an
    infinity. *)
Definition to_double (q : Q) : option Q :=
  let q := Qred q in
  if Qeq_bool q 0 then Some 0%Q
  else
    let e := Z.max (ilog2 (Qabs q) - 52) (-1074) in
    let v := (inject_Z (round_half_even (q / 2 ^ e)) * 2 ^ e)%Q in
    if Qle_bool (2 ^ 1024) (Qabs v) then None else Some (Qred v).

(** The value of a double in the standard library's specification of
    IEEE 754, against which [to_double] is checked below; [None] for an
    infinity or a NaN. *)
Definition value_of (x : spec_float) : option Q :=
  match x with
  | S754_zero _ => Some 0%Q
  | S754_finite sign m e =>
      Some (Qred ((if sign then - inject_Z (Zpos m) else inject_Z (Zpos m))
                  * 2 ^ e)%Q)
  | _ => None
  end.

(** [float(n)], as in the coercion of [n * x] for an int [n] and a float
    [x]. *)
Definition float_of_int (n : Z) : M Q :=
  match to_double (inject_Z n) with
  | Some x => mret x
  | None => raise (OverflowError "int too large to convert to float")
  end.

(** [x * y] on floats; the result may be an infinity. *)
Definition float_mul (x y : Q) : option Q := to_double (x * y).

(** [int(x)] on the result of a float operation. *)
Definition int_of_float (x : option Q) : M Z :=
  match x with
  | Some q => mret (int q)
  | None => raise (OverflowError "cannot convert float infinity to integer")
  end.

(** [str(i)] on an int. *)
Definition str (i : Z) : string := NilZero.string_of_int (Z.to_int i).

(** [sep.join(l)]. *)
Fixpoint join (sep : string) (l : list string) : string :=
  match l with
  | [] => ""
  | [x] => x
  | x :: rest => x +:+ sep +:+ join sep rest
  end.

(** ** Parameter records

    A float field holds the rational its double denotes. *)

Record GlobalParams := {
  batch_norm_momentum : Q;
  batch_norm_epsilon : Q;
  dropout_rate : Q;
  num_classes : Z;
  width_coefficient : Q;
  depth_coefficient : Q;
  drop_connect_rate : option Q;
  image_size : option Z
}.

Module BlockArgs.

Record t := {
  kernel_size : Z;
  num_repeat : Z;
  input_filters : Z;
  output_filters : Z;
  expand_ratio : Z;
  id_skip : bool;
  stride : Z;
  se_ratio : option Q
}.

End BlockArgs.
Import BlockArgs.

(** The [_replace] calls of [EfficientNet.__init__]. *)
Definition replace_scaled (b : BlockArgs.t) (i o r : Z) : BlockArgs.t :=
  {| kernel_size := kernel_size b; num_repeat := r; input_filters := i;
     output_filters := o; expand_ratio := expand_ratio b;
     id_skip := id_skip b; stride := stride b; se_ratio := se_ratio b |}.

Definition replace_repeat (b : BlockArgs.t) : BlockArgs.t :=
  {| kernel_size := kernel_size b; num_repeat := num_repeat b;
     input_filters := output_filters b; output_filters := output_filters b;
     expand_ratio := expand_ratio b; id_skip := id_skip b; stride := 1;
     se_ratio := se_ratio b |}.

(** Modelled from the spec: [round_filters] is defined in [utils.py], which is
    not among the sources.  The base count is multiplied by the width
    multiplier and rounded to the nearest multiple of 8; when that drops
    below 90% of the scaled value the next multiple is taken; the result is
    at least 1. *)
Definition round_filters (filters : Z) (gp : GlobalParams) : Z :=
  let scaled := (inject_Z filters * width_coefficient gp)%Q in
  let nearest := 8 * Qfloor ((scaled + 4) / 8)%Q in
  let kept := if Qle_bool ((9 # 10) * scaled)%Q (inject_Z nearest)
              then nearest else nearest + 8 in
  Z.max 1 kept.

(** Modelled from the spec: [round_repeats] is defined in [utils.py].  The
    base repeat count is multiplied by the depth multiplier and rounded up,
    with minimum 1. *)
Definition round_repeats (repeats : Z) (gp : GlobalParams) : Z :=
  Z.max 1 (Qceiling (inject_Z repeats * depth_coefficient gp)%Q).

(** ** Layers *)

Inductive Activation := MemoryEfficientSwish | Swish.

Record Conv2d := {
  in_channels : Z;
  out_channels : Z;
  conv_kernel : Z;
  conv_stride : Z;
  groups : Z;
  bias : bool;
  pad_image_size : option Z;
  conv_type : string;
  weight : nat
}.

(** [bn_training] is the layer's own [training] flag, which
    [nn.Module.__init__] sets. *)
Record BatchNorm2d := {
  num_features : Z;
  momentum : Q;
  eps : Q;
  bn_training : bool
}.

Record Linear := {
  in_features : Z;
  out_features : Z;
  fc_weight : nat
}.

(** Modelled from the spec: [get_same_padding_conv2d] is defined in
    [utils.py].  It returns the constructor of a padding-aware convolution
    for the given image size and convolution variant; constructing a layer
    samples its initial weights. *)
Definition get_same_padding_conv2d (image_size : option Z) (conv_type : string)
    (in_channels out_channels kernel_size stride groups : Z) (bias : bool)
    : M Conv2d :=
  w ← sample;
  mret {| in_channels := in_channels; out_channels := out_channels;
          conv_kernel := kernel_size; conv_stride := stride; groups := groups;
          bias := bias; pad_image_size := image_size; conv_type := conv_type;
          weight := w |}.

(** [nn.BatchNorm2d(num_features=n, momentum=m, eps=e)]. *)
Definition new_BatchNorm2d (n : Z) (m e : Q) : BatchNorm2d :=
  {| num_features := n; momentum := m; eps := e; bn_training := true |}.

(** [nn.Dropout(p)] rejects a probability outside [0, 1]; the layer has no
    parameters and is kept as its probability.  The message of torch ends
    with the offending number. *)
Definition new_Dropout (p : Q) : M Q :=
  if Qle_bool 0 p && Qle_bool p 1 then mret p
  else raise (ValueError "dropout probability has to be between 0 and 1").

(** [nn.Linear(i, o)] allocates an [o] by [i] weight, which torch refuses for
    a negative size, and samples it. *)
Definition new_Linear (i o : Z) : M Linear :=
  if (i <? 0) || (o <? 0) then
    raise (RuntimeError "Trying to create tensor with negative dimension")
  else
    w ← sample;
    mret {| in_features := i; out_features := o; fc_weight := w |}.

(** ** Tensors *)

Record Shape := { dimN : Z; dimC : Z; dimH : Z; dimW : Z }.

#[warnings="-register-all"]
Inductive Expr :=
| Input (name : string)
| ApplyConv (c : Conv2d) (x : Expr)
| ApplyBN (b : BatchNorm2d) (x : Expr)
| SwishOf (x : Expr)
| Sigmoid (x : Expr)
| Mul (a b : Expr)
| Add (a b : Expr)
| AvgPool1 (x : Expr)
| Upsample2 (x : Expr)
| Cat (xs : list Expr)
| DropGate (p : Q) (mask : nat) (x : Expr).

Record Tensor := { shape : Shape; expr : Expr }.

Definition ceil_div (a b : Z) : Z := (a + b - 1) / b.

(** Modelled from the spec: the forward of the padding-aware convolution of
    [utils.py].  The output has [out_channels] channels and spatial size
    [ceil(input / stride)]; torch rejects an input whose channel count is not
    the layer's [in_channels] and a stride that is not positive. *)
Definition conv2d (c : Conv2d) (x : Tensor) : M Tensor :=
  if negb (dimC (shape x) =? in_channels c) then
    raise (RuntimeError "conv2d: input channels do not match the layer")
  else if conv_stride c <=? 0 then
    raise (RuntimeError "conv2d: non-positive stride")
  else
    mret {| shape := {| dimN := dimN (shape x); dimC := out_channels c;
                        dimH := ceil_div (dimH (shape x)) (conv_stride c);
                        dimW := ceil_div (dimW (shape x)) (conv_stride c) |};
            expr := ApplyConv c (expr x) |}.

(** In training mode batch statistics need more than one value per
    channel. *)
Definition one_value_per_channel (sh : Shape) : bool :=
  dimN sh * dimH sh * dimW sh =? 1.

(** The forward of [nn.BatchNorm2d]: a layer in training mode first refuses
    a batch with a single value per channel, then the channel count is
    checked against [num_features]. *)
Definition one_value_error (sh : Shape) : exn :=
  ValueError ("Expected more than 1 value per channel when training, "
              +:+ "got input size torch.Size(["
              +:+ str (dimN sh) +:+ ", " +:+ str (dimC sh) +:+ ", "
              +:+ str (dimH sh) +:+ ", " +:+ str (dimW sh) +:+ "])").

Definition batch_norm (b : BatchNorm2d) (x : Tensor) : M Tensor :=
  if bn_training b && one_value_per_channel (shape x) then
    raise (one_value_error (shape x))
  else if negb (dimC (shape x) =? num_features b) then
    raise (RuntimeError "batch_norm: channels do not match num_features")
  else mret {| shape := shape x; expr := ApplyBN b (expr x) |}.

(** Both activation modes compute [x * sigmoid(x)]. *)
Definition swish (a : Activation) (x : Tensor) : M Tensor :=
  mret {| shape := shape x; expr := SwishOf (expr x) |}.

Definition sigmoid (x : Tensor) : M Tensor :=
  mret {| shape := shape x; expr := Sigmoid (expr x) |}.

(** [F.adaptive_avg_pool2d(x, 1)]. *)
Definition adaptive_avg_pool2d (x : Tensor) : M Tensor :=
  mret {| shape := {| dimN := dimN (shape x); dimC := dimC (shape x);
                      dimH := 1; dimW := 1 |};
          expr := AvgPool1 (expr x) |}.

(** [F.interpolate(x, scale_factor=2, mode="bilinear", align_corners=True)]. *)
Definition interpolate (x : Tensor) : M Tensor :=
  mret {| shape := {| dimN := dimN (shape x); dimC := dimC (shape x);
                      dimH := 2 * dimH (shape x); dimW := 2 * dimW (shape x) |};
          expr := Upsample2 (expr x) |}.

(** Broadcasting of one dimension. *)
Definition broadcast_dim (a b : Z) : option Z :=
  if a =? b then Some a
  else if a =? 1 then Some b
  else if b =? 1 then Some a
  else None.

Definition broadcast (a b : Shape) : option Shape :=
  n ← broadcast_dim (dimN a) (dimN b);
  c ← broadcast_dim (dimC a) (dimC b);
  h ← broadcast_dim (dimH a) (dimH b);
  w ← broadcast_dim (dimW a) (dimW b);
  Some {| dimN := n; dimC := c; dimH := h; dimW := w |}.

Definition mul (a b : Tensor) : M Tensor :=
  match broadcast (shape a) (shape b) with
  | Some s => mret {| shape := s; expr := Mul (expr a) (expr b) |}
  | None => raise (RuntimeError "mul: shapes cannot be broadcast")
  end.

Definition add (a b : Tensor) : M Tensor :=
  match broadcast (shape a) (shape b) with
  | Some s => mret {| shape := s; expr := Add (expr a) (expr b) |}
  | None => raise (RuntimeError "add: shapes cannot be broadcast")
  end.

Definition same_outside_channels (a b : Shape) : bool :=
  (dimN a =? dimN b) && (dimH a =? dimH b) && (dimW a =? dimW b).

(** [torch.cat(xs, dim=1)]. *)
Definition cat (xs : list Tensor) : M Tensor :=
  match xs with
  | [] => raise (RuntimeError "cat: expected a non-empty list of tensors")
  | x :: rest =>
      if forallb (fun y => same_outside_channels (shape x) (shape y)) rest then
        mret {| shape := {| dimN := dimN (shape x);
                            dimC := foldr (fun y acc => dimC (shape y) + acc) 0 xs;
                            dimH := dimH (shape x); dimW := dimW (shape x) |};
                expr := Cat (map expr xs) |}
      else raise (RuntimeError "cat: sizes must match except in dimension 1")
  end.

(** Modelled from the spec: [drop_connect] is defined in [utils.py].  Outside
    training the input is returned unchanged; in training one survival mask
    per sample is drawn and the survivors are rescaled. *)
Definition drop_connect (x : Tensor) (p : Q) (training : bool) : M Tensor :=
  if training then
    mask ← sample;
    mret {| shape := shape x; expr := DropGate p mask (expr x) |}
  else mret x.

(** ** MBConvBlock *)

Module MBConvBlock.

Record t := {
  _block_args : BlockArgs.t;
  _bn_mom : Q;
  _bn_eps : Q;
  has_se : bool;
  id_skip : bool;
  _conv_type : string;
  _expand_conv : option Conv2d;
  _bn0 : option BatchNorm2d;
  _depthwise_conv : Conv2d;
  _bn1 : BatchNorm2d;
  _se_reduce : option Conv2d;
  _se_expand : option Conv2d;
  _project_conv : Conv2d;
  _bn2 : BatchNorm2d;
  _swish : Activation;
  training : bool
}.

(** [self.has_se], line 34. *)
Definition compute_has_se (block_args : BlockArgs.t) : bool :=
  match se_ratio block_args with
  | Some r => negb (Qle_bool r 0) && Qle_bool r 1
  | None => false
  end.

(** [num_squeezed_channels], line 58: the int is coerced to a float, the
    product is a float, and [int] truncates it. *)
Definition num_squeezed_channels (block_args : BlockArgs.t) : M Z :=
  match se_ratio block_args with
  | Some r =>
      n ← float_of_int (input_filters block_args);
      k ← int_of_float (float_mul n r);
      mret (Z.max 1 k)
  | None => raise (TypeError "unsupported operand type(s) for *: 'int' and 'NoneType'")
  end.

Definition __init__ (block_args : BlockArgs.t) (global_params : GlobalParams)
    (conv_type : string) : M t :=
  let bn_mom := (1 - batch_norm_momentum global_params)%Q in
  let bn_eps := batch_norm_epsilon global_params in
  let has_se := compute_has_se block_args in
  let Conv2d := get_same_padding_conv2d (image_size global_params) conv_type in
  let BatchNorm2d n := new_BatchNorm2d n bn_mom bn_eps in
  (* Expansion phase *)
  let inp := input_filters block_args in
  let oup := input_filters block_args * expand_ratio block_args in
  expansion ← (if negb (expand_ratio block_args =? 1) then
                 c ← Conv2d inp oup 1 1 1 false;
                 mret (Some c, Some (BatchNorm2d oup))
               else mret (None, None));
  (* Depthwise convolution phase *)
  let k := kernel_size block_args in
  let s := stride block_args in
  depthwise ← Conv2d oup oup k s oup false;
  (* Squeeze and Excitation layer, if desired *)
  se ← (if has_se then
          n ← num_squeezed_channels block_args;
          r ← Conv2d oup n 1 1 1 true;
          e ← Conv2d n oup 1 1 1 true;
          mret (Some r, Some e)
        else mret (None, None));
  (* Output phase *)
  let final_oup := output_filters block_args in
  project ← Conv2d oup final_oup 1 1 1 false;
  mret {| _block_args := block_args; _bn_mom := bn_mom; _bn_eps := bn_eps;
          has_se := has_se; id_skip := BlockArgs.id_skip block_args;
          _conv_type := conv_type;
          _expand_conv := expansion.1; _bn0 := expansion.2;
          _depthwise_conv := depthwise; _bn1 := BatchNorm2d oup;
          _se_reduce := se.1; _se_expand := se.2;
          _project_conv := project; _bn2 := BatchNorm2d final_oup;
          _swish := MemoryEfficientSwish; training := true |}.

(** Lines 83-85 of [forward]. *)
Definition squeeze_excite (self : t) (x : Tensor) : M Tensor :=
  x_squeezed ← adaptive_avg_pool2d x;
  se_reduce ← getattr "_se_reduce" (_se_reduce self);
  se_expand ← getattr "_se_expand" (_se_expand self);
  reduced ← conv2d se_reduce x_squeezed;
  activated ← swish (_swish self) reduced;
  x_squeezed ← conv2d se_expand activated;
  gate ← sigmoid x_squeezed;
  mul gate x.

(** Lines 76-87 of [forward]: everything before the skip connection. *)
Definition branch (self : t) (inputs : Tensor) : M Tensor :=
  x ← (if negb (expand_ratio (_block_args self) =? 1) then
         expand_conv ← getattr "_expand_conv" (_expand_conv self);
         bn0 ← getattr "_bn0" (_bn0 self);
         x ← conv2d expand_conv inputs;
         x ← batch_norm bn0 x;
         swish (_swish self) x
       else mret inputs);
  x ← conv2d (_depthwise_conv self) x;
  x ← batch_norm (_bn1 self) x;
  x ← swish (_swish self) x;
  x ← (if has_se self then squeeze_excite self x else mret x);
  x ← conv2d (_project_conv self) x;
  batch_norm (_bn2 self) x.

(** The condition of line 91. *)
Definition skip_condition (self : t) : bool :=
  id_skip self && (stride (_block_args self) =? 1)
  && (input_filters (_block_args self) =? output_filters (_block_args self)).

(** Lines 92-93. *)
Definition gate (self : t) (x : Tensor) (drop_connect_rate : option Q) : M Tensor :=
  match drop_connect_rate with
  | Some p => if truthy drop_connect_rate
              then drop_connect x p (training self) else mret x
  | None => mret x
  end.

Definition forward (self : t) (inputs : Tensor) (drop_connect_rate : option Q)
    : M Tensor :=
  x ← branch self inputs;
  if skip_condition self then
    x ← gate self x drop_connect_rate;
    add x inputs
  else mret x.

Definition set_swish (self : t) (memory_efficient : bool) : t :=
  {| _block_args := _block_args self; _bn_mom := _bn_mom self;
     _bn_eps := _bn_eps self; has_se := has_se self; id_skip := id_skip self;
     _conv_type := _conv_type self; _expand_conv := _expand_conv self;
     _bn0 := _bn0 self; _depthwise_conv := _depthwise_conv self;
     _bn1 := _bn1 self; _se_reduce := _se_reduce self;
     _se_expand := _se_expand self; _project_conv := _project_conv self;
     _bn2 := _bn2 self;
     _swish := if memory_efficient then MemoryEfficientSwish else Swish;
     training := training self |}.

End MBConvBlock.

(** ** EfficientNet *)

Module EfficientNet.

Record t := {
  _global_params : GlobalParams;
  _blocks_args : list BlockArgs.t;
  _conv_type : string;
  _conv_stem : Conv2d;
  _bn0 : BatchNorm2d;
  _blocks : list MBConvBlock.t;
  _conv_head : Conv2d;
  _bn1 : BatchNorm2d;
  _dropout : Q;
  _fc : Linear;
  _swish : Activation;
  training : bool
}.

(** What a caller may pass as [blocks_args]: the default [None], a list, or
    some other sequence. *)
Inductive blocks_arg :=
| PyNone
| PyTuple (l : list BlockArgs.t)
| PyList (l : list BlockArgs.t).

(** The inner loop of lines 151-152. *)
Fixpoint repeat_blocks (n : nat) (block_args : BlockArgs.t)
    (global_params : GlobalParams) (conv_type : string)
    (blocks : list MBConvBlock.t) : M (list MBConvBlock.t) :=
  match n with
  | O => mret blocks
  | S n' =>
      b ← MBConvBlock.__init__ block_args global_params conv_type;
      repeat_blocks n' block_args global_params conv_type (blocks ++ [b])
  end.

(** The loop of lines 138-152.  The loop variable [block_args] is read after
    the loop, so its last value is returned with the blocks. *)
Fixpoint build_blocks (blocks_args : list BlockArgs.t)
    (global_params : GlobalParams) (conv_type : string)
    (blocks : list MBConvBlock.t) (last : option BlockArgs.t)
    : M (list MBConvBlock.t * option BlockArgs.t) :=
  match blocks_args with
  | [] => mret (blocks, last)
  | block_args :: rest =>
      let block_args :=
        replace_scaled block_args
          (round_filters (input_filters block_args) global_params)
          (round_filters (output_filters block_args) global_params)
          (round_repeats (num_repeat block_args) global_params) in
      b ← MBConvBlock.__init__ block_args global_params conv_type;
      let blocks := blocks ++ [b] in
      let block_args :=
        if 1 <? num_repeat block_args then replace_repeat block_args
        else block_args in
      blocks ← repeat_blocks (Z.to_nat (num_repeat block_args - 1)) block_args
                 global_params conv_type blocks;
      build_blocks rest global_params conv_type blocks (Some block_args)
  end.

(** [global_params.image_size] and the like on the argument
    [global_params], whose default is [None]. *)
Definition the_global_params (global_params : option GlobalParams)
    : M GlobalParams :=
  match global_params with
  | Some gp => mret gp
  | None => raise (AttributeError "image_size")
  end.

Definition __init__ (blocks_args : blocks_arg)
    (global_params : option GlobalParams) (conv_type : string) : M t :=
  match blocks_args with
  | PyList l =>
      if negb (0 <? Z.of_nat (length l)) then
        raise (AssertionError "block args must be greater than 0")
      else
        global_params ← the_global_params global_params;
        let Conv2d :=
          get_same_padding_conv2d (image_size global_params) conv_type in
        let bn_mom := (1 - batch_norm_momentum global_params)%Q in
        let bn_eps := batch_norm_epsilon global_params in
        (* Stem *)
        let in_channels := 3 in
        let out_channels := round_filters 32 global_params in
        conv_stem ← Conv2d in_channels out_channels 3 2 1 false;
        let bn0 := new_BatchNorm2d out_channels bn_mom bn_eps in
        (* Build blocks *)
        built ← build_blocks l global_params conv_type [] None;
        (* Head *)
        block_args ← match built.2 with
                     | Some b => mret b
                     | None => raise (UnboundLocalError "block_args")
                     end;
        let in_channels := output_filters block_args in
        let out_channels := round_filters 1280 global_params in
        conv_head ← Conv2d in_channels out_channels 1 1 1 false;
        let bn1 := new_BatchNorm2d out_channels bn_mom bn_eps in
        (* Final linear layer *)
        dropout ← new_Dropout (dropout_rate global_params);
        fc ← new_Linear out_channels (num_classes global_params);
        mret {| _global_params := global_params; _blocks_args := l;
                _conv_type := conv_type; _conv_stem := conv_stem; _bn0 := bn0;
                _blocks := built.1; _conv_head := conv_head; _bn1 := bn1;
                _dropout := dropout; _fc := fc;
                _swish := MemoryEfficientSwish; training := true |}
  | _ => raise (AssertionError "blocks_args should be a list")
  end.

Definition set_swish (self : t) (memory_efficient : bool) : t :=
  {| _global_params := _global_params self; _blocks_args := _blocks_args self;
     _conv_type := _conv_type self; _conv_stem := _conv_stem self;
     _bn0 := _bn0 self;
     _blocks := map (fun block => MBConvBlock.set_swish block memory_efficient)
                    (_blocks self);
     _conv_head := _conv_head self; _bn1 := _bn1 self;
     _dropout := _dropout self; _fc := _fc self;
     _swish := if memory_efficient then MemoryEfficientSwish else Swish;
     training := training self |}.

(** [skipconnection[k]] on the dict of cached encoder outputs. *)
Definition getitem (skipconnection : gmap Z Tensor) (k : Z) : M Tensor :=
  match skipconnection !! k with
  | Some x => mret x
  | None => raise (KeyError k)
  end.

(** The rate handed to block [idx], lines 183-185. *)
Definition block_rate (self : t) (idx : Z) : option Q :=
  match drop_connect_rate (_global_params self) with
  | Some r =>
      if truthy (Some r)
      then Some (r * (inject_Z idx / inject_Z (Z.of_nat (length (_blocks self)))))%Q
      else Some r
  | None => None
  end.

(** The loop of lines 182-188 over [enumerate(self._blocks)]. *)
Fixpoint run_blocks (self : t) (blocks : list MBConvBlock.t) (idx : Z)
    (x : Tensor) (skipconnection : gmap Z Tensor) (index : Z)
    : M (Tensor * gmap Z Tensor * Z) :=
  match blocks with
  | [] => mret (x, skipconnection, index)
  | block :: rest =>
      x ← MBConvBlock.forward block x (block_rate self idx);
      run_blocks self rest (idx + 1) x (<[idx + 1 := x]> skipconnection)
                 (index + 1)
  end.

(** Lines 175-191: stem, blocks and head. *)
Definition encoder (self : t) (inputs : Tensor)
    : M (Tensor * gmap Z Tensor * Z) :=
  x ← conv2d (_conv_stem self) inputs;
  x ← batch_norm (_bn0 self) x;
  x ← swish (_swish self) x;
  let skipconnection : gmap Z Tensor := <[0 := x]> ∅ in
  r ← run_blocks self (_blocks self) 0 x skipconnection 0;
  let x := r.1.1 in
  x ← conv2d (_conv_head self) x;
  x ← batch_norm (_bn1 self) x;
  x ← swish (_swish self) x;
  mret (x, r.1.2, r.2).

(** Lines 196-232: the decoder of edge and corner maps. *)
Definition decoder (self : t) (x : Tensor) (skipconnection : gmap Z Tensor)
    (index : Z) : M Tensor :=
  let Conv2d :=
    get_same_padding_conv2d (image_size (_global_params self))
                            (_conv_type self) in
  conv1a ← Conv2d (dimC (shape x)) 512 3 1 1 true;
  d_2x_ec ← conv2d conv1a x;
  d_2x_ec ← swish (_swish self) d_2x_ec;
  d_2x ← interpolate d_2x_ec;

  s5 ← getitem skipconnection (index - 5);
  d_concat_2x ← cat [d_2x; s5];
  conv1b ← Conv2d (dimC (shape d_concat_2x)) 256 3 1 1 true;
  d_4x_ec ← conv2d conv1b d_concat_2x;
  d_4x_ec ← swish (_swish self) d_4x_ec;
  d_4x ← interpolate d_4x_ec;
  conv1c ← Conv2d (dimC (shape d_4x)) 2 3 1 1 true;
  output4x_likelihood ← conv2d conv1c d_4x;

  s11 ← getitem skipconnection (index - 11);
  d_concat_4x ← cat [d_4x; s11; output4x_likelihood];
  conv2a ← Conv2d (dimC (shape d_concat_4x)) 128 3 1 1 true;
  d_8x_ec ← conv2d conv2a d_concat_4x;
  d_8x_ec ← swish (_swish self) d_8x_ec;
  d_8x ← interpolate d_8x_ec;
  conv2b ← Conv2d (dimC (shape d_8x)) 2 3 1 1 true;
  output8x_likelihood ← conv2d conv2b d_8x;

  s13 ← getitem skipconnection (index - 13);
  d_concat_8x ← cat [d_8x; s13; output8x_likelihood];
  conv3a ← Conv2d (dimC (shape d_concat_8x)) 64 5 1 1 true;
  d_16x_ec ← conv2d conv3a d_concat_8x;
  d_16x_ec ← swish (_swish self) d_16x_ec;
  d_16x ← interpolate d_16x_ec;
  conv3b ← Conv2d (dimC (shape d_16x)) 2 3 1 1 true;
  output16x_likelihood ← conv2d conv3b d_16x;

  s15 ← getitem skipconnection (index - 15);
  d_concat_16x ← cat [d_16x; s15; output16x_likelihood];
  conv4a ← Conv2d (dimC (shape d_concat_16x)) 64 5 1 1 true;
  d_16x_conv1 ← conv2d conv4a d_concat_16x;
  d_16x_conv1 ← swish (_swish self) d_16x_conv1;
  conv4b ← Conv2d (dimC (shape d_16x_conv1)) 2 3 1 1 true;
  conv2d conv4b d_16x_conv1.

Definition extract_features (self : t) (inputs : Tensor) : M Tensor :=
  r ← encoder self inputs;
  decoder self r.1.1 r.1.2 r.2.

Definition forward (self : t) (inputs : Tensor) : M Tensor :=
  extract_features self inputs.

(** [valid_models], line 274. *)
Definition valid_models : list string :=
  map (fun i => "efficientnet-b" +:+ str i) (seqZ 0 9).

Definition _check_model_name_is_valid (model_name : string) : M unit :=
  if bool_decide (model_name ∈ valid_models) then mret tt
  else raise (ValueError ("model_name should be one of: "
                          +:+ join ", " valid_models)).

Section Registry.
(** [get_model_params] and [efficientnet_params] are defined in [utils.py],
    which is not among the sources; they are taken as parameters. *)
Context {Overrides : Type}.
Variable get_model_params :
  string -> option Overrides -> M (blocks_arg * GlobalParams).
Variable efficientnet_params : string -> M (Q * Q * Z * Q).

Definition from_name (model_name : string) (conv_type : string)
    (override_params : option Overrides) : M t :=
  _ ← _check_model_name_is_valid model_name;
  p ← get_model_params model_name override_params;
  __init__ p.1 (Some p.2) conv_type.

Definition get_image_size (model_name : string) : M Z :=
  _ ← _check_model_name_is_valid model_name;
  p ← efficientnet_params model_name;
  mret p.1.2.
End Registry.

End EfficientNet.

(** ** The configuration named 'efficientnet-b0' *)

(** The stage table and coefficients that [get_model_params] of [utils.py]
    (not among the sources) returns for 'efficientnet-b0': the published
    EfficientNet-B0 stages r1_k3_s11_e1_i32_o16, r2_k3_s22_e6_i16_o24,
    r2_k5_s22_e6_i24_o40, r3_k3_s22_e6_i40_o80, r3_k5_s11_e6_i80_o112,
    r4_k5_s22_e6_i112_o192, r1_k3_s11_e6_i192_o320, all with se_ratio 0.25,
    and width 1.0, depth 1.0, resolution 224, dropout 0.2. *)
Definition stage (r k s e i o : Z) : BlockArgs.t :=
  {| kernel_size := k; num_repeat := r; input_filters := i;
     output_filters := o; expand_ratio := e; id_skip := true; stride := s;
     se_ratio := Some (1 # 4)%Q |}.

Definition b0_blocks_args : list BlockArgs.t :=
  [ stage 1 3 1 1 32 16; stage 2 3 2 6 16 24; stage 2 5 2 6 24 40;
    stage 3 3 2 6 40 80; stage 3 5 1 6 80 112; stage 4 5 2 6 112 192;
    stage 1 3 1 6 192 320 ].

Definition b0_global_params : GlobalParams :=
  {| batch_norm_momentum := (99 # 100)%Q; batch_norm_epsilon := (1 # 1000)%Q;
     dropout_rate := (2 # 10)%Q; num_classes := 1000;
     width_coefficient := 1%Q; depth_coefficient := 1%Q;
     drop_connect_rate := Some (2 # 10)%Q; image_size := Some 224 |}.

Definition image (n c h w : Z) : Tensor :=
  {| shape := {| dimN := n; dimC := c; dimH := h; dimW := w |};
     expr := Input "inputs" |}.

(** Build the model, then run one forward pass; only the shape of the result
    is kept. *)
Definition build_and_forward (blocks_args : EfficientNet.blocks_arg)
    (gp : GlobalParams) (conv_type : string) (inputs : Tensor)
    : M Shape :=
  model ← EfficientNet.__init__ blocks_args (Some gp) conv_type;
  out ← EfficientNet.forward model inputs;
  mret (shape out).

(** ** Predicates and values the statements are written with *)

(** A computation fails when it returns an exception. *)
Definition fails {A} (r : (exn + A) * rng) : Prop :=
  exists e s', r = (inl e, s').

(** The activation unit that [set_swish(memory_efficient)] installs. *)
Definition activation_of (memory_efficient : bool) : Activation :=
  if memory_efficient then MemoryEfficientSwish else Swish.

(** The nine recognised identifiers, written out. *)
Definition nine_names : list string :=
  [ "efficientnet-b0"; "efficientnet-b1"; "efficientnet-b2";
    "efficientnet-b3"; "efficientnet-b4"; "efficientnet-b5";
    "efficientnet-b6"; "efficientnet-b7"; "efficientnet-b8" ].

(** The exception [_check_model_name_is_valid] raises, message included. *)
Definition invalid_name_error : exn :=
  ValueError "model_name should be one of: efficientnet-b0, efficientnet-b1, efficientnet-b2, efficientnet-b3, efficientnet-b4, efficientnet-b5, efficientnet-b6, efficientnet-b7, efficientnet-b8".

(** The hyper-parameters of a convolution layer. *)
Definition conv_is (c : Conv2d) (i o k s g : Z) (b : bool) : Prop :=
  in_channels c = i /\ out_channels c = o /\ conv_kernel c = k /\
  conv_stride c = s /\ groups c = g /\ bias c = b.

(** What line 58 can raise. *)
Definition arithmetic_error (e : exn) : Prop :=
  match e with
  | OverflowError _ | TypeError _ => True
  | _ => False
  end.

(** What [EfficientNet.__init__] can raise once its two asserts have
    passed. *)
Definition raised_after_asserts (e : exn) : Prop :=
  arithmetic_error e \/
  e = AttributeError "image_size" \/
  e = UnboundLocalError "block_args" \/
  e = ValueError "dropout probability has to be between 0 and 1" \/
  e = RuntimeError "Trying to create tensor with negative dimension".

(** [nn.BatchNorm2d] takes a batch of this shape: the layer is not in
    training mode, or there is more than one value per channel. *)
Definition norm_accepts (b : BatchNorm2d) (sh : Shape) : bool :=
  negb (bn_training b && one_value_per_channel sh).

(** The shape with height and width divided by the stride, rounding up. *)
Definition strided (sh : Shape) (s : Z) : Shape :=
  {| dimN := dimN sh; dimC := dimC sh; dimH := ceil_div (dimH sh) s;
     dimW := ceil_div (dimW sh) s |}.

(** Every batch normalisation of a block takes what [forward] hands it on an
    input of shape [sh]: [_bn0] the input size, [_bn1] and [_bn2] the size
    after the depthwise stride. *)
Definition block_norms_accept (self : MBConvBlock.t) (sh : Shape) : bool :=
  (if expand_ratio (MBConvBlock._block_args self) =? 1 then true
   else match MBConvBlock._bn0 self with
        | Some bn => norm_accepts bn sh
        | None => true
        end)
  && norm_accepts (MBConvBlock._bn1 self)
       (strided sh (stride (MBConvBlock._block_args self)))
  && norm_accepts (MBConvBlock._bn2 self)
       (strided sh (stride (MBConvBlock._block_args self))).

(** [oup] of [MBConvBlock.__init__]: the channels after expansion. *)
Definition working_channels (a : BlockArgs.t) : Z :=
  input_filters a * expand_ratio a.

(** The layers of a block agree with its block arguments. *)
Record block_wf (self : MBConvBlock.t) : Prop := {
  wf_has_se :
    MBConvBlock.has_se self =
      MBConvBlock.compute_has_se (MBConvBlock._block_args self);
  wf_id_skip :
    MBConvBlock.id_skip self = BlockArgs.id_skip (MBConvBlock._block_args self);
  wf_expand :
    expand_ratio (MBConvBlock._block_args self) <> 1 ->
    exists c bn,
      MBConvBlock._expand_conv self = Some c /\
      MBConvBlock._bn0 self = Some bn /\
      conv_is c (input_filters (MBConvBlock._block_args self))
                (working_channels (MBConvBlock._block_args self)) 1 1 1 false /\
      num_features bn = working_channels (MBConvBlock._block_args self);
  wf_depthwise :
    conv_is (MBConvBlock._depthwise_conv self)
            (working_channels (MBConvBlock._block_args self))
            (working_channels (MBConvBlock._block_args self))
            (kernel_size (MBConvBlock._block_args self))
            (stride (MBConvBlock._block_args self))
            (working_channels (MBConvBlock._block_args self)) false;
  wf_bn1 :
    num_features (MBConvBlock._bn1 self) =
      working_channels (MBConvBlock._block_args self);
  wf_se :
    MBConvBlock.has_se self = true ->
    exists r k cr ce,
      se_ratio (MBConvBlock._block_args self) = Some r /\
      (forall s,
          MBConvBlock.num_squeezed_channels (MBConvBlock._block_args self) s
          = (inr k, s)) /\
      MBConvBlock._se_reduce self = Some cr /\
      MBConvBlock._se_expand self = Some ce /\
      conv_is cr (working_channels (MBConvBlock._block_args self)) k
              1 1 1 true /\
      conv_is ce k (working_channels (MBConvBlock._block_args self))
              1 1 1 true;
  wf_project :
    conv_is (MBConvBlock._project_conv self)
            (working_channels (MBConvBlock._block_args self))
            (output_filters (MBConvBlock._block_args self)) 1 1 1 false;
  wf_bn2 :
    num_features (MBConvBlock._bn2 self) =
      output_filters (MBConvBlock._block_args self)
}.

(** A model whose blocks all satisfy [block_wf]. *)
Definition model_wf (m : EfficientNet.t) : Prop :=
  Forall block_wf (EfficientNet._blocks m).

(** The channel count of the reduced descriptor in the words of the
    specification: [max(1, round(input_filters * se_ratio))]. *)
Definition spec_num_squeezed_channels (a : BlockArgs.t) (r : Q) : Z :=
  Z.max 1 (round_half_even (inject_Z (input_filters a) * r)%Q).

(** A block of 7 filters with squeeze-excite ratio 0.25, expand ratio 1 and
    stride 1. *)
Definition narrow_block_args : BlockArgs.t :=
  {| kernel_size := 3; num_repeat := 1; input_filters := 7;
     output_filters := 7; expand_ratio := 1; id_skip := true; stride := 1;
     se_ratio := Some (1 # 4)%Q |}.

(** The output is the sum of something and the block's input. *)
Definition residual_added (out inputs : Tensor) : Prop :=
  exists y, expr out = Add y (expr inputs).

(** The cache positions, counted from 0 at the stem, that feed a block of
    stride 2: block [idx] reads position [idx] and writes [idx + 1]. *)
Fixpoint positions_before_stride2 (blocks : list MBConvBlock.t) (idx : Z)
    : list Z :=
  match blocks with
  | [] => []
  | b :: rest =>
      (if stride (MBConvBlock._block_args b) =? 2 then [idx] else [])
      ++ positions_before_stride2 rest (idx + 1)
  end.

(** A layer as the decoder constructs it: stride 1, one group, with bias. *)
Definition decoder_conv (self : EfficientNet.t) (i o k : Z) (w : nat) : Conv2d :=
  {| in_channels := i; out_channels := o; conv_kernel := k; conv_stride := 1;
     groups := 1; bias := true;
     pad_image_size := image_size (EfficientNet._global_params self);
     conv_type := EfficientNet._conv_type self; weight := w |}.

(** The expression the decoder returns, from its nine layers, the head
    output [x] and the four cached encoder outputs. *)
Definition decoder_output (conv1a conv1b conv1c conv2a conv2b conv3a conv3b
    conv4a conv4b : Conv2d) (x e5 e11 e13 e15 : Expr) : Expr :=
  let d_2x := Upsample2 (SwishOf (ApplyConv conv1a x)) in
  let d_4x := Upsample2 (SwishOf (ApplyConv conv1b (Cat [d_2x; e5]))) in
  let output4x_likelihood := ApplyConv conv1c d_4x in
  let d_8x :=
    Upsample2 (SwishOf (ApplyConv conv2a
                          (Cat [d_4x; e11; output4x_likelihood]))) in
  let output8x_likelihood := ApplyConv conv2b d_8x in
  let d_16x :=
    Upsample2 (SwishOf (ApplyConv conv3a
                          (Cat [d_8x; e13; output8x_likelihood]))) in
  let output16x_likelihood := ApplyConv conv3b d_16x in
  let d_16x_conv1 :=
    SwishOf (ApplyConv conv4a (Cat [d_16x; e15; output16x_likelihood])) in
  ApplyConv conv4b d_16x_conv1.

(** The shape returned for a (1,3,224,224) batch by 'efficientnet-b0'. *)
Definition b0_output_shape : Shape :=
  {| dimN := 1; dimC := 2; dimH := 112; dimW := 112 |}.

(** A computation never moves the generator backwards. *)
Definition mono {A} (m : M A) : Prop := forall s, (s <= (m s).2)%nat.

(** The convolutions held in the attributes of a block. *)
Definition block_convs (b : MBConvBlock.t) : list Conv2d :=
  option_list (MBConvBlock._expand_conv b) ++ [MBConvBlock._depthwise_conv b]
  ++ option_list (MBConvBlock._se_reduce b)
  ++ option_list (MBConvBlock._se_expand b)
  ++ [MBConvBlock._project_conv b].

(** Every convolution held in an attribute of the model or of its blocks. *)
Definition stored_convs (m : EfficientNet.t) : list Conv2d :=
  EfficientNet._conv_stem m
  :: concat (map block_convs (EfficientNet._blocks m))
  ++ [EfficientNet._conv_head m].

(** All weights were sampled before position [n]. *)
Definition sampled_before (n : rng) (l : list Conv2d) : Prop :=
  Forall (fun c => (weight c < n)%nat) l.

(** The same for every layer of a list of blocks. *)
Definition blocks_sampled_before (n : rng) (blocks : list MBConvBlock.t) : Prop :=
  Forall (fun b => sampled_before n (block_convs b)) blocks.

(** [l] lists the nine convolutions conv1a .. conv4b from which the decoder
    computed [out]. *)
Definition decoder_layers_of (out : Tensor) (l : list Conv2d) : Prop :=
  exists c1a c1b c1c c2a c2b c3a c3b c4a c4b x e5 e11 e13 e15,
    l = [c1a; c1b; c1c; c2a; c2b; c3a; c3b; c4a; c4b] /\
    expr out = decoder_output c1a c1b c1c c2a c2b c3a c3b c4a c4b
                              x e5 e11 e13 e15.

(** The weights of the outermost convolution of an expression. *)
Definition outer_weight (e : Expr) : option nat :=
  match e with
  | ApplyConv c _ => Some (weight c)
  | _ => None
  end.

(** ** Values the further properties are written with *)

(** The first [_replace] of the construction loop, lines 141-145. *)
Definition scale_stage (gp : GlobalParams) (a : BlockArgs.t) : BlockArgs.t :=
  replace_scaled a (round_filters (input_filters a) gp)
                 (round_filters (output_filters a) gp)
                 (round_repeats (num_repeat a) gp).

(** The block arguments one stage contributes: the scaled stage itself, then
    its repeats at stride 1 with the stage's output filters as input. *)
Definition stage_blocks (gp : GlobalParams) (a : BlockArgs.t)
    : list BlockArgs.t :=
  scale_stage gp a
  :: replicate (Z.to_nat (num_repeat (scale_stage gp a) - 1))
               (replace_repeat (scale_stage gp a)).

(** The value of the loop variable [block_args] when a stage is done. *)
Definition loop_variable (gp : GlobalParams) (a : BlockArgs.t) : BlockArgs.t :=
  if 1 <? num_repeat (scale_stage gp a) then replace_repeat (scale_stage gp a)
  else scale_stage gp a.

(** A computation leaves the generator where it was. *)
Definition still {A} (m : M A) : Prop := forall s, (m s).2 = s.

(** The weights of [l] were sampled at distinct positions in [s, s'). *)
Definition sampled_within (s s' : rng) (l : list Conv2d) : Prop :=
  Forall (fun c => (s <= weight c < s')%nat) l /\ NoDup (map weight l).

(** The 'efficientnet-b0' parameters with stochastic depth switched off. *)
Definition b0_global_params_no_drop : GlobalParams :=
  {| batch_norm_momentum := (99 # 100)%Q; batch_norm_epsilon := (1 # 1000)%Q;
     dropout_rate := (2 # 10)%Q; num_classes := 1000;
     width_coefficient := 1%Q; depth_coefficient := 1%Q;
     drop_connect_rate := None; image_size := Some 224 |}.

(** [t] has the batch size of [x] and [k] times its height and width. *)
Definition aligned (k : Z) (x t : Tensor) : Prop :=
  dimN (shape t) = dimN (shape x) /\
  dimH (shape t) = k * dimH (shape x) /\
  dimW (shape t) = k * dimW (shape x).

(** The computation returns some value and leaves the generator at [s']. *)
Definition returns {A} (r : (exn + A) * rng) (s' : rng) : Prop :=
  exists a, r = (inr a, s').

(** Blocks with the arguments [args], run one after the other on [c]
    channels, each get the channels they were built for, and every stride is
    positive. *)
Fixpoint blocks_fit (c : Z) (args : list BlockArgs.t) : bool :=
  match args with
  | [] => true
  | a :: rest =>
      (input_filters a =? c) && (0 <? stride a)
      && blocks_fit (output_filters a) rest
  end.

(** The same for the stages of a configuration, whose filters
    [EfficientNet.__init__] rounds. *)
Fixpoint stages_fit (gp : GlobalParams) (c : Z) (l : list BlockArgs.t) : bool :=
  match l with
  | [] => true
  | a :: rest =>
      (round_filters (input_filters a) gp =? c) && (0 <? stride a)
      && stages_fit gp (round_filters (output_filters a) gp) rest
  end.

(** The channels after the last of the blocks, [c] when there is none. *)
Definition last_filters (c : Z) (args : list BlockArgs.t) : Z :=
  match last args with
  | Some a => output_filters a
  | None => c
  end.

(** ** Construction from pretrained weights, lines 255-263 *)

(** [model._conv_stem = conv_stem], line 262. *)
Definition set_conv_stem (model : EfficientNet.t) (conv_stem : Conv2d)
    : EfficientNet.t :=
  {| EfficientNet._global_params := EfficientNet._global_params model;
     EfficientNet._blocks_args := EfficientNet._blocks_args model;
     EfficientNet._conv_type := EfficientNet._conv_type model;
     EfficientNet._conv_stem := conv_stem;
     EfficientNet._bn0 := EfficientNet._bn0 model;
     EfficientNet._blocks := EfficientNet._blocks model;
     EfficientNet._conv_head := EfficientNet._conv_head model;
     EfficientNet._bn1 := EfficientNet._bn1 model;
     EfficientNet._dropout := EfficientNet._dropout model;
     EfficientNet._fc := EfficientNet._fc model;
     EfficientNet._swish := EfficientNet._swish model;
     EfficientNet.training := EfficientNet.training model |}.

Section Pretrained.
(** [get_model_params] and [load_pretrained_weights] are defined in
    [utils.py], which is not among the sources; they are taken as
    parameters, and so is the override dict [{'num_classes': n}].  The
    loader changes the model in place: it is given the model and returns
    it. *)
Context {Overrides : Type}.
Variable get_model_params :
  string -> option Overrides -> M (EfficientNet.blocks_arg * GlobalParams).
Variable num_classes_override : Z -> Overrides.
Variable load_pretrained_weights :
  EfficientNet.t -> string -> bool -> bool -> M EfficientNet.t.

Definition from_pretrained (model_name conv_type : string) (advprop : bool)
    (num_classes in_channels : Z) : M EfficientNet.t :=
  model ← EfficientNet.from_name get_model_params model_name conv_type
            (Some (num_classes_override num_classes));
  model ← load_pretrained_weights model model_name (num_classes =? 1000)
            advprop;
  if negb (in_channels =? 3) then
    let Conv2d :=
      get_same_padding_conv2d
        (image_size (EfficientNet._global_params model))
        (EfficientNet._conv_type model) in
    let out_channels := round_filters 32 (EfficientNet._global_params model) in
    conv_stem ← Conv2d in_channels out_channels 3 2 1 false;
    mret (set_conv_stem model conv_stem)
  else mret model.
End Pretrained.

(** ** Stand-ins for the registry and the loader of [utils.py] *)

(** A registry that knows the 'efficientnet-b0' configuration only. *)
Definition b0_registry (model_name : string) (override_params : option unit)
    : M (EfficientNet.blocks_arg * GlobalParams) :=
  mret (EfficientNet.PyList b0_blocks_args, b0_global_params).

(** A loader that leaves the model as it is. *)
Definition load_nothing (model : EfficientNet.t) (model_name : string)
    (load_fc advprop : bool) : M EfficientNet.t :=
  mret model.

(** ** Reasoning about the monad *)

Lemma bind_unfold {A B} (m : M A) (f : A -> M B) (s : rng) :
  (m ≫= f) s = match m s with
               | (inl e, s') => (inl e, s')
               | (inr a, s') => f a s'
               end.
Proof. reflexivity. Qed.

Lemma bind_inr {A B} (m : M A) (f : A -> M B) s b s' :
  (m ≫= f) s = (inr b, s') ->
  exists a s1, m s = (inr a, s1) /\ f a s1 = (inr b, s').
Proof.
  rewrite bind_unfold. destruct (m s) as [[e|a] s1]; [discriminate|].
  intros H. exists a, s1. split; [reflexivity | exact H].
Qed.

Lemma bind_inl {A B} (m : M A) (f : A -> M B) s e s' :
  (m ≫= f) s = (inl e, s') ->
  m s = (inl e, s') \/ exists a s1, m s = (inr a, s1) /\ f a s1 = (inl e, s').
Proof.
  rewrite bind_unfold. destruct (m s) as [[e0|a0] s1].
  - intros H. injection H as -> ->. left. reflexivity.
  - intros H. right. exists a0, s1. auto.
Qed.

Lemma bind_ok {A B} (m : M A) (f : A -> M B) s a s1 :
  m s = (inr a, s1) -> (m ≫= f) s = f a s1.
Proof. intros H. rewrite bind_unfold, H. reflexivity. Qed.

Lemma bind_err {A B} (m : M A) (f : A -> M B) s e s1 :
  m s = (inl e, s1) -> (m ≫= f) s = (inl e, s1).
Proof. intros H. rewrite bind_unfold, H. reflexivity. Qed.

Lemma ret_inr {A} (a b : A) (s s' : rng) :
  mret (M := M) a s = (inr b, s') -> b = a /\ s' = s.
Proof. intros H. injection H as <- <-. auto. Qed.

(** ** Rounding to a double *)

Lemma two_pos : (0 < 2)%Q. Proof. reflexivity. Qed.
Lemma two_gt_1 : (1 < 2)%Q. Proof. reflexivity. Qed.
Lemma two_neq_0 : ~ (2 == 0)%Q. Proof. discriminate. Qed.

Lemma pow2_pos (e : Z) : (0 < 2 ^ e)%Q.
Proof. apply Qpower_0_lt, two_pos. Qed.

Lemma pow2_inject (k : Z) : 0 <= k -> (2 ^ k == inject_Z (2 ^ k))%Q.
Proof. intros H. rewrite Zpower_Qpower by exact H. reflexivity. Qed.

(** [2 ^ ilog2 q <= q < 2 ^ (ilog2 q + 1)] for a positive [q]. *)
Lemma ilog2_spec (q : Q) :
  (0 < q)%Q -> (2 ^ ilog2 q <= q)%Q /\ (q < 2 ^ (ilog2 q + 1))%Q.
Proof.
  intros Hq. destruct q as [a b]. unfold ilog2. cbn [Qnum Qden].
  assert (Ha : 0 < a) by (unfold Qlt in Hq; simpl in Hq; lia).
  pose proof (Z.log2_spec a Ha) as [Hal Hau].
  pose proof (Z.log2_spec (Zpos b) (Pos2Z.is_pos b)) as [Hbl Hbu].
  pose proof (Z.log2_nonneg a) as Hla.
  pose proof (Z.log2_nonneg (Zpos b)) as Hlb.
  set (la := Z.log2 a) in *. set (lb := Z.log2 (Zpos b)) in *.
  assert (Hab : (a # b == inject_Z a / inject_Z (Zpos b))%Q)
    by apply Qmake_Qdiv.
  assert (Hb0 : (0 < inject_Z (Zpos b))%Q) by reflexivity.
  (* 2^(la-lb-1) <= a/b < 2^(la-lb+1) *)
  assert (Hlow : (2 ^ (la - lb - 1) <= a # b)%Q).
  { rewrite Hab. replace (la - lb - 1) with (la - (lb + 1)) by lia.
    rewrite Qpower_minus by exact two_neq_0.
    rewrite !pow2_inject by lia.
    apply Qle_shift_div_l; [exact Hb0|].
    apply Qle_trans with (inject_Z (2 ^ la) / inject_Z (2 ^ (lb + 1))
                          * inject_Z (2 ^ (lb + 1)))%Q.
    - apply Qmult_le_l.
      + apply Qlt_shift_div_l.
        * change 0%Q with (inject_Z 0). rewrite <- Zlt_Qlt. lia.
        * rewrite Qmult_0_l. change 0%Q with (inject_Z 0).
          rewrite <- Zlt_Qlt. lia.
      + rewrite <- Zle_Qle. lia.
    - assert (H2 : ~ (inject_Z (2 ^ (lb + 1)) == 0)%Q).
      { intros H. apply (Qlt_irrefl 0). rewrite <- H at 2.
        change 0%Q with (inject_Z 0). rewrite <- Zlt_Qlt. lia. }
      unfold Qdiv. rewrite <- Qmult_assoc, (Qmult_comm (/ _)).
      rewrite Qmult_inv_r by exact H2. rewrite Qmult_1_r.
      rewrite <- Zle_Qle. exact Hal. }
  assert (Hup : (a # b < 2 ^ (la - lb + 1))%Q).
  { rewrite Hab. replace (la - lb + 1) with (la + 1 - lb) by lia.
    rewrite Qpower_minus by exact two_neq_0.
    rewrite !pow2_inject by lia.
    apply Qlt_shift_div_r; [exact Hb0|].
    assert (H2 : (0 < inject_Z (2 ^ lb))%Q).
    { change 0%Q with (inject_Z 0). rewrite <- Zlt_Qlt. lia. }
    apply Qlt_le_trans with (inject_Z (2 ^ (la + 1)))%Q.
    - rewrite <- Zlt_Qlt. exact Hau.
    - apply Qle_trans with (inject_Z (2 ^ (la + 1)) / inject_Z (2 ^ lb)
                            * inject_Z (2 ^ lb))%Q.
      + unfold Qdiv. rewrite <- Qmult_assoc, (Qmult_comm (/ _)).
        rewrite Qmult_inv_r; [rewrite Qmult_1_r; apply Qle_refl|].
        intros H. rewrite H in H2. discriminate.
      + apply Qmult_le_l.
        * apply Qlt_shift_div_l; [exact H2|]. rewrite Qmult_0_l.
          change 0%Q with (inject_Z 0). rewrite <- Zlt_Qlt. lia.
        * rewrite <- Zle_Qle. exact Hbl. }
  destruct (Qle_bool (2 ^ (la - lb)) (a # b)) eqn:Hc.
  - apply Qle_bool_iff in Hc. split; [exact Hc | exact Hup].
  - split; [exact Hlow|].
    replace (la - lb - 1 + 1) with (la - lb) by lia.
    apply Qnot_le_lt. intros H. apply Qle_bool_iff in H. congruence.
Qed.

Lemma ilog2_lt (q : Q) (k : Z) : (0 < q)%Q -> (q < 2 ^ k)%Q -> ilog2 q < k.
Proof.
  intros Hq Hk. destruct (ilog2_spec q Hq) as [Hl _].
  apply (Qpower_lt_compat_l_inv 2); [|exact two_gt_1].
  apply Qle_lt_trans with q; assumption.
Qed.

Lemma round_half_even_int (q : Q) (k : Z) :
  (q == inject_Z k)%Q -> round_half_even q = k.
Proof.
  intros H. unfold round_half_even.
  assert (Hf : Qfloor q = k) by (rewrite H; apply Qfloor_Z).
  rewrite Hf.
  assert (Hd : ((q - inject_Z k) ?= (1 # 2))%Q = Lt).
  { apply -> Qlt_alt. rewrite H. unfold Qminus. rewrite Qplus_opp_r.
    reflexivity. }
  rewrite Hd. reflexivity.
Qed.

Lemma round_half_even_le (q : Q) (k : Z) :
  (q <= inject_Z k)%Q -> round_half_even q <= k.
Proof.
  intros H. unfold round_half_even.
  pose proof (Qfloor_le q) as Hfl.
  assert (Hfk : Qfloor q <= k).
  { rewrite <- (Qfloor_Z k). apply Qfloor_resp_le, H. }
  destruct (Z.eq_dec (Qfloor q) k) as [E|E].
  - (* then q == k *)
    assert (Hq : (q == inject_Z k)%Q).
    { apply Qle_antisym; [exact H|]. rewrite <- E. exact Hfl. }
    assert (Hd : ((q - inject_Z (Qfloor q)) ?= (1 # 2))%Q = Lt).
    { apply -> Qlt_alt. rewrite E, Hq. unfold Qminus. rewrite Qplus_opp_r.
      reflexivity. }
    rewrite Hd. lia.
  - destruct ((q - inject_Z (Qfloor q)) ?= (1 # 2))%Q;
      [destruct (Z.even (Qfloor q))| |]; lia.
Qed.

Lemma round_half_even_ge (q : Q) (k : Z) :
  (inject_Z k <= q)%Q -> k <= round_half_even q.
Proof.
  intros H. unfold round_half_even.
  assert (Hfk : k <= Qfloor q).
  { rewrite <- (Qfloor_Z k). apply Qfloor_resp_le, H. }
  destruct ((q - inject_Z (Qfloor q)) ?= (1 # 2))%Q;
    [destruct (Z.even (Qfloor q))| |]; lia.
Qed.

Lemma to_double_comp (q1 q2 : Q) : (q1 == q2)%Q -> to_double q1 = to_double q2.
Proof. intros H. unfold to_double. rewrite (Qred_complete _ _ H). reflexivity. Qed.

(** An integer multiple of [2 ^ e] for [e <= 0]. *)
Lemma int_on_grid (k e : Z) :
  e <= 0 -> (inject_Z k / 2 ^ e == inject_Z (k * 2 ^ (- e)))%Q.
Proof.
  intros He. rewrite inject_Z_mult, <- (pow2_inject (- e)) by lia.
  rewrite Qpower_opp. reflexivity.
Qed.

Lemma scale_back (m e : Z) :
  e <= 0 -> (inject_Z (m * 2 ^ (- e)) * 2 ^ e == inject_Z m)%Q.
Proof.
  intros He. rewrite inject_Z_mult, <- (pow2_inject (- e)) by lia.
  rewrite Qpower_opp, <- Qmult_assoc, (Qmult_comm (/ _)).
  rewrite Qmult_inv_r, Qmult_1_r; [reflexivity|].
  apply Qpower_not_0, two_neq_0.
Qed.

Lemma pow2_53_lt_1024 : (inject_Z (2 ^ 53) < 2 ^ 1024)%Q.
Proof.
  rewrite <- pow2_inject by lia.
  apply Qpower_lt_compat_l; [lia | exact two_gt_1].
Qed.

Lemma Qabs_nonneg_eq (q : Q) : (0 <= q)%Q -> Qabs q = q.
Proof.
  destruct q as [a b]. unfold Qle, Qabs. simpl. intros H.
  rewrite Z.abs_eq by lia. reflexivity.
Qed.

(** Rounding does not carry a value in [0, k] past the integer [k] when
    [k] is below [2 ^ 53], where the integers are doubles. *)
Lemma to_double_below (q : Q) (k : Z) :
  (0 <= q)%Q -> (q <= inject_Z k)%Q -> k < 2 ^ 53 ->
  exists v, to_double q = Some v /\ (0 <= v)%Q /\ (v <= inject_Z k)%Q.
Proof.
  intros H0 Hk Hlt. unfold to_double.
  pose proof (Qred_correct q) as Hred.
  set (q' := Qred q) in *.
  destruct (Qeq_bool q' 0) eqn:Hz.
  - exists 0%Q. split; [reflexivity|]. split; [apply Qle_refl|].
    apply Qle_trans with q; assumption.
  - assert (Hpos : (0 < q')%Q).
    { apply Qle_lt_or_eq in H0 as [H0|H0]; [rewrite Hred; exact H0|].
      exfalso. assert (Hq : (q' == 0)%Q) by (rewrite Hred, <- H0; reflexivity).
      apply Qeq_bool_iff in Hq. congruence. }
    rewrite (Qabs_nonneg_eq q') by apply Qlt_le_weak, Hpos.
    assert (Hq53 : (q' < 2 ^ 53)%Q).
    { rewrite Hred. apply Qle_lt_trans with (inject_Z k); [exact Hk|].
      rewrite pow2_inject by lia. rewrite <- Zlt_Qlt. exact Hlt. }
    pose proof (ilog2_lt q' 53 Hpos Hq53) as Hlog.
    set (e := Z.max (ilog2 q' - 52) (-1074)).
    assert (He : e <= 0) by (unfold e; lia).
    set (m := round_half_even (q' / 2 ^ e)).
    assert (Hm0 : 0 <= m).
    { apply round_half_even_ge. change (inject_Z 0) with 0%Q.
      apply Qle_shift_div_l; [apply pow2_pos|]. rewrite Qmult_0_l.
      apply Qlt_le_weak, Hpos. }
    assert (Hmk : m <= k * 2 ^ (- e)).
    { apply round_half_even_le. rewrite <- int_on_grid by exact He.
      apply Qmult_le_compat_r.
      - rewrite Hred. exact Hk.
      - apply Qlt_le_weak, Qinv_lt_0_compat, pow2_pos. }
    assert (Hv0 : (0 <= inject_Z m * 2 ^ e)%Q).
    { apply Qmult_le_0_compat; [|apply Qlt_le_weak, pow2_pos].
      change 0%Q with (inject_Z 0). rewrite <- Zle_Qle. exact Hm0. }
    assert (Hvk : (inject_Z m * 2 ^ e <= inject_Z k)%Q).
    { rewrite <- (scale_back k e He).
      apply Qmult_le_compat_r; [|apply Qlt_le_weak, pow2_pos].
      rewrite <- Zle_Qle. exact Hmk. }
    rewrite (Qabs_nonneg_eq _ Hv0).
    destruct (Qle_bool (2 ^ 1024) (inject_Z m * 2 ^ e)) eqn:Hov.
    + exfalso. apply Qle_bool_iff in Hov.
      apply (Qlt_irrefl (2 ^ 1024)).
      apply Qle_lt_trans with (inject_Z k).
      * apply Qle_trans with (inject_Z m * 2 ^ e)%Q; assumption.
      * apply Qlt_trans with (inject_Z (2 ^ 53)).
        -- rewrite <- Zlt_Qlt. exact Hlt.
        -- exact pow2_53_lt_1024.
    + eexists. split; [reflexivity|]. rewrite Qred_correct. auto.
Qed.

(** Integers below [2 ^ 53] in absolute value are doubles. *)
Lemma to_double_int (n : Z) :
  Z.abs n < 2 ^ 53 ->
  exists v, to_double (inject_Z n) = Some v /\ (v == inject_Z n)%Q.
Proof.
  intros Hn. unfold to_double.
  pose proof (Qred_correct (inject_Z n)) as Hred.
  set (q' := Qred (inject_Z n)) in *.
  destruct (Qeq_bool q' 0) eqn:Hz.
  - exists 0%Q. split; [reflexivity|].
    apply Qeq_bool_iff in Hz. rewrite <- Hred, Hz. reflexivity.
  - assert (Hne : ~ (q' == 0)%Q).
    { intros H. apply Qeq_bool_iff in H. congruence. }
    assert (Hpos : (0 < Qabs q')%Q).
    { pose proof (Qabs_nonneg q') as H.
      apply Qle_lt_or_eq in H as [H|H]; [exact H|].
      exfalso. apply Hne. symmetry in H. revert H.
      apply Qabs_case; intros _ H; [exact H|].
      rewrite <- (Qopp_involutive q'), H. reflexivity. }
    assert (Habs : (Qabs q' == inject_Z (Z.abs n))%Q).
    { rewrite Hred. unfold Qabs, inject_Z. reflexivity. }
    assert (Hq53 : (Qabs q' < 2 ^ 53)%Q).
    { rewrite Habs, pow2_inject by lia. rewrite <- Zlt_Qlt. exact Hn. }
    pose proof (ilog2_lt _ 53 Hpos Hq53) as Hlog.
    set (e := Z.max (ilog2 (Qabs q') - 52) (-1074)).
    assert (He : e <= 0) by (unfold e; lia).
    assert (Hm : round_half_even (q' / 2 ^ e) = n * 2 ^ (- e)).
    { apply round_half_even_int. rewrite Hred. apply int_on_grid, He. }
    rewrite Hm.
    assert (Hv : (inject_Z (n * 2 ^ (- e)) * 2 ^ e == inject_Z n)%Q)
      by apply scale_back, He.
    destruct (Qle_bool (2 ^ 1024) (Qabs (inject_Z (n * 2 ^ (- e)) * 2 ^ e)))
      eqn:Hov.
    + exfalso. apply Qle_bool_iff in Hov. rewrite Hv, <- Hred, Habs in Hov.
      apply (Qlt_irrefl (2 ^ 1024)).
      apply Qle_lt_trans with (inject_Z (Z.abs n)); [exact Hov|].
      apply Qlt_trans with (inject_Z (2 ^ 53)).
      * rewrite <- Zlt_Qlt. exact Hn.
      * exact pow2_53_lt_1024.
    + eexists. split; [reflexivity|]. rewrite Qred_correct. exact Hv.
Qed.

(** ** The tensor operations and the constructors, read backwards *)

Lemma conv2d_inr c x s y s' :
  conv2d c x s = (inr y, s') ->
  s' = s /\ dimC (shape x) = in_channels c /\ 0 < conv_stride c /\
  y = {| shape := {| dimN := dimN (shape x); dimC := out_channels c;
                     dimH := ceil_div (dimH (shape x)) (conv_stride c);
                     dimW := ceil_div (dimW (shape x)) (conv_stride c) |};
         expr := ApplyConv c (expr x) |}.
Proof.
  unfold conv2d.
  destruct (dimC (shape x) =? in_channels c) eqn:Hc; simpl; [|discriminate].
  destruct (conv_stride c <=? 0) eqn:Hs; [discriminate|].
  intros H. injection H as <- <-.
  apply Z.eqb_eq in Hc. apply Z.leb_gt in Hs. auto.
Qed.

Lemma conv2d_ok c x s :
  dimC (shape x) = in_channels c -> 0 < conv_stride c ->
  conv2d c x s =
    (inr {| shape := {| dimN := dimN (shape x); dimC := out_channels c;
                        dimH := ceil_div (dimH (shape x)) (conv_stride c);
                        dimW := ceil_div (dimW (shape x)) (conv_stride c) |};
            expr := ApplyConv c (expr x) |}, s).
Proof.
  intros Hc Hs. unfold conv2d.
  apply Z.eqb_eq in Hc. rewrite Hc. simpl.
  apply Z.leb_gt in Hs. rewrite Hs. reflexivity.
Qed.

Lemma batch_norm_inr b x s y s' :
  batch_norm b x s = (inr y, s') ->
  s' = s /\ dimC (shape x) = num_features b /\
  y = {| shape := shape x; expr := ApplyBN b (expr x) |}.
Proof.
  unfold batch_norm.
  destruct (bn_training b && one_value_per_channel (shape x));
    [discriminate|].
  destruct (dimC (shape x) =? num_features b) eqn:Hc; simpl; [|discriminate].
  intros H. injection H as <- <-. apply Z.eqb_eq in Hc. auto.
Qed.

Lemma batch_norm_ok b x s :
  norm_accepts b (shape x) = true ->
  dimC (shape x) = num_features b ->
  batch_norm b x s = (inr {| shape := shape x; expr := ApplyBN b (expr x) |}, s).
Proof.
  intros Ha Hc. unfold batch_norm. unfold norm_accepts in Ha.
  apply negb_true_iff in Ha. rewrite Ha.
  apply Z.eqb_eq in Hc. rewrite Hc. reflexivity.
Qed.

Lemma batch_norm_refuses b x s :
  norm_accepts b (shape x) = false ->
  batch_norm b x s = (inl (one_value_error (shape x)), s).
Proof.
  intros Ha. unfold batch_norm. unfold norm_accepts in Ha.
  apply negb_false_iff in Ha. rewrite Ha. reflexivity.
Qed.

(** Only the batch size and the spatial size matter. *)
Lemma norm_accepts_dims b (sh sh' : Shape) :
  dimN sh = dimN sh' -> dimH sh = dimH sh' -> dimW sh = dimW sh' ->
  norm_accepts b sh = norm_accepts b sh'.
Proof.
  intros HN HH HW. unfold norm_accepts, one_value_per_channel.
  rewrite HN, HH, HW. reflexivity.
Qed.

Lemma norm_accepts_sized b (sh : Shape) :
  one_value_per_channel sh = false -> norm_accepts b sh = true.
Proof. intros H. unfold norm_accepts. rewrite H, andb_false_r. reflexivity. Qed.

(** Two or more images of positive size always give more than one value per
    channel. *)
Lemma norm_accepts_batch b (sh : Shape) :
  2 <= dimN sh -> 1 <= dimH sh -> 1 <= dimW sh -> norm_accepts b sh = true.
Proof.
  intros HN HH HW. unfold norm_accepts, one_value_per_channel.
  apply negb_true_iff, andb_false_iff. right. apply Z.eqb_neq. nia.
Qed.

Lemma new_conv_inr (size : option Z) (ct : string) (i o k st g : Z) (b : bool)
    (s : rng) (c : Conv2d) (s' : rng) :
  get_same_padding_conv2d size ct i o k st g b s = (inr c, s') ->
  s' = S s /\
  c = {| in_channels := i; out_channels := o; conv_kernel := k;
         conv_stride := st; groups := g; bias := b; pad_image_size := size;
         conv_type := ct; weight := s |}.
Proof. intros H. injection H as <- <-. auto. Qed.

Lemma new_Dropout_inr (p : Q) (s : rng) (q : Q) (s' : rng) :
  new_Dropout p s = (inr q, s') -> q = p /\ s' = s /\ (0 <= p <= 1)%Q.
Proof.
  unfold new_Dropout.
  destruct (Qle_bool 0 p) eqn:H0; [|discriminate].
  destruct (Qle_bool p 1) eqn:H1; [|discriminate].
  intros H. apply ret_inr in H as [-> ->].
  apply Qle_bool_iff in H0. apply Qle_bool_iff in H1. auto.
Qed.

Lemma new_Linear_inr (i o : Z) (s : rng) (fc : Linear) (s' : rng) :
  new_Linear i o s = (inr fc, s') ->
  s' = S s /\
  fc = {| in_features := i; out_features := o; fc_weight := s |} /\
  0 <= i /\ 0 <= o.
Proof.
  unfold new_Linear.
  destruct (i <? 0) eqn:Hi; [discriminate|].
  destruct (o <? 0) eqn:Ho; [discriminate|].
  intros H. injection H as <- <-.
  apply Z.ltb_ge in Hi. apply Z.ltb_ge in Ho. auto.
Qed.

Lemma getattr_inr {A} name (o : option A) s a s' :
  getattr name o s = (inr a, s') -> o = Some a /\ s' = s.
Proof.
  destruct o as [a'|]; simpl; [|discriminate].
  intros H. injection H as <- <-. auto.
Qed.

Lemma broadcast_dim_refl a : broadcast_dim a a = Some a.
Proof. unfold broadcast_dim. rewrite Z.eqb_refl. reflexivity. Qed.

Lemma broadcast_refl a : broadcast a a = Some a.
Proof.
  unfold broadcast. rewrite !broadcast_dim_refl. simpl. destruct a; reflexivity.
Qed.

Lemma broadcast_dim_one b : broadcast_dim 1 b = Some b.
Proof.
  unfold broadcast_dim. destruct (1 =? b) eqn:H.
  - apply Z.eqb_eq in H. subst. reflexivity.
  - reflexivity.
Qed.

Lemma ceil_div_1 a : ceil_div a 1 = a.
Proof. unfold ceil_div. rewrite Z.div_1_r. lia. Qed.

Lemma cat_inr xs s y s' :
  cat xs s = (inr y, s') ->
  exists x rest, xs = x :: rest /\ s' = s /\
    Forall (fun t => dimN (shape t) = dimN (shape x) /\
                     dimH (shape t) = dimH (shape x) /\
                     dimW (shape t) = dimW (shape x)) rest /\
    y = {| shape := {| dimN := dimN (shape x);
                       dimC := foldr (fun t acc => dimC (shape t) + acc) 0 xs;
                       dimH := dimH (shape x); dimW := dimW (shape x) |};
           expr := Cat (map expr xs) |}.
Proof.
  destruct xs as [|x rest]; simpl; [discriminate|].
  destruct (forallb _ rest) eqn:Hall; [|discriminate].
  intros H. injection H as <- <-.
  exists x, rest. repeat split; try reflexivity.
  apply Forall_forall. intros t Ht.
  rewrite forallb_forall in Hall.
  apply list_elem_of_In in Ht. specialize (Hall t Ht).
  unfold same_outside_channels in Hall.
  apply andb_prop in Hall as [Hall Hw]. apply andb_prop in Hall as [Hn Hh].
  apply Z.eqb_eq in Hn, Hh, Hw. auto.
Qed.

(** ** Activation mode (set_swish) *)

Lemma activation_of_negb me : activation_of me <> activation_of (negb me).
Proof. destruct me; discriminate. Qed.

Lemma block_set_swish_mode b me :
  MBConvBlock._swish (MBConvBlock.set_swish b me) = activation_of me.
Proof. reflexivity. Qed.

(** C10.  After [EfficientNet.set_swish], the backbone's activation unit and
    the activation unit of every block are in the mode that was asked for,
    and none is in the other mode; the blocks themselves are the same blocks
    in the same order. *)
Theorem set_swish_consistent (self : EfficientNet.t) (memory_efficient : bool) :
  let m := EfficientNet.set_swish self memory_efficient in
  EfficientNet._swish m = activation_of memory_efficient /\
  length (EfficientNet._blocks m) = length (EfficientNet._blocks self) /\
  Forall (fun b => MBConvBlock._swish b = activation_of memory_efficient)
         (EfficientNet._blocks m) /\
  Forall (fun b => MBConvBlock._swish b <> activation_of (negb memory_efficient))
         (EfficientNet._blocks m) /\
  EfficientNet._swish m <> activation_of (negb memory_efficient).
Proof.
  simpl. split; [reflexivity|]. split; [apply length_map|].
  split; [|split].
  - induction (EfficientNet._blocks self) as [|b l IH]; simpl; constructor.
    + apply block_set_swish_mode.
    + exact IH.
  - induction (EfficientNet._blocks self) as [|b l IH]; simpl; constructor.
    + rewrite block_set_swish_mode. apply activation_of_negb.
    + exact IH.
  - apply activation_of_negb.
Qed.

(** ** Model names *)

Lemma valid_models_nine : EfficientNet.valid_models = nine_names.
Proof. reflexivity. Qed.

Lemma check_valid name s :
  name ∈ nine_names ->
  EfficientNet._check_model_name_is_valid name s = (inr tt, s).
Proof.
  intros H. unfold EfficientNet._check_model_name_is_valid.
  rewrite valid_models_nine, bool_decide_eq_true_2 by exact H. reflexivity.
Qed.

Lemma check_invalid name s :
  name ∉ nine_names ->
  EfficientNet._check_model_name_is_valid name s = (inl invalid_name_error, s).
Proof.
  intros H. unfold EfficientNet._check_model_name_is_valid.
  rewrite valid_models_nine, bool_decide_eq_false_2 by exact H. reflexivity.
Qed.

(** C7.  The name check raises the ValueError exactly on the names outside
    the nine identifiers and passes exactly on the nine; [from_name] and
    [get_image_size] raise that error on an invalid name before consulting
    the registry, and on a valid name continue with the registry. *)
Theorem model_name_validation (name : string) (s : rng) :
  (EfficientNet._check_model_name_is_valid name s = (inr tt, s)
     <-> name ∈ nine_names) /\
  (EfficientNet._check_model_name_is_valid name s = (inl invalid_name_error, s)
     <-> name ∉ nine_names) /\
  (forall (Overrides : Type)
          (get_model_params :
             string -> option Overrides ->
             M (EfficientNet.blocks_arg * GlobalParams))
          (conv_type : string) (override_params : option Overrides),
      EfficientNet.from_name get_model_params name conv_type override_params s =
        if bool_decide (name ∈ nine_names)
        then (p ← get_model_params name override_params;
              EfficientNet.__init__ p.1 (Some p.2) conv_type) s
        else (inl invalid_name_error, s)) /\
  (forall efficientnet_params : string -> M (Q * Q * Z * Q),
      EfficientNet.get_image_size efficientnet_params name s =
        if bool_decide (name ∈ nine_names)
        then (p ← efficientnet_params name; mret p.1.2) s
        else (inl invalid_name_error, s)).
Proof.
  destruct (decide (name ∈ nine_names)) as [Hin|Hout].
  - pose proof (check_valid name s Hin) as Hc.
    split; [|split; [|split]].
    + split; auto.
    + split; [|contradiction]. intros H. rewrite Hc in H. discriminate.
    + intros. rewrite bool_decide_eq_true_2 by exact Hin.
      unfold EfficientNet.from_name. rewrite (bind_ok _ _ _ _ _ Hc). reflexivity.
    + intros. rewrite bool_decide_eq_true_2 by exact Hin.
      unfold EfficientNet.get_image_size.
      rewrite (bind_ok _ _ _ _ _ Hc). reflexivity.
  - pose proof (check_invalid name s Hout) as Hc.
    split; [|split; [|split]].
    + split; [|contradiction]. intros H. rewrite Hc in H. discriminate.
    + split; auto.
    + intros. rewrite bool_decide_eq_false_2 by exact Hout.
      unfold EfficientNet.from_name. apply bind_err, Hc.
    + intros. rewrite bool_decide_eq_false_2 by exact Hout.
      unfold EfficientNet.get_image_size. apply bind_err, Hc.
Qed.

(** ** What [MBConvBlock.__init__] builds *)

Lemma compute_has_se_true a :
  MBConvBlock.compute_has_se a = true ->
  exists r, se_ratio a = Some r /\ (0 < r)%Q /\ (r <= 1)%Q.
Proof.
  unfold MBConvBlock.compute_has_se. destruct (se_ratio a) as [r|]; [|discriminate].
  intros H. apply andb_prop in H as [H0 H1]. exists r. split; [reflexivity|].
  split.
  - apply negb_true_iff in H0. destruct (Qlt_le_dec 0 r) as [Hlt|Hle]; [exact Hlt|].
    apply Qle_bool_iff in Hle. congruence.
  - apply Qle_bool_iff, H1.
Qed.

Lemma compute_has_se_in_range a r :
  se_ratio a = Some r -> (0 < r)%Q -> (r <= 1)%Q ->
  MBConvBlock.compute_has_se a = true.
Proof.
  intros Hr H0 H1. unfold MBConvBlock.compute_has_se. rewrite Hr.
  apply andb_true_intro. split.
  - apply negb_true_iff. destruct (Qle_bool r 0) eqn:H; [|reflexivity].
    apply Qle_bool_iff in H. exfalso. apply (Qlt_not_le _ _ H0 H).
  - apply Qle_bool_iff, H1.
Qed.

Ltac run_init :=
  unfold get_same_padding_conv2d, new_BatchNorm2d, sample;
  repeat (rewrite bind_unfold; simpl).

(** The channel count of line 58 does not touch the generator. *)
Lemma num_squeezed_channels_pure (a : BlockArgs.t) :
  exists x : exn + Z,
    MBConvBlock.num_squeezed_channels a = (fun s => (x, s)) /\
    match x with inl e => arithmetic_error e | inr _ => True end.
Proof.
  unfold MBConvBlock.num_squeezed_channels, float_of_int, int_of_float,
    float_mul.
  destruct (se_ratio a) as [r|]; [|eexists; split; [reflexivity|exact I]].
  destruct (to_double (inject_Z (input_filters a))) as [x|];
    [|eexists; split; [reflexivity|exact I]].
  cbv [mbind M_bind mret M_ret raise]. cbv beta iota.
  destruct (to_double (x * r)); eexists; (split; [reflexivity|exact I]).
Qed.

(** The parts of [block_wf] that do not depend on the channel count. *)
Ltac wf_fields :=
  constructor; simpl; unfold conv_is, working_channels; simpl;
  try (repeat split; reflexivity); try congruence;
  try (intros H; discriminate H).

(** [MBConvBlock.__init__], when it returns, has sampled at least the
    depthwise and projection weights and has established [block_wf]; the
    block and its batch normalisations are in training mode. *)
Lemma MBConvBlock_init_inr (a : BlockArgs.t) (gp : GlobalParams)
    (ct : string) (s : rng) (b : MBConvBlock.t) (s' : rng) :
  MBConvBlock.__init__ a gp ct s = (inr b, s') ->
  (s < s')%nat /\
  block_wf b /\ MBConvBlock._block_args b = a /\
  MBConvBlock._swish b = MemoryEfficientSwish /\
  MBConvBlock.training b = true /\
  bn_training (MBConvBlock._bn1 b) = true /\
  bn_training (MBConvBlock._bn2 b) = true /\
  (forall bn, MBConvBlock._bn0 b = Some bn -> bn_training bn = true).
Proof.
  unfold MBConvBlock.__init__.
  destruct (MBConvBlock.compute_has_se a) eqn:Hse.
  - destruct (compute_has_se_true a Hse) as (r & Hr & _ & _).
    destruct (num_squeezed_channels_pure a) as [[e|k] [Hk _]]; rewrite Hk.
    + destruct (expand_ratio a =? 1); run_init; discriminate.
    + destruct (expand_ratio a =? 1) eqn:He; run_init;
        intros H; injection H as <- <-;
        (split; [lia|]); (split; [|simpl; repeat split; auto;
                                   intros bn Hbn; try discriminate Hbn;
                                   injection Hbn as <-; reflexivity]);
        wf_fields.
      * intros Hne. apply Z.eqb_eq in He. contradiction.
      * intros _. exists r, k. eexists _, _.
        repeat split; eauto. intros s0. rewrite Hk. reflexivity.
      * intros _. eexists _, _. repeat split; eauto.
      * intros _. exists r, k. eexists _, _.
        repeat split; eauto. intros s0. rewrite Hk. reflexivity.
  - destruct (expand_ratio a =? 1) eqn:He; run_init;
      intros H; injection H as <- <-;
      (split; [lia|]); (split; [|simpl; repeat split; auto;
                                 intros bn Hbn; try discriminate Hbn;
                                 injection Hbn as <-; reflexivity]);
      wf_fields.
    + intros Hne. apply Z.eqb_eq in He. contradiction.
    + intros _. eexists _, _. repeat split; eauto.
Qed.

(** Line 58 returns when the filter count is a double: the product with a
    ratio in (0,1] is then rounded to a double that is not an infinity. *)
Lemma num_squeezed_channels_returns (a : BlockArgs.t) (r : Q) (s : rng) :
  se_ratio a = Some r -> (0 < r)%Q -> (r <= 1)%Q ->
  0 <= input_filters a < 2 ^ 53 ->
  exists k q,
    MBConvBlock.num_squeezed_channels a s = (inr k, s) /\
    to_double (inject_Z (input_filters a) * r) = Some q /\
    k = Z.max 1 (int q) /\
    (0 <= q)%Q /\ (q <= inject_Z (input_filters a))%Q.
Proof.
  intros Hr H0 H1 Hn.
  unfold MBConvBlock.num_squeezed_channels, float_of_int. rewrite Hr.
  destruct (to_double_int (input_filters a)) as (x & Hx & Hxn); [lia|].
  rewrite Hx. rewrite bind_unfold. cbn [mret M_ret].
  unfold float_mul, int_of_float.
  rewrite (to_double_comp (x * r) (inject_Z (input_filters a) * r))
    by (rewrite Hxn; reflexivity).
  destruct (to_double_below (inject_Z (input_filters a) * r) (input_filters a))
    as (v & Hv & Hv0 & Hvn).
  - apply Qmult_le_0_compat; [|apply Qlt_le_weak, H0].
    change 0%Q with (inject_Z 0). rewrite <- Zle_Qle. lia.
  - rewrite <- (Qmult_1_r (inject_Z (input_filters a))) at 2.
    rewrite !(Qmult_comm (inject_Z (input_filters a))).
    apply Qmult_le_compat_r; [exact H1|].
    change 0%Q with (inject_Z 0). rewrite <- Zle_Qle. lia.
  - lia.
  - rewrite Hv. rewrite bind_unfold. cbn [mret M_ret].
    exists (Z.max 1 (int v)), v. auto.
Qed.

(** [MBConvBlock.__init__] returns when line 58 does. *)
Lemma MBConvBlock_init_spec (a : BlockArgs.t) (gp : GlobalParams)
    (ct : string) (s : rng) :
  (MBConvBlock.compute_has_se a = true -> 0 <= input_filters a < 2 ^ 53) ->
  exists b s',
    MBConvBlock.__init__ a gp ct s = (inr b, s') /\ (s < s')%nat /\
    block_wf b /\ MBConvBlock._block_args b = a /\
    MBConvBlock._swish b = MemoryEfficientSwish /\
    MBConvBlock.training b = true.
Proof.
  intros Hn.
  assert (Hex : exists b s', MBConvBlock.__init__ a gp ct s = (inr b, s')).
  { unfold MBConvBlock.__init__.
    destruct (MBConvBlock.compute_has_se a) eqn:Hse.
    - destruct (compute_has_se_true a Hse) as (r & Hr & H0 & H1).
      destruct (num_squeezed_channels_returns a r s Hr H0 H1 (Hn eq_refl))
        as (k & q & Hk & _).
      destruct (num_squeezed_channels_pure a) as [x [Hx _]].
      rewrite Hx in Hk. injection Hk as ->. rewrite Hx.
      destruct (expand_ratio a =? 1); run_init; eauto.
    - destruct (expand_ratio a =? 1); run_init; eauto. }
  destruct Hex as (b & s' & Hb). exists b, s'. split; [exact Hb|].
  destruct (MBConvBlock_init_inr _ _ _ _ _ _ Hb) as (H1 & H2 & H3 & H4 & H5 & _).
  auto.
Qed.

Lemma set_swish_wf b me : block_wf b -> block_wf (MBConvBlock.set_swish b me).
Proof. intros []. constructor; simpl; assumption. Qed.

(** ** What [EfficientNet.__init__] builds *)

Lemma repeat_blocks_spec (n : nat) (a : BlockArgs.t) (gp : GlobalParams)
    (ct : string) (blocks : list MBConvBlock.t) (s : rng)
    (blocks' : list MBConvBlock.t) (s' : rng) :
  EfficientNet.repeat_blocks n a gp ct blocks s = (inr blocks', s') ->
  (s <= s')%nat /\
  length blocks' = (length blocks + n)%nat /\
  (Forall block_wf blocks -> Forall block_wf blocks').
Proof.
  revert blocks s. induction n as [|n IH]; intros blocks s; simpl.
  - intros H. apply ret_inr in H as [-> ->]. repeat split; auto with arith.
  - intros H. apply bind_inr in H as (b & s1 & Hb & H).
    apply MBConvBlock_init_inr in Hb as (Hlt & Hwf & _).
    apply IH in H as (Hle & Hlen & Hall).
    split; [lia|]. split.
    + rewrite Hlen, length_app. simpl. lia.
    + intros H. apply Hall. apply Forall_app. split; [exact H|].
      constructor; [exact Hwf | constructor].
Qed.

Lemma build_blocks_spec (l : list BlockArgs.t) (gp : GlobalParams)
    (ct : string) (blocks : list MBConvBlock.t) (last : option BlockArgs.t)
    (s : rng) (blocks' : list MBConvBlock.t) (last' : option BlockArgs.t)
    (s' : rng) :
  EfficientNet.build_blocks l gp ct blocks last s = (inr (blocks', last'), s') ->
  (s <= s')%nat /\
  (length blocks + length l <= length blocks')%nat /\
  (l = [] -> last' = last /\ s' = s) /\
  (l <> [] -> is_Some last' /\ (s < s')%nat) /\
  (Forall block_wf blocks -> Forall block_wf blocks').
Proof.
  revert blocks last s. induction l as [|a l IH]; intros blocks last s; simpl.
  - intros H. apply ret_inr in H as [H ->]. injection H as -> ->.
    split; [lia|]. split; [simpl; lia|]. split; [auto|]. split; [|auto].
    intros Hne. contradiction.
  - set (a' := replace_scaled a _ _ _).
    set (a'' := if 1 <? num_repeat a' then replace_repeat a' else a').
    intros H. apply bind_inr in H as (b & s1 & Hb & H).
    apply MBConvBlock_init_inr in Hb as (Hlt & Hwf & _).
    apply bind_inr in H as (blocks1 & s2 & Hrep & H).
    apply repeat_blocks_spec in Hrep as (Hle & Hlen & Hall1).
    apply IH in H as (Hle' & Hlen' & Hnil & Hcons & Hall).
    split; [lia|]. split; [|split; [|split]].
    + rewrite Hlen, length_app in Hlen'. simpl in *. lia.
    + intros H. discriminate H.
    + intros _. split; [|lia]. destruct l as [|a0 l].
      * destruct (Hnil eq_refl) as [-> _]. eauto.
      * apply Hcons. discriminate.
    + intros H. apply Hall, Hall1, Forall_app. split; [exact H|].
      constructor; [exact Hwf | constructor].
Qed.

(** What [EfficientNet.__init__] has done when it returns. *)
Lemma EfficientNet_init_spec (ba : EfficientNet.blocks_arg)
    (gp : option GlobalParams) (ct : string) (s : rng) (m : EfficientNet.t)
    (s' : rng) :
  EfficientNet.__init__ ba gp ct s = (inr m, s') ->
  exists l,
    ba = EfficientNet.PyList l /\ l <> [] /\
    gp = Some (EfficientNet._global_params m) /\
    (s < s')%nat /\
    (length l <= length (EfficientNet._blocks m))%nat /\
    model_wf m /\
    EfficientNet._conv_type m = ct /\
    conv_is (EfficientNet._conv_stem m) 3
            (round_filters 32 (EfficientNet._global_params m)) 3 2 1 false /\
    (0 <= EfficientNet._dropout m <= 1)%Q /\
    0 <= out_features (EfficientNet._fc m).
Proof.
  unfold EfficientNet.__init__. destruct ba as [|l|l]; try discriminate.
  destruct l as [|a0 l0]; [discriminate|].
  change (negb (0 <? Z.of_nat (length (a0 :: l0)))) with false. cbv iota.
  destruct gp as [g|]; [|discriminate].
  rewrite bind_unfold. cbn [EfficientNet.the_global_params mret M_ret].
  intros H.
  apply bind_inr in H as (stem & s1 & Hstem & H).
  apply new_conv_inr in Hstem as [-> ->].
  apply bind_inr in H as (built & s2 & Hbuilt & H).
  destruct built as [blocks' last'].
  apply build_blocks_spec in Hbuilt as (Hle & Hlen & _ & Hcons & Hall).
  apply bind_inr in H as (a & s3 & Hlast & H).
  apply bind_inr in H as (head & s4 & Hhead & H).
  apply new_conv_inr in Hhead as [-> ->].
  apply bind_inr in H as (p & s5 & Hdrop & H).
  apply new_Dropout_inr in Hdrop as (-> & -> & Hp).
  apply bind_inr in H as (fc & s6 & Hfc & H).
  apply new_Linear_inr in Hfc as (-> & -> & _ & Hout).
  apply ret_inr in H as [-> ->].
  destruct Hcons as [_ Hlt]; [discriminate|].
  cbn [fst snd] in *.
  assert (Hs : (s3 = s2)).
  { destruct last'; [apply ret_inr in Hlast as [_ ->]; reflexivity
                    | discriminate Hlast]. }
  subst s3.
  exists (a0 :: l0). split; [reflexivity|]. split; [discriminate|].
  split; [reflexivity|]. split; [simpl; lia|].
  split; [simpl in *; lia|]. split; [apply Hall; constructor|].
  simpl. unfold conv_is. simpl. auto 12.
Qed.

Lemma EfficientNet_init_wf (ba : EfficientNet.blocks_arg)
    (gp : option GlobalParams) (ct : string) (s : rng) (m : EfficientNet.t)
    (s' : rng) :
  EfficientNet.__init__ ba gp ct s = (inr m, s') ->
  model_wf m /\ conv_stride (EfficientNet._conv_stem m) = 2.
Proof.
  intros H. apply EfficientNet_init_spec in H
    as (l & _ & _ & _ & _ & _ & Hwf & _ & Hstem & _).
  destruct Hstem as (_ & _ & _ & Hs & _). auto.
Qed.

Lemma EfficientNet_init_given (ba : EfficientNet.blocks_arg)
    (gp : option GlobalParams) (ct : string) (s : rng) (m : EfficientNet.t)
    (s' : rng) :
  EfficientNet.__init__ ba gp ct s = (inr m, s') ->
  gp = Some (EfficientNet._global_params m).
Proof.
  intros H. apply EfficientNet_init_spec in H as (l & _ & _ & Hgp & _).
  exact Hgp.
Qed.

(** *** What construction can raise *)

Lemma MBConvBlock_init_inl (a : BlockArgs.t) (gp : GlobalParams)
    (ct : string) (s : rng) (e : exn) (s' : rng) :
  MBConvBlock.__init__ a gp ct s = (inl e, s') -> arithmetic_error e.
Proof.
  unfold MBConvBlock.__init__.
  destruct (MBConvBlock.compute_has_se a).
  - destruct (num_squeezed_channels_pure a) as [[e0|k] [Hk He0]]; rewrite Hk.
    + destruct (expand_ratio a =? 1); run_init;
        intros H; injection H as <- _; exact He0.
    + destruct (expand_ratio a =? 1); run_init; discriminate.
  - destruct (expand_ratio a =? 1); run_init; discriminate.
Qed.

Lemma repeat_blocks_inl (n : nat) (a : BlockArgs.t) (gp : GlobalParams)
    (ct : string) (blocks : list MBConvBlock.t) (s : rng) (e : exn) (s' : rng) :
  EfficientNet.repeat_blocks n a gp ct blocks s = (inl e, s') ->
  arithmetic_error e.
Proof.
  revert blocks s. induction n as [|n IH]; intros blocks s; simpl.
  - discriminate.
  - intros H. apply bind_inl in H as [H|(b & s1 & _ & H)].
    + eapply MBConvBlock_init_inl, H.
    + eapply IH, H.
Qed.

Lemma build_blocks_inl (l : list BlockArgs.t) (gp : GlobalParams)
    (ct : string) (blocks : list MBConvBlock.t) (last : option BlockArgs.t)
    (s : rng) (e : exn) (s' : rng) :
  EfficientNet.build_blocks l gp ct blocks last s = (inl e, s') ->
  arithmetic_error e.
Proof.
  revert blocks last s. induction l as [|a l IH]; intros blocks last s; simpl.
  - discriminate.
  - intros H. apply bind_inl in H as [H|(b & s1 & _ & H)].
    + eapply MBConvBlock_init_inl, H.
    + apply bind_inl in H as [H|(blocks1 & s2 & _ & H)].
      * eapply repeat_blocks_inl, H.
      * eapply IH, H.
Qed.

Lemma EfficientNet_init_inl (b : BlockArgs.t) (l : list BlockArgs.t)
    (gp : option GlobalParams) (ct : string) (s : rng) (e : exn) (s' : rng) :
  EfficientNet.__init__ (EfficientNet.PyList (b :: l)) gp ct s = (inl e, s') ->
  raised_after_asserts e.
Proof.
  unfold EfficientNet.__init__, raised_after_asserts.
  change (negb (0 <? Z.of_nat (length (b :: l)))) with false. cbv iota.
  intros H. apply bind_inl in H as [H|(g & s0 & _ & H)].
  { destruct gp; [discriminate H|]. injection H as <- _. auto. }
  apply bind_inl in H as [H|(stem & s1 & _ & H)]; [discriminate H|].
  apply bind_inl in H as [H|(built & s2 & _ & H)].
  { left. eapply build_blocks_inl, H. }
  apply bind_inl in H as [H|(a & s3 & _ & H)].
  { destruct built.2; [discriminate H|]. injection H as <- _. auto. }
  apply bind_inl in H as [H|(head & s4 & _ & H)]; [discriminate H|].
  apply bind_inl in H as [H|(p & s5 & _ & H)].
  { unfold new_Dropout in H.
    destruct (Qle_bool 0 _ && Qle_bool _ 1); [discriminate H|].
    injection H as <- _. auto 6. }
  apply bind_inl in H as [H|(fc & s6 & _ & H)]; [|discriminate H].
  unfold new_Linear in H.
  destruct ((_ <? 0) || (_ <? 0)); [|discriminate H].
  injection H as <- _. auto 6.
Qed.

(** C8.  Construction rejects a [blocks_args] that is not a list (the default
    [None], or another sequence) and an empty list with an AssertionError
    raised before any layer has been constructed (the generator has not
    moved), whatever the other arguments are.  For every non-empty list
    both asserts pass: no AssertionError is raised, the stem is the first
    thing built, and a model that is returned holds at least one block per
    entry. *)
Theorem init_validates_blocks_args (gp : option GlobalParams) (ct : string)
    (s : rng) :
  EfficientNet.__init__ EfficientNet.PyNone gp ct s
    = (inl (AssertionError "blocks_args should be a list"), s) /\
  (forall l, EfficientNet.__init__ (EfficientNet.PyTuple l) gp ct s
    = (inl (AssertionError "blocks_args should be a list"), s)) /\
  EfficientNet.__init__ (EfficientNet.PyList []) gp ct s
    = (inl (AssertionError "block args must be greater than 0"), s) /\
  (forall b l,
      (forall msg s',
          EfficientNet.__init__ (EfficientNet.PyList (b :: l)) gp ct s
          <> (inl (AssertionError msg), s')) /\
      (forall m s',
          EfficientNet.__init__ (EfficientNet.PyList (b :: l)) gp ct s
          = (inr m, s') ->
          (s < s')%nat /\ weight (EfficientNet._conv_stem m) = s /\
          (length (b :: l) <= length (EfficientNet._blocks m))%nat)).
Proof.
  split; [reflexivity|]. split; [reflexivity|]. split; [reflexivity|].
  intros b l. split.
  - intros msg s' H. apply EfficientNet_init_inl in H.
    destruct H as [H|[H|[H|[H|H]]]]; [exact H|discriminate..].
  - intros m s' H. pose proof H as Hspec.
    apply EfficientNet_init_spec in Hspec
      as (l' & Hl & _ & _ & Hlt & Hlen & _).
    injection Hl as <-. split; [exact Hlt|]. split; [|exact Hlen].
    unfold EfficientNet.__init__ in H.
    change (negb (0 <? Z.of_nat (length (b :: l)))) with false in H.
    cbv iota in H.
    apply bind_inr in H as (g & s0 & Hg & H).
    destruct gp; [|discriminate Hg]. apply ret_inr in Hg as [-> ->].
    apply bind_inr in H as (stem & s1 & Hstem & H).
    apply new_conv_inr in Hstem as [-> ->].
    apply bind_inr in H as (built & s2 & _ & H).
    apply bind_inr in H as (a & s3 & _ & H).
    apply bind_inr in H as (head & s4 & _ & H).
    apply bind_inr in H as (p & s5 & _ & H).
    apply bind_inr in H as (fc & s6 & _ & H).
    apply ret_inr in H as [-> _]. reflexivity.
Qed.

(** A model the construction returns: the 'efficientnet-b0' stages with a
    valid dropout probability; and one it refuses after the asserts. *)
Lemma construction_after_asserts_examples :
  (exists m s',
      EfficientNet.__init__ (EfficientNet.PyList b0_blocks_args)
        (Some b0_global_params) "Equi" 0%nat = (inr m, s') /\
      length (EfficientNet._blocks m) = 16%nat) /\
  (exists s',
      EfficientNet.__init__ (EfficientNet.PyList b0_blocks_args)
        (Some {| batch_norm_momentum := (99 # 100)%Q;
                 batch_norm_epsilon := (1 # 1000)%Q;
                 dropout_rate := (3 # 2)%Q; num_classes := 1000;
                 width_coefficient := 1%Q; depth_coefficient := 1%Q;
                 drop_connect_rate := Some (2 # 10)%Q;
                 image_size := Some 224 |}) "Equi" 0%nat
      = (inl (ValueError "dropout probability has to be between 0 and 1"),
         s')).
Proof.
  split.
  - eexists _, _. split; [vm_compute; reflexivity|]. reflexivity.
  - eexists. vm_compute. reflexivity.
Qed.

(** ** Squeeze and excitation *)

Lemma int_nonneg (q : Q) : (0 <= q)%Q -> int q = Qfloor q.
Proof. intros H. unfold int. apply Qle_bool_iff in H. rewrite H. reflexivity. Qed.

Lemma broadcast_pooled (n c h w : Z) :
  broadcast {| dimN := n; dimC := c; dimH := 1; dimW := 1 |}
            {| dimN := n; dimC := c; dimH := h; dimW := w |}
  = Some {| dimN := n; dimC := c; dimH := h; dimW := w |}.
Proof.
  unfold broadcast. simpl.
  rewrite !broadcast_dim_refl, !broadcast_dim_one. reflexivity.
Qed.

Lemma squeeze_excite_ok (self : MBConvBlock.t) (cr ce : Conv2d) (x : Tensor)
    (s : rng) :
  MBConvBlock._se_reduce self = Some cr ->
  MBConvBlock._se_expand self = Some ce ->
  in_channels cr = dimC (shape x) -> conv_stride cr = 1 ->
  in_channels ce = out_channels cr -> conv_stride ce = 1 ->
  out_channels ce = dimC (shape x) ->
  MBConvBlock.squeeze_excite self x s =
    (inr {| shape := shape x;
            expr := Mul (Sigmoid (ApplyConv ce (SwishOf (ApplyConv cr
                      (AvgPool1 (expr x)))))) (expr x) |}, s).
Proof.
  intros Hr He Hcr Hsr Hce Hse Hout.
  unfold MBConvBlock.squeeze_excite, adaptive_avg_pool2d.
  rewrite bind_unfold. simpl. rewrite Hr, He.
  rewrite bind_unfold. simpl. rewrite bind_unfold. simpl.
  rewrite bind_unfold, conv2d_ok by (simpl; lia).
  rewrite bind_unfold. simpl.
  rewrite bind_unfold, conv2d_ok by (simpl; lia).
  rewrite bind_unfold. simpl. unfold mul. simpl.
  rewrite Hsr, Hse, Hout. unfold ceil_div. simpl.
  destruct x as [[n c h w] e]. simpl.
  rewrite broadcast_pooled. reflexivity.
Qed.

(** With 7 input filters and ratio 0.25 the product is 1.75: the block that
    [__init__] builds reduces to [max(1, int(1.75)) = 1] channel, whereas
    [max(1, round(1.75))] is 2. *)
Lemma se_reduce_truncates :
  exists b s',
    MBConvBlock.__init__ narrow_block_args b0_global_params "Equi" 0%nat
      = (inr b, s') /\
    MBConvBlock.has_se b = true /\
    out_channels <$> MBConvBlock._se_reduce b = Some 1 /\
    spec_num_squeezed_channels narrow_block_args (1 # 4)%Q = 2 /\
    out_channels <$> MBConvBlock._se_reduce b
      <> Some (spec_num_squeezed_channels narrow_block_args (1 # 4)%Q).
Proof.
  eexists _, _. split; [vm_compute; reflexivity|].
  split; [reflexivity|]. split; [reflexivity|]. split; [reflexivity|].
  vm_compute. discriminate.
Qed.

(** C4, amended.  For every block whose squeeze-excite ratio is set and lies
    in (0,1], the block that [__init__] returns has the squeeze-excitation
    sub-path: it reduces the pooled descriptor to exactly
    [max(1, int(input_filters * se_ratio))] channels, where the product is
    the float product (the filter count converted to a double, the product
    rounded to a double) and [int] truncates; it re-expands to the working
    channel count [input_filters * expand_ratio], and multiplies the sigmoid
    of the result onto the feature map. *)
Theorem se_path_channels (a : BlockArgs.t) (gp : GlobalParams) (ct : string)
    (s : rng) (r : Q) (b : MBConvBlock.t) (s' : rng) :
  se_ratio a = Some r -> (0 < r)%Q -> (r <= 1)%Q ->
  MBConvBlock.__init__ a gp ct s = (inr b, s') ->
  exists cr ce n q,
    MBConvBlock.has_se b = true /\
    MBConvBlock._se_reduce b = Some cr /\
    MBConvBlock._se_expand b = Some ce /\
    to_double (inject_Z (input_filters a)) = Some n /\
    float_mul n r = Some q /\
    conv_is cr (input_filters a * expand_ratio a)
            (Z.max 1 (int q)) 1 1 1 true /\
    conv_is ce (Z.max 1 (int q))
            (input_filters a * expand_ratio a) 1 1 1 true /\
    forall (x : Tensor) (s0 : rng),
      dimC (shape x) = input_filters a * expand_ratio a ->
      (exists pooled reduced,
          adaptive_avg_pool2d x s0 = (inr pooled, s0) /\
          conv2d cr pooled s0 = (inr reduced, s0) /\
          shape reduced =
            {| dimN := dimN (shape x);
               dimC := Z.max 1 (int q);
               dimH := 1; dimW := 1 |}) /\
      MBConvBlock.squeeze_excite b x s0 =
        (inr {| shape := shape x;
                expr := Mul (Sigmoid (ApplyConv ce (SwishOf (ApplyConv cr
                          (AvgPool1 (expr x)))))) (expr x) |}, s0).
Proof.
  intros Hr H0 H1 Hb.
  apply MBConvBlock_init_inr in Hb as (_ & Hwf & Hargs & _).
  pose proof (compute_has_se_in_range a r Hr H0 H1) as Hse.
  assert (Hhas : MBConvBlock.has_se b = true)
    by (rewrite (wf_has_se b Hwf), Hargs; exact Hse).
  destruct (wf_se b Hwf Hhas)
    as (r' & k & cr & ce & Hr' & Hk & Hcr & Hce & Hisr & Hise).
  rewrite Hargs in Hr', Hk, Hisr, Hise. unfold working_channels in *.
  assert (r' = r) by congruence. subst r'.
  assert (Hq : exists n q,
             to_double (inject_Z (input_filters a)) = Some n /\
             float_mul n r = Some q /\ k = Z.max 1 (int q)).
  { specialize (Hk 0%nat).
    unfold MBConvBlock.num_squeezed_channels, float_of_int in Hk.
    rewrite Hr in Hk.
    destruct (to_double (inject_Z (input_filters a))) as [n|];
      [|discriminate Hk].
    rewrite bind_unfold in Hk. cbn [mret M_ret] in Hk.
    unfold int_of_float in Hk.
    destruct (float_mul n r) as [q|] eqn:Hq; [|discriminate Hk].
    rewrite bind_unfold in Hk. cbn [mret M_ret] in Hk.
    injection Hk as <-. exists n, q. auto. }
  destruct Hq as (n & q & Hn & Hq & ->).
  exists cr, ce, n, q. repeat (split; [assumption|]).
  intros x s0 Hx.
  destruct Hisr as (Hri & Hro & _ & Hrs & _).
  destruct Hise as (Hei & Heo & _ & Hes & _).
  split.
  - eexists _, _. split; [reflexivity|]. split.
    + apply conv2d_ok; simpl; lia.
    + simpl. rewrite Hro, Hrs. reflexivity.
  - apply squeeze_excite_ok; auto; congruence.
Qed.

Lemma se_path_channels_witness :
  exists b s' cr,
    MBConvBlock.__init__ narrow_block_args b0_global_params "Equi" 0%nat
      = (inr b, s') /\
    MBConvBlock._se_reduce b = Some cr /\ out_channels cr = 1.
Proof.
  destruct (MBConvBlock_init_spec narrow_block_args b0_global_params "Equi"
              0%nat) as (b & s' & Hb & _); [intros _; simpl; lia|].
  destruct (se_path_channels narrow_block_args b0_global_params "Equi" 0%nat
              (1 # 4)%Q b s')
    as (cr & ce & n & q & _ & Hcr & _ & Hn & Hq & Hisr & _).
  - reflexivity.
  - reflexivity.
  - discriminate.
  - exact Hb.
  - exists b, s', cr. split; [exact Hb|]. split; [exact Hcr|].
    destruct Hisr as (_ & Ho & _). rewrite Ho.
    vm_compute in Hn. injection Hn as <-.
    vm_compute in Hq. injection Hq as <-. reflexivity.
Defined.

(** The float product of line 58 is not the exact one: 40 filters at the
    double nearest 0.3 give 12 channels, as Python does, where the exact
    product is just below 12. *)
Lemma squeezed_channels_round_the_product :
  let a := {| kernel_size := 3; num_repeat := 1; input_filters := 40;
              output_filters := 40; expand_ratio := 1; id_skip := true;
              stride := 1;
              se_ratio := Some (5404319552844595 # 18014398509481984)%Q |} in
  MBConvBlock.num_squeezed_channels a 0%nat = (inr 12, 0%nat) /\
  int (40 * (5404319552844595 # 18014398509481984)) = 11.
Proof. split; vm_compute; reflexivity. Qed.

(** [to_double] and [float_mul] agree with the IEEE 754 operations of the
    standard library on the values above and at the edges of the format. *)
Lemma to_double_agrees_with_SpecFloat :
  Forall (fun me : Z * Z =>
            to_double (inject_Z me.1 * 2 ^ me.2)
            = value_of (binary_normalize 53 1024 me.1 me.2 false))
         [ (40, 0); (7, 0); (5404319552844595, -54); (1, -2);
           (2 ^ 53 + 1, 0); (2 ^ 53 + 3, 0); (- (2 ^ 53 + 3), 0);
           (3, -1075); (1, -1075); (2 ^ 1024 - 2 ^ 970 - 1, 0);
           (2 ^ 1024 - 2 ^ 970, 0) ] /\
  Forall (fun p : (Z * Z) * (Z * Z) =>
            float_mul (inject_Z p.1.1 * 2 ^ p.1.2) (inject_Z p.2.1 * 2 ^ p.2.2)
            = value_of (SFmul 53 1024
                          (binary_normalize 53 1024 p.1.1 p.1.2 false)
                          (binary_normalize 53 1024 p.2.1 p.2.2 false)))
         [ ((40, 0), (5404319552844595, -54)); ((7, 0), (1, -2));
           ((24, 0), (3602879701896397, -55));
           ((2 ^ 53 - 1, 0), (2 ^ 53 - 1, -53));
           ((2 ^ 53 - 1, 971), (2, 0)) ].
Proof. split; repeat constructor; vm_compute; reflexivity. Qed.

(** ** The skip connection of a block *)

(** The projected branch ends in the batch normalisation [_bn2]. *)
Lemma branch_expr (self : MBConvBlock.t) (inputs x : Tensor) (s s' : rng) :
  MBConvBlock.branch self inputs s = (inr x, s') ->
  exists e, expr x = ApplyBN (MBConvBlock._bn2 self) e.
Proof.
  unfold MBConvBlock.branch. intros H.
  repeat (apply bind_inr in H; destruct H as (? & ? & _ & H)).
  apply batch_norm_inr in H as (_ & _ & ->). simpl. eauto.
Qed.

Lemma skip_condition_true (self : MBConvBlock.t) :
  MBConvBlock.skip_condition self = true <->
  MBConvBlock.id_skip self = true /\
  stride (MBConvBlock._block_args self) = 1 /\
  input_filters (MBConvBlock._block_args self)
    = output_filters (MBConvBlock._block_args self).
Proof.
  unfold MBConvBlock.skip_condition.
  rewrite !andb_true_iff, !Z.eqb_eq. tauto.
Qed.

Lemma add_inr (a b y : Tensor) (s s' : rng) :
  add a b s = (inr y, s') -> s' = s /\ expr y = Add (expr a) (expr b).
Proof.
  unfold add. destruct (broadcast (shape a) (shape b)); [|discriminate].
  intros H. injection H as <- <-. auto.
Qed.

Lemma gate_inr (self : MBConvBlock.t) (x g : Tensor) (rate : option Q)
    (s s' : rng) :
  MBConvBlock.gate self x rate s = (inr g, s') ->
  shape g = shape x /\
  (truthy rate = true ->
     exists p, rate = Some p /\
               drop_connect x p (MBConvBlock.training self) s = (inr g, s')) /\
  (truthy rate = false -> g = x /\ s' = s).
Proof.
  unfold MBConvBlock.gate. destruct rate as [p|].
  - destruct (truthy (Some p)) eqn:Ht.
    + intros H. split; [|split].
      * unfold drop_connect in H. destruct (MBConvBlock.training self).
        -- injection H as <- <-. reflexivity.
        -- injection H as <- <-. reflexivity.
      * intros _. exists p. auto.
      * discriminate.
    + intros H. injection H as <- <-. split; [reflexivity|].
      split; [discriminate|auto].
  - intros H. injection H as <- <-. split; [reflexivity|].
    split; [discriminate|auto].
Qed.

(** C5.  Whenever [forward] returns, the input has been added onto the
    projected branch exactly when the block's skip flag is set, its stride is
    1 and its input and output filter counts agree; in that case the summand
    is the branch passed through [drop_connect] when a non-zero rate was
    supplied, and the branch itself otherwise; without the skip the branch is
    returned as it is. *)
Theorem residual_iff_skip_condition (self : MBConvBlock.t) (inputs : Tensor)
    (rate : option Q) (s : rng) (out : Tensor) (s' : rng) :
  MBConvBlock.forward self inputs rate s = (inr out, s') ->
  exists x s1,
    MBConvBlock.branch self inputs s = (inr x, s1) /\
    (residual_added out inputs <->
       MBConvBlock.id_skip self = true /\
       stride (MBConvBlock._block_args self) = 1 /\
       input_filters (MBConvBlock._block_args self)
         = output_filters (MBConvBlock._block_args self)) /\
    (MBConvBlock.skip_condition self = true ->
       exists g,
         expr out = Add (expr g) (expr inputs) /\
         (truthy rate = true ->
            exists p, rate = Some p /\
              drop_connect x p (MBConvBlock.training self) s1 = (inr g, s')) /\
         (truthy rate = false -> g = x /\ s' = s1)) /\
    (MBConvBlock.skip_condition self = false -> out = x /\ s' = s1).
Proof.
  unfold MBConvBlock.forward. intros H.
  apply bind_inr in H as (x & s1 & Hbranch & H).
  exists x, s1. split; [exact Hbranch|].
  rewrite <- skip_condition_true.
  destruct (MBConvBlock.skip_condition self) eqn:Hskip.
  - apply bind_inr in H as (g & s2 & Hgate & Hadd).
    apply add_inr in Hadd as [-> Hexpr].
    apply gate_inr in Hgate as (_ & Hon & Hoff).
    split; [|split].
    + split; [reflexivity|]. intros _. exists (expr g). exact Hexpr.
    + intros _. exists g. auto.
    + discriminate.
  - apply ret_inr in H as [-> ->].
    split; [|split].
    + split; [|discriminate]. intros [y Hy].
      destruct (branch_expr _ _ _ _ _ Hbranch) as [e He]. congruence.
    + discriminate.
    + auto.
Qed.

Lemma residual_iff_skip_condition_witness :
  exists b s1 out s2,
    MBConvBlock.__init__ narrow_block_args b0_global_params "Equi" 0%nat
      = (inr b, s1) /\
    MBConvBlock.forward b (image 1 7 8 8) (Some (1 # 10)%Q) s1 = (inr out, s2) /\
    residual_added out (image 1 7 8 8).
Proof.
  destruct (MBConvBlock.__init__ narrow_block_args b0_global_params "Equi" 0%nat)
    as [[e|b] s1] eqn:Hb; vm_compute in Hb; [discriminate Hb|].
  injection Hb as Eb Es.
  destruct (MBConvBlock.forward b (image 1 7 8 8) (Some (1 # 10)%Q) s1)
    as [[e|out] s2] eqn:Hf;
    [subst b s1; vm_compute in Hf; discriminate Hf|].
  exists b, s1, out, s2. split; [reflexivity|]. split; [exact Hf|].
  destruct (residual_iff_skip_condition _ _ _ _ _ _ Hf) as (x & s1' & _ & Hiff & _).
  apply Hiff. subst b. repeat split; reflexivity.
Defined.

(** ** The shape the branch of a block returns *)

Lemma block_norms_accept_sized (self : MBConvBlock.t) (sh : Shape) :
  one_value_per_channel sh = false ->
  one_value_per_channel (strided sh (stride (MBConvBlock._block_args self)))
    = false ->
  block_norms_accept self sh = true.
Proof.
  intros H1 H2. unfold block_norms_accept.
  rewrite !(norm_accepts_sized _ _ H2), !andb_true_r.
  destruct (expand_ratio _ =? 1); [reflexivity|].
  destruct (MBConvBlock._bn0 self); [|reflexivity].
  apply norm_accepts_sized, H1.
Qed.

Lemma strided_one (sh : Shape) : strided sh 1 = sh.
Proof. destruct sh. unfold strided. simpl. rewrite !ceil_div_1. reflexivity. Qed.

(** Everything before the skip connection, on an input with the block's
    input filters: the branch returns the projected tensor when every batch
    normalisation takes its input, and raises the error of the first one
    that does not. *)
Lemma wf_branch_shape (self : MBConvBlock.t) (inputs : Tensor) (s : rng) :
  block_wf self ->
  0 < stride (MBConvBlock._block_args self) ->
  dimC (shape inputs) = input_filters (MBConvBlock._block_args self) ->
  if block_norms_accept self (shape inputs)
  then exists x,
         MBConvBlock.branch self inputs s = (inr x, s) /\
         shape x =
           {| dimN := dimN (shape inputs);
              dimC := output_filters (MBConvBlock._block_args self);
              dimH := ceil_div (dimH (shape inputs))
                               (stride (MBConvBlock._block_args self));
              dimW := ceil_div (dimW (shape inputs))
                               (stride (MBConvBlock._block_args self)) |}
  else exists sh, MBConvBlock.branch self inputs s
                  = (inl (one_value_error sh), s).
Proof.
  intros Hwf Hstride Hc.
  destruct Hwf as [Hhas _ Hexp Hdw Hbn1 Hse Hproj Hbn2].
  destruct Hdw as (Hdi & Hdo & _ & Hds & _).
  destruct Hproj as (Hpi & Hpo & _ & Hps & _).
  unfold MBConvBlock.branch, block_norms_accept.
  (* the expansion phase *)
  lazymatch goal with
  | |- context [(?m ≫= _) s] =>
      assert (Hx0 :
        if (if expand_ratio (MBConvBlock._block_args self) =? 1 then true
            else match MBConvBlock._bn0 self with
                 | Some bn => norm_accepts bn (shape inputs)
                 | None => true
                 end)
        then exists x0,
               m s = (inr x0, s) /\
               shape x0 =
                 {| dimN := dimN (shape inputs);
                    dimC := working_channels (MBConvBlock._block_args self);
                    dimH := dimH (shape inputs);
                    dimW := dimW (shape inputs) |}
        else exists sh, m s = (inl (one_value_error sh), s))
  end.
  { destruct (expand_ratio (MBConvBlock._block_args self) =? 1) eqn:He;
      cbn [negb].
    - apply Z.eqb_eq in He. exists inputs. split; [reflexivity|].
      unfold working_channels. rewrite He, Z.mul_1_r, <- Hc.
      destruct inputs as [[n c h w] e]. reflexivity.
    - apply Z.eqb_neq in He.
      destruct (Hexp He) as (c & bn & Hc' & Hbn' & Hcis & Hbnf).
      destruct Hcis as (Hci & Hco & _ & Hcs & _).
      rewrite Hc', Hbn'.
      rewrite bind_unfold. simpl. rewrite bind_unfold. simpl.
      rewrite bind_unfold, conv2d_ok by lia.
      rewrite Hcs, !ceil_div_1.
      destruct (norm_accepts bn (shape inputs)) eqn:Hacc.
      + rewrite bind_unfold, batch_norm_ok
          by (try (erewrite norm_accepts_dims; [exact Hacc|..]);
              simpl; try reflexivity; lia).
        eexists. split; [reflexivity|]. simpl. rewrite Hco. reflexivity.
      + rewrite bind_unfold, batch_norm_refuses
          by (erewrite norm_accepts_dims; [exact Hacc|..]; reflexivity).
        eexists. reflexivity. }
  destruct (if expand_ratio (MBConvBlock._block_args self) =? 1 then true
            else match MBConvBlock._bn0 self with
                 | Some bn => norm_accepts bn (shape inputs)
                 | None => true
                 end).
  2:{ destruct Hx0 as (sh & Hx0). exists sh. apply bind_err, Hx0. }
  destruct Hx0 as (x0 & Hx0 & Hs0). cbn [andb].
  rewrite (bind_ok _ _ _ _ _ Hx0).
  rewrite bind_unfold, conv2d_ok by (rewrite ?Hs0; simpl; lia).
  rewrite Hds, Hs0. cbn [dimN dimH dimW].
  (* the first normalisation after the stride *)
  destruct (norm_accepts (MBConvBlock._bn1 self)
              (strided (shape inputs) (stride (MBConvBlock._block_args self))))
    eqn:Hacc1.
  2:{ rewrite bind_unfold, batch_norm_refuses
        by (erewrite norm_accepts_dims; [exact Hacc1|..]; reflexivity).
      eexists. reflexivity. }
  rewrite bind_unfold, batch_norm_ok
    by (try (erewrite norm_accepts_dims; [exact Hacc1|..]);
        simpl; try reflexivity; lia).
  rewrite bind_unfold. simpl.
  assert (Hse' :
    exists x2,
      (if MBConvBlock.has_se self
       then MBConvBlock.squeeze_excite self
              {| shape :=
                   {| dimN := dimN (shape inputs);
                      dimC := out_channels (MBConvBlock._depthwise_conv self);
                      dimH := ceil_div (dimH (shape inputs))
                                (stride (MBConvBlock._block_args self));
                      dimW := ceil_div (dimW (shape inputs))
                                (stride (MBConvBlock._block_args self)) |};
                 expr := SwishOf (ApplyBN (MBConvBlock._bn1 self)
                           (ApplyConv (MBConvBlock._depthwise_conv self)
                              (expr x0))) |}
       else mret
              {| shape :=
                   {| dimN := dimN (shape inputs);
                      dimC := out_channels (MBConvBlock._depthwise_conv self);
                      dimH := ceil_div (dimH (shape inputs))
                                (stride (MBConvBlock._block_args self));
                      dimW := ceil_div (dimW (shape inputs))
                                (stride (MBConvBlock._block_args self)) |};
                 expr := SwishOf (ApplyBN (MBConvBlock._bn1 self)
                           (ApplyConv (MBConvBlock._depthwise_conv self)
                              (expr x0))) |}) s = (inr x2, s) /\
      shape x2 =
        {| dimN := dimN (shape inputs);
           dimC := working_channels (MBConvBlock._block_args self);
           dimH := ceil_div (dimH (shape inputs))
                     (stride (MBConvBlock._block_args self));
           dimW := ceil_div (dimW (shape inputs))
                     (stride (MBConvBlock._block_args self)) |}).
  { destruct (MBConvBlock.has_se self) eqn:Hhas_se.
    - destruct (Hse eq_refl)
        as (r & k & cr & ce & _ & _ & Hcr & Hce & Hisr & Hise).
      destruct Hisr as (Hri & Hro & _ & Hrs & _).
      destruct Hise as (Hei & Heo & _ & Hes & _).
      erewrite squeeze_excite_ok; eauto; simpl; try lia.
      eexists. split; [reflexivity|]. simpl. rewrite Hdo. reflexivity.
    - eexists. split; [reflexivity|]. simpl. rewrite Hdo. reflexivity. }
  destruct Hse' as (x2 & Hx2 & Hs2).
  rewrite (bind_ok _ _ _ _ _ Hx2).
  rewrite bind_unfold, conv2d_ok by (rewrite ?Hs2; simpl; lia).
  rewrite Hps, Hs2, !ceil_div_1. cbn [dimN dimH dimW].
  destruct (norm_accepts (MBConvBlock._bn2 self)
              (strided (shape inputs) (stride (MBConvBlock._block_args self))))
    eqn:Hacc2.
  - rewrite batch_norm_ok
      by (try (erewrite norm_accepts_dims; [exact Hacc2|..]);
          simpl; try reflexivity; lia).
    eexists. split; [reflexivity|]. simpl. rewrite Hpo. reflexivity.
  - rewrite batch_norm_refuses
      by (erewrite norm_accepts_dims; [exact Hacc2|..]; reflexivity).
    eexists. reflexivity.
Qed.

(** ** Blocks that keep the shape of their input *)

Section IdentityBlock.
Variable self : MBConvBlock.t.
Variable inputs : Tensor.
Hypothesis Hwf : block_wf self.
Hypothesis Hexpand : expand_ratio (MBConvBlock._block_args self) = 1.
Hypothesis Hstride : stride (MBConvBlock._block_args self) = 1.
Hypothesis Hfilters :
  input_filters (MBConvBlock._block_args self)
    = output_filters (MBConvBlock._block_args self).
Hypothesis Hchannels :
  dimC (shape inputs) = input_filters (MBConvBlock._block_args self).
Hypothesis Hnorms : block_norms_accept self (shape inputs) = true.

(** The branch returns, leaves the generator alone, and keeps the shape. *)
Lemma identity_branch (s : rng) :
  exists x, MBConvBlock.branch self inputs s = (inr x, s) /\
            shape x = shape inputs.
Proof.
  pose proof (wf_branch_shape self inputs s Hwf) as H.
  rewrite Hnorms, Hstride in H.
  destruct H as (x & Hx & Hshape); [lia | exact Hchannels |].
  exists x. split; [exact Hx|].
  rewrite Hshape, !ceil_div_1, <- Hfilters, <- Hchannels.
  destruct inputs as [[n c h w] e]. reflexivity.
Qed.

Hypothesis Hskip : MBConvBlock.id_skip self = true.

Lemma identity_skip_condition : MBConvBlock.skip_condition self = true.
Proof. apply skip_condition_true. auto. Qed.

(** [forward] returns a tensor of the shape of its input. *)
Lemma identity_forward_shape (rate : option Q) (s : rng) :
  exists out s', MBConvBlock.forward self inputs rate s = (inr out, s') /\
                 shape out = shape inputs.
Proof.
  destruct (identity_branch s) as (x & Hx & Hshape).
  unfold MBConvBlock.forward.
  rewrite (bind_ok _ _ _ _ _ Hx), identity_skip_condition.
  assert (Hgate : exists g s', MBConvBlock.gate self x rate s = (inr g, s') /\
                               shape g = shape x).
  { unfold MBConvBlock.gate, drop_connect.
    destruct rate as [p|]; [|eauto].
    destruct (truthy (Some p)); [|eauto].
    destruct (MBConvBlock.training self); [|eauto].
    unfold sample. rewrite bind_unfold. simpl. eauto. }
  destruct Hgate as (g & s' & Hg & Hgs).
  rewrite (bind_ok _ _ _ _ _ Hg). unfold add.
  rewrite Hgs, Hshape, broadcast_refl. eauto.
Qed.

(** Without stochastic depth the output is the branch plus the input. *)
Lemma identity_forward_plain (rate : option Q) (s : rng) :
  truthy rate = false \/ MBConvBlock.training self = false ->
  exists x,
    MBConvBlock.branch self inputs s = (inr x, s) /\
    MBConvBlock.forward self inputs rate s =
      (inr {| shape := shape inputs; expr := Add (expr x) (expr inputs) |}, s).
Proof.
  intros Hoff.
  destruct (identity_branch s) as (x & Hx & Hshape).
  exists x. split; [exact Hx|].
  unfold MBConvBlock.forward.
  rewrite (bind_ok _ _ _ _ _ Hx), identity_skip_condition.
  assert (Hgate : MBConvBlock.gate self x rate s = (inr x, s)).
  { unfold MBConvBlock.gate, drop_connect.
    destruct rate as [p|]; [|reflexivity].
    destruct (truthy (Some p)) eqn:Ht; [|reflexivity].
    destruct Hoff as [Hoff|Hoff]; [discriminate|].
    rewrite Hoff. reflexivity. }
  rewrite (bind_ok _ _ _ _ _ Hgate). unfold add.
  rewrite Hshape, broadcast_refl. reflexivity.
Qed.
End IdentityBlock.

(** C6.  A block with expand_ratio 1, stride 1, equal input and output
    filter counts and the skip enabled returns, on an input with that many
    channels that its batch normalisations take (they are not in training
    mode, or the input holds more than one value per channel), a tensor of
    the input's shape; and when stochastic depth is off (no rate, a zero
    rate, or the block not in training mode) the output is exactly the
    projected branch plus the input, the branch being neither gated nor
    rescaled. *)
Theorem identity_block_output (self : MBConvBlock.t) (inputs : Tensor)
    (rate : option Q) (s : rng) :
  block_wf self ->
  expand_ratio (MBConvBlock._block_args self) = 1 ->
  stride (MBConvBlock._block_args self) = 1 ->
  input_filters (MBConvBlock._block_args self)
    = output_filters (MBConvBlock._block_args self) ->
  MBConvBlock.id_skip self = true ->
  dimC (shape inputs) = input_filters (MBConvBlock._block_args self) ->
  block_norms_accept self (shape inputs) = true ->
  (exists out s',
      MBConvBlock.forward self inputs rate s = (inr out, s') /\
      shape out = shape inputs) /\
  (truthy rate = false \/ MBConvBlock.training self = false ->
   exists x e,
     MBConvBlock.branch self inputs s = (inr x, s) /\
     expr x = ApplyBN (MBConvBlock._bn2 self) e /\
     MBConvBlock.forward self inputs rate s =
       (inr {| shape := shape inputs; expr := Add (expr x) (expr inputs) |}, s)).
Proof.
  intros Hwf He Hs Hf Hskip Hc Hn. split.
  - apply identity_forward_shape; assumption.
  - intros Hoff.
    destruct (identity_forward_plain self inputs Hwf Hs Hf Hc Hn Hskip rate
                s Hoff) as (x & Hx & Hfw).
    destruct (branch_expr _ _ _ _ _ Hx) as [e Hexpr].
    exists x, e. auto.
Qed.

Lemma truthy_false_iff (rate : option Q) :
  truthy rate = false <-> rate = None \/ exists q, rate = Some q /\ (q == 0)%Q.
Proof.
  destruct rate as [q|]; simpl.
  - rewrite negb_false_iff, Qeq_bool_iff. split.
    + intros H. right. eauto.
    + intros [H|(q' & H & H0)]; [discriminate|]. injection H as ->. exact H0.
  - split; auto.
Qed.

Lemma identity_block_output_witness :
  exists b s1 out,
    MBConvBlock.__init__ narrow_block_args b0_global_params "Equi" 0%nat
      = (inr b, s1) /\
    MBConvBlock.forward b (image 1 7 8 8) (Some 0%Q) s1 = (inr out, s1) /\
    shape out = shape (image 1 7 8 8).
Proof.
  destruct (MBConvBlock_init_spec narrow_block_args b0_global_params "Equi" 0%nat)
    as (b & s1 & Hb & _ & Hwf & Hargs & _); [intros _; simpl; lia|].
  assert (Hskip : MBConvBlock.id_skip b = true)
    by (rewrite (wf_id_skip b Hwf), Hargs; reflexivity).
  destruct (identity_block_output b (image 1 7 8 8) (Some 0%Q) s1 Hwf)
    as [_ Hplain]; try (rewrite Hargs; reflexivity); [exact Hskip| |].
  { apply block_norms_accept_sized; [|rewrite Hargs]; reflexivity. }
  destruct Hplain as (x & e & _ & _ & Hfw); [left; reflexivity|].
  eexists b, s1, _. split; [exact Hb|]. split; [exact Hfw|]. reflexivity.
Defined.

(** A freshly built block is in training mode: on a single value per channel
    its first batch normalisation raises. *)
Lemma identity_block_single_value :
  exists b s1,
    MBConvBlock.__init__ narrow_block_args b0_global_params "Equi" 0%nat
      = (inr b, s1) /\
    MBConvBlock.forward b (image 1 7 1 1) None s1
      = (inl (one_value_error (shape (image 1 7 1 1))), s1).
Proof. eexists _, _. split; vm_compute; reflexivity. Qed.

(** ** The cache of encoder outputs *)

Lemma run_blocks_keys (self : EfficientNet.t) (blocks : list MBConvBlock.t)
    (idx : Z) (x : Tensor) (skipconnection : gmap Z Tensor) (index : Z)
    (s : rng) (r : Tensor * gmap Z Tensor * Z) (s' : rng) :
  EfficientNet.run_blocks self blocks idx x skipconnection index s = (inr r, s') ->
  r.2 = index + Z.of_nat (length blocks) /\
  forall k, is_Some (r.1.2 !! k) <->
            is_Some (skipconnection !! k) \/
            (idx < k <= idx + Z.of_nat (length blocks)).
Proof.
  revert idx x skipconnection index s.
  induction blocks as [|b blocks IH]; intros idx x skipconnection index s; simpl.
  - intros H. apply ret_inr in H as [-> _]. simpl. split; [lia|].
    intros k. split; [auto|]. intros [H|H]; [exact H|lia].
  - intros H. apply bind_inr in H as (y & s1 & _ & H).
    apply IH in H as [Hindex Hkeys]. split; [lia|].
    intros k. specialize (Hkeys k). rewrite lookup_insert in Hkeys.
    rewrite Nat2Z.inj_succ.
    destruct (decide (idx + 1 = k)) as [<-|Hne].
    + split; [lia|]. intros _. apply Hkeys. left. eauto.
    + split.
      * intros H. apply Hkeys in H as [H|H]; [left; exact H|right; lia].
      * intros [H|H]; apply Hkeys; [left; exact H|right; lia].
Qed.

Lemma encoder_keys (self : EfficientNet.t) (inputs : Tensor) (s : rng)
    (x : Tensor) (skipconnection : gmap Z Tensor) (index : Z) (s' : rng) :
  EfficientNet.encoder self inputs s = (inr (x, skipconnection, index), s') ->
  index = Z.of_nat (length (EfficientNet._blocks self)) /\
  forall k, is_Some (skipconnection !! k) <-> 0 <= k <= index.
Proof.
  unfold EfficientNet.encoder. intros H.
  do 3 (apply bind_inr in H; destruct H as (? & ? & _ & H)).
  apply bind_inr in H as (r & s1 & Hrun & H).
  do 3 (apply bind_inr in H; destruct H as (? & ? & _ & H)).
  apply ret_inr in H as [H _]. injection H as _ Hskip Hidx.
  subst skipconnection index.
  apply run_blocks_keys in Hrun as [Hindex Hkeys].
  simpl in *. split; [lia|]. intros k. specialize (Hkeys k).
  rewrite lookup_insert in Hkeys.
  destruct (decide (0 = k)) as [<-|Hne].
  - split; [lia|]. intros _. apply Hkeys. left. eauto.
  - rewrite lookup_empty in Hkeys. split.
    + intros H. apply Hkeys in H as [[? H]|H]; [discriminate|lia].
    + intros H. apply Hkeys. right. lia.
Qed.

Lemma getitem_inr (skipconnection : gmap Z Tensor) (k : Z) (s : rng)
    (x : Tensor) (s' : rng) :
  EfficientNet.getitem skipconnection k s = (inr x, s') ->
  skipconnection !! k = Some x /\ s' = s.
Proof.
  unfold EfficientNet.getitem. destruct (skipconnection !! k); [|discriminate].
  intros H. injection H as <- <-. auto.
Qed.

Lemma fails_bind {A B} (m : M A) (f : A -> M B) (s : rng) :
  (forall a s1, m s = (inr a, s1) -> fails (f a s1)) -> fails ((m ≫= f) s).
Proof.
  intros H. rewrite bind_unfold. destruct (m s) as [[e|a] s1].
  - exists e, s1. reflexivity.
  - apply H. reflexivity.
Qed.

(** With the last of the four cached outputs missing, the decoder raises. *)
Lemma decoder_fails_without_key (self : EfficientNet.t) (x : Tensor)
    (skipconnection : gmap Z Tensor) (index : Z) (s : rng) :
  skipconnection !! (index - 15) = None ->
  fails (EfficientNet.decoder self x skipconnection index s).
Proof.
  intros Hnone. unfold EfficientNet.decoder.
  repeat (apply fails_bind; intros ? ? ?).
  exfalso.
  match goal with
  | H : EfficientNet.getitem _ (index - 15) _ = (inr _, _) |- _ =>
      apply getitem_inr in H as [H _]; congruence
  end.
Qed.

(** C9.  After the encoder has run, [index] is the number of blocks and the
    cache holds exactly the positions 0..index; so the four lookups at
    index-5, index-11, index-13 and index-15 are all defined exactly when
    there are at least 15 blocks, and with fewer the position index-15 is
    missing from the cache and the decoder raises.  For the
    'efficientnet-b0' configuration (16 blocks) the four positions are those
    read by the four blocks of stride 2. *)
Theorem skip_lookups_defined (self : EfficientNet.t) (inputs : Tensor)
    (s : rng) (x : Tensor) (skipconnection : gmap Z Tensor) (index : Z)
    (s' : rng) :
  EfficientNet.encoder self inputs s = (inr (x, skipconnection, index), s') ->
  index = Z.of_nat (length (EfficientNet._blocks self)) /\
  (is_Some (skipconnection !! (index - 5)) /\
   is_Some (skipconnection !! (index - 11)) /\
   is_Some (skipconnection !! (index - 13)) /\
   is_Some (skipconnection !! (index - 15))
   <-> (15 <= length (EfficientNet._blocks self))%nat) /\
  ((length (EfficientNet._blocks self) < 15)%nat ->
   skipconnection !! (index - 15) = None /\
   forall s0, fails (EfficientNet.decoder self x skipconnection index s0)) /\
  (forall ct s0, exists m s1,
      EfficientNet.__init__ (EfficientNet.PyList b0_blocks_args)
        (Some b0_global_params) ct s0 = (inr m, s1) /\
      length (EfficientNet._blocks m) = 16%nat /\
      positions_before_stride2 (EfficientNet._blocks m) 0
        = [16 - 15; 16 - 13; 16 - 11; 16 - 5]).
Proof.
  intros H. apply encoder_keys in H as [Hindex Hkeys].
  split; [exact Hindex|]. split; [|split].
  - pose proof (Hkeys (index - 5)). pose proof (Hkeys (index - 11)).
    pose proof (Hkeys (index - 13)). pose proof (Hkeys (index - 15)).
    split.
    + intros (_ & _ & _ & H15). assert (0 <= index - 15 <= index) by tauto. lia.
    + intros Hge. assert (15 <= index) by lia.
      repeat split; match goal with H : _ <-> _ |- _ => apply H; lia end.
  - intros Hlt.
    assert (Hnone : skipconnection !! (index - 15) = None).
    { destruct (skipconnection !! (index - 15)) eqn:Hk; [|reflexivity].
      assert (Hs : is_Some (skipconnection !! (index - 15))) by eauto.
      apply Hkeys in Hs. lia. }
    split; [exact Hnone|].
    intros s0. apply decoder_fails_without_key, Hnone.
  - intros ct s0. eexists _, _. split; [vm_compute; reflexivity|].
    split; reflexivity.
Qed.

(** ** The decoder *)

Lemma swish_inr (a : Activation) (x : Tensor) (s : rng) (y : Tensor) (s' : rng) :
  swish a x s = (inr y, s') ->
  s' = s /\ y = {| shape := shape x; expr := SwishOf (expr x) |}.
Proof. intros H. injection H as <- <-. auto. Qed.

Lemma interpolate_inr (x : Tensor) (s : rng) (y : Tensor) (s' : rng) :
  interpolate x s = (inr y, s') ->
  s' = s /\
  y = {| shape := {| dimN := dimN (shape x); dimC := dimC (shape x);
                     dimH := 2 * dimH (shape x); dimW := 2 * dimW (shape x) |};
         expr := Upsample2 (expr x) |}.
Proof. intros H. injection H as <- <-. auto. Qed.

Lemma cat_cons_inr (x : Tensor) (rest : list Tensor) (s : rng) (y : Tensor)
    (s' : rng) :
  cat (x :: rest) s = (inr y, s') ->
  s' = s /\
  Forall (fun t => dimN (shape t) = dimN (shape x) /\
                   dimH (shape t) = dimH (shape x) /\
                   dimW (shape t) = dimW (shape x)) rest /\
  y = {| shape := {| dimN := dimN (shape x);
                     dimC := foldr (fun t acc => dimC (shape t) + acc) 0
                                   (x :: rest);
                     dimH := dimH (shape x); dimW := dimW (shape x) |};
         expr := Cat (map expr (x :: rest)) |}.
Proof.
  intros H. apply cat_inr in H as (x' & rest' & Heq & Hs & Hall & Hy).
  injection Heq as <- <-. auto.
Qed.

(** The same inversions with the result kept abstract: its shape and its
    expression are recorded as two equations. *)
Lemma conv2d_inr_eqs c x s y s' :
  conv2d c x s = (inr y, s') ->
  s' = s /\
  shape y = {| dimN := dimN (shape x); dimC := out_channels c;
               dimH := ceil_div (dimH (shape x)) (conv_stride c);
               dimW := ceil_div (dimW (shape x)) (conv_stride c) |} /\
  expr y = ApplyConv c (expr x).
Proof. intros H. apply conv2d_inr in H as (-> & _ & _ & ->). auto. Qed.

Lemma swish_inr_eqs a x s y s' :
  swish a x s = (inr y, s') ->
  s' = s /\ shape y = shape x /\ expr y = SwishOf (expr x).
Proof. intros H. apply swish_inr in H as (-> & ->). auto. Qed.

Lemma interpolate_inr_eqs x s y s' :
  interpolate x s = (inr y, s') ->
  s' = s /\
  shape y = {| dimN := dimN (shape x); dimC := dimC (shape x);
               dimH := 2 * dimH (shape x); dimW := 2 * dimW (shape x) |} /\
  expr y = Upsample2 (expr x).
Proof. intros H. apply interpolate_inr in H as (-> & ->). auto. Qed.

Lemma cat_cons_inr_eqs x rest s y s' :
  cat (x :: rest) s = (inr y, s') ->
  s' = s /\
  Forall (fun t => dimH (shape t) = dimH (shape x)) rest /\
  shape y = {| dimN := dimN (shape x);
               dimC := foldr (fun t acc => dimC (shape t) + acc) 0 (x :: rest);
               dimH := dimH (shape x); dimW := dimW (shape x) |} /\
  expr y = Cat (map expr (x :: rest)).
Proof.
  intros H. apply cat_cons_inr in H as (-> & Hall & ->).
  split; [reflexivity|]. split; [|auto].
  eapply Forall_impl; [exact Hall|]. simpl. tauto.
Qed.

(** Express an equation about a new tensor through the shapes already
    known, so that every recorded equation stays small. *)
Ltac known_shapes E :=
  repeat match goal with
         | K : shape ?t = _ |- _ =>
             match type of E with
             | _ = ?rhs =>
                 match rhs with context [shape t] => rewrite K in E end
             end
         end;
  simpl in E.

(** One step backwards through a successful run of [decoder]. *)
Ltac inv_bind H :=
  let a := fresh "t" in
  let s := fresh "s" in
  let Hop := fresh "Hop" in
  let Hs := fresh "Hshape" in
  let He := fresh "Hexpr" in
  apply bind_inr in H; destruct H as (a & s & Hop & H);
  lazymatch type of Hop with
  | get_same_padding_conv2d _ _ _ _ _ _ _ _ _ = _ =>
      apply new_conv_inr in Hop; destruct Hop as [-> ->]
  | conv2d _ _ _ = _ =>
      apply conv2d_inr_eqs in Hop; destruct Hop as (-> & Hs & He);
      known_shapes Hs; known_shapes He
  | swish _ _ _ = _ =>
      apply swish_inr_eqs in Hop; destruct Hop as (-> & Hs & He);
      known_shapes Hs
  | interpolate _ _ = _ =>
      apply interpolate_inr_eqs in Hop; destruct Hop as (-> & Hs & He);
      known_shapes Hs
  | EfficientNet.getitem _ _ _ = _ =>
      apply getitem_inr in Hop; destruct Hop as [Hop ->]
  | cat (_ :: _) _ = _ =>
      let Hc := fresh "Hcat" in
      apply cat_cons_inr_eqs in Hop; destruct Hop as (-> & Hc & Hs & He);
      apply Forall_cons_1 in Hc; destruct Hc as [Hc _];
      known_shapes Hc; known_shapes Hs; simpl in He
  end.

Lemma decoder_inr (self : EfficientNet.t) (x : Tensor)
    (skipconnection : gmap Z Tensor) (index : Z) (s : rng) (out : Tensor)
    (s' : rng) :
  EfficientNet.decoder self x skipconnection index s = (inr out, s') ->
  exists s5 s11 s13 s15,
    skipconnection !! (index - 5) = Some s5 /\
    skipconnection !! (index - 11) = Some s11 /\
    skipconnection !! (index - 13) = Some s13 /\
    skipconnection !! (index - 15) = Some s15 /\
    expr out =
      decoder_output
        (decoder_conv self (dimC (shape x)) 512 3 s)
        (decoder_conv self (512 + dimC (shape s5)) 256 3 (1 + s))
        (decoder_conv self 256 2 3 (2 + s))
        (decoder_conv self (256 + dimC (shape s11) + 2) 128 3 (3 + s))
        (decoder_conv self 128 2 3 (4 + s))
        (decoder_conv self (128 + dimC (shape s13) + 2) 64 5 (5 + s))
        (decoder_conv self 64 2 3 (6 + s))
        (decoder_conv self (64 + dimC (shape s15) + 2) 64 5 (7 + s))
        (decoder_conv self 64 2 3 (8 + s))
        (expr x) (expr s5) (expr s11) (expr s13) (expr s15) /\
    shape out = {| dimN := dimN (shape x); dimC := 2;
                   dimH := 16 * dimH (shape x);
                   dimW := 16 * dimW (shape x) |} /\
    dimH (shape s15) = dimH (shape out) /\
    s' = (9 + s)%nat.
Proof.
  unfold EfficientNet.decoder. intros H.
  repeat inv_bind H.
  apply conv2d_inr_eqs in H as (-> & Hout_shape & Hout_expr).
  known_shapes Hout_shape. known_shapes Hout_expr.
  eexists _, _, _, _. repeat (split; [eassumption|]).
  split; [|split; [|split; [|reflexivity]]].
  - rewrite Hout_expr.
    repeat match goal with
           | E : expr ?t = _ |- context [expr ?t] => rewrite E
           end.
    unfold decoder_output, decoder_conv.
    repeat match goal with
           | |- context [?a + (?b + (?c + 0))] =>
               replace (a + (b + (c + 0))) with (a + b + c) by lia
           | |- context [?a + (?b + 0)] =>
               replace (a + (b + 0)) with (a + b) by lia
           end.
    reflexivity.
  - rewrite Hout_shape, !ceil_div_1. f_equal; lia.
  - rewrite Hout_shape. simpl.
    match goal with
    | Hc : dimH (shape ?t) = _ |- dimH (shape ?t) = _ => rewrite Hc
    end.
    rewrite !ceil_div_1. reflexivity.
Qed.

Lemma run_blocks_last (self : EfficientNet.t) (blocks : list MBConvBlock.t)
    (idx : Z) (x : Tensor) (skipconnection : gmap Z Tensor) (s : rng)
    (r : Tensor * gmap Z Tensor * Z) (s' : rng) :
  skipconnection !! idx = Some x ->
  EfficientNet.run_blocks self blocks idx x skipconnection idx s = (inr r, s') ->
  r.1.2 !! r.2 = Some r.1.1.
Proof.
  revert idx x skipconnection s.
  induction blocks as [|b blocks IH]; intros idx x skipconnection s Hx; simpl.
  - intros H. apply ret_inr in H as [-> _]. exact Hx.
  - intros H. apply bind_inr in H as (y & s1 & _ & H).
    apply IH in H; [exact H|]. apply lookup_insert_eq.
Qed.

(** The tensor handed to the decoder is the head (convolution, batch
    normalisation, activation) of the deepest cached encoder output. *)
Lemma encoder_head (self : EfficientNet.t) (inputs : Tensor) (s : rng)
    (x : Tensor) (skipconnection : gmap Z Tensor) (index : Z) (s' : rng) :
  EfficientNet.encoder self inputs s = (inr (x, skipconnection, index), s') ->
  exists deepest,
    skipconnection !! index = Some deepest /\
    expr x = SwishOf (ApplyBN (EfficientNet._bn1 self)
               (ApplyConv (EfficientNet._conv_head self) (expr deepest))).
Proof.
  unfold EfficientNet.encoder. intros H.
  do 3 (apply bind_inr in H; destruct H as (? & ? & _ & H)).
  apply bind_inr in H as (r & s1 & Hrun & H).
  apply bind_inr in H as (h1 & s2 & Hconv & H).
  apply bind_inr in H as (h2 & s3 & Hbn & H).
  apply bind_inr in H as (h3 & s4 & Hsw & H).
  apply ret_inr in H as [H _]. injection H as Hx Hskip Hidx.
  subst x skipconnection index.
  apply run_blocks_last in Hrun; [|apply lookup_insert_eq].
  apply conv2d_inr in Hconv as (_ & _ & _ & ->).
  apply batch_norm_inr in Hbn as (_ & _ & ->).
  apply swish_inr in Hsw as (_ & ->). simpl.
  exists r.1.1. auto.
Qed.

(** C3.  Whenever [extract_features] returns, its result is the decoder
    applied to the head of the deepest cached encoder output: a 3x3 stride-1
    convolution to 512 channels with activation and a x2 upsampling; the
    concatenation with the output cached 5 positions back, a 3x3 convolution
    to 256 channels with activation, a x2 upsampling and a 3x3 convolution to
    a 2-channel map; the same with 128 channels (3x3) and then 64 channels
    (5x5), concatenating the outputs cached 11 and 13 positions back and the
    previous 2-channel map; and a last stage that concatenates the output
    cached 15 positions back and the previous map, applies a 5x5 convolution
    to 64 channels with activation and, with no upsampling, the 3x3
    convolution whose 2-channel map is returned.  The nine convolutions are
    constructed during the call, one sample of the generator each. *)
Theorem decoder_structure (self : EfficientNet.t) (inputs : Tensor) (s : rng)
    (out : Tensor) (s' : rng) :
  EfficientNet.extract_features self inputs s = (inr out, s') ->
  exists x skipconnection index sd deepest s5 s11 s13 s15,
    EfficientNet.encoder self inputs s = (inr (x, skipconnection, index), sd) /\
    index = Z.of_nat (length (EfficientNet._blocks self)) /\
    skipconnection !! index = Some deepest /\
    expr x = SwishOf (ApplyBN (EfficientNet._bn1 self)
               (ApplyConv (EfficientNet._conv_head self) (expr deepest))) /\
    skipconnection !! (index - 5) = Some s5 /\
    skipconnection !! (index - 11) = Some s11 /\
    skipconnection !! (index - 13) = Some s13 /\
    skipconnection !! (index - 15) = Some s15 /\
    expr out =
      decoder_output
        (decoder_conv self (dimC (shape x)) 512 3 sd)
        (decoder_conv self (512 + dimC (shape s5)) 256 3 (1 + sd))
        (decoder_conv self 256 2 3 (2 + sd))
        (decoder_conv self (256 + dimC (shape s11) + 2) 128 3 (3 + sd))
        (decoder_conv self 128 2 3 (4 + sd))
        (decoder_conv self (128 + dimC (shape s13) + 2) 64 5 (5 + sd))
        (decoder_conv self 64 2 3 (6 + sd))
        (decoder_conv self (64 + dimC (shape s15) + 2) 64 5 (7 + sd))
        (decoder_conv self 64 2 3 (8 + sd))
        (expr x) (expr s5) (expr s11) (expr s13) (expr s15) /\
    shape out = {| dimN := dimN (shape x); dimC := 2;
                   dimH := 16 * dimH (shape x);
                   dimW := 16 * dimW (shape x) |} /\
    s' = (9 + sd)%nat.
Proof.
  unfold EfficientNet.extract_features. intros H.
  apply bind_inr in H as ([[x skipconnection] index] & sd & Henc & Hdec).
  simpl in Hdec.
  apply decoder_inr in Hdec
    as (s5 & s11 & s13 & s15 & H5 & H11 & H13 & H15 & Hexpr & Hshape & _ & Hs').
  destruct (encoder_keys _ _ _ _ _ _ _ Henc) as [Hindex _].
  destruct (encoder_head _ _ _ _ _ _ _ Henc) as (deepest & Hdeep & Hx).
  exists x, skipconnection, index, sd, deepest, s5, s11, s13, s15.
  auto 12.
Qed.

(** ** The forward pass of 'efficientnet-b0' on a 224x224 image *)

Lemma b0_build_and_forward (conv_type : string) (s : rng) :
  exists s',
    build_and_forward (EfficientNet.PyList b0_blocks_args) b0_global_params
      conv_type (image 1 3 224 224) s = (inr b0_output_shape, s').
Proof. eexists. vm_compute. reflexivity. Qed.

(** Build the model, then run two passes on the same input. *)
Lemma b0_two_passes (conv_type : string) (s : rng) :
  exists s',
    (model ← EfficientNet.__init__ (EfficientNet.PyList b0_blocks_args)
               (Some b0_global_params) conv_type;
     out1 ← EfficientNet.extract_features model (image 1 3 224 224);
     out2 ← EfficientNet.extract_features model (image 1 3 224 224);
     mret (shape out1, shape out2)) s
    = (inr (b0_output_shape, b0_output_shape), s').
Proof. eexists. vm_compute. reflexivity. Qed.

(** The model exists and both passes return. *)
Lemma b0_runs_twice (conv_type : string) (s : rng) :
  exists m s1 out1 s2 out2 s3,
    EfficientNet.__init__ (EfficientNet.PyList b0_blocks_args) (Some b0_global_params)
      conv_type s = (inr m, s1) /\
    EfficientNet.extract_features m (image 1 3 224 224) s1 = (inr out1, s2) /\
    EfficientNet.extract_features m (image 1 3 224 224) s2 = (inr out2, s3) /\
    shape out1 = b0_output_shape /\ shape out2 = b0_output_shape.
Proof.
  destruct (b0_two_passes conv_type s) as [s' H].
  apply bind_inr in H as (m & s1 & Hm & H).
  apply bind_inr in H as (out1 & s2 & H1 & H).
  apply bind_inr in H as (out2 & s3 & H2 & H).
  apply ret_inr in H as [H _]. injection H as E1 E2.
  exists m, s1, out1, s2, out2, s3. auto.
Qed.

Lemma b0_blocks (conv_type : string) (s : rng) :
  exists m s1,
    EfficientNet.__init__ (EfficientNet.PyList b0_blocks_args) (Some b0_global_params)
      conv_type s = (inr m, s1) /\
    length (EfficientNet._blocks m) = 16%nat /\
    positions_before_stride2 (EfficientNet._blocks m) 0 = [1; 3; 5; 11].
Proof.
  eexists _, _. split; [vm_compute; reflexivity|]. split; reflexivity.
Qed.

(** On a batch of shape (1,3,224,224) the model built from the
    'efficientnet-b0' configuration returns a tensor of shape (1,2,112,112),
    which is not the shape (1,2,224,224) of a map at the input resolution. *)
Lemma b0_forward_is_half_resolution :
  exists s',
    build_and_forward (EfficientNet.PyList b0_blocks_args) b0_global_params
      "Equi" (image 1 3 224 224) 0%nat
    = (inr {| dimN := 1; dimC := 2; dimH := 112; dimW := 112 |}, s') /\
    build_and_forward (EfficientNet.PyList b0_blocks_args) b0_global_params
      "Equi" (image 1 3 224 224) 0%nat
    <> (inr {| dimN := 1; dimC := 2; dimH := 224; dimW := 224 |}, s').
Proof.
  destruct (b0_build_and_forward "Equi" 0%nat) as [s' H].
  exists s'. split; [exact H|]. rewrite H. discriminate.
Qed.

(** C1, amended.  For every model built from the 'efficientnet-b0'
    configuration, whatever the convolution variant and the state of the
    generator, a forward call on a batch of shape (1,3,224,224) returns a
    tensor of shape (1,2,112,112): a 2-channel map at half the input's
    spatial resolution. *)
Theorem b0_forward_shape (conv_type : string) (s : rng) :
  exists m s1 out s2,
    EfficientNet.__init__ (EfficientNet.PyList b0_blocks_args) (Some b0_global_params)
      conv_type s = (inr m, s1) /\
    EfficientNet.forward m (image 1 3 224 224) s1 = (inr out, s2) /\
    shape out = {| dimN := 1; dimC := 2; dimH := 112; dimW := 112 |}.
Proof.
  destruct (b0_runs_twice conv_type s)
    as (m & s1 & out1 & s2 & _ & _ & Hm & H1 & _ & Hs & _).
  exists m, s1, out1, s2. auto.
Qed.

Lemma decoder_structure_witness :
  exists m s1 out s2,
    EfficientNet.__init__ (EfficientNet.PyList b0_blocks_args) (Some b0_global_params)
      "Equi" 0%nat = (inr m, s1) /\
    EfficientNet.extract_features m (image 1 3 224 224) s1 = (inr out, s2) /\
    exists x, shape out = {| dimN := dimN (shape x); dimC := 2;
                             dimH := 16 * dimH (shape x);
                             dimW := 16 * dimW (shape x) |}.
Proof.
  destruct (b0_runs_twice "Equi" 0%nat)
    as (m & s1 & out1 & s2 & _ & _ & Hm & H1 & _).
  exists m, s1, out1, s2. split; [exact Hm|]. split; [exact H1|].
  destruct (decoder_structure _ _ _ _ _ H1)
    as (x & sk & index & sd & deepest & s5 & s11 & s13 & s15 & _ & _ & _ & _
        & _ & _ & _ & _ & _ & Hshape & _).
  exists x. exact Hshape.
Defined.

Lemma skip_lookups_defined_witness :
  exists m s1 x skipconnection index s2,
    EfficientNet.__init__ (EfficientNet.PyList b0_blocks_args) (Some b0_global_params)
      "Equi" 0%nat = (inr m, s1) /\
    EfficientNet.encoder m (image 1 3 224 224) s1
      = (inr (x, skipconnection, index), s2) /\
    index = 16 /\ is_Some (skipconnection !! (index - 15)).
Proof.
  destruct (b0_runs_twice "Equi" 0%nat)
    as (m & s1 & out1 & s2 & _ & _ & Hm & H1 & _).
  destruct (b0_blocks "Equi" 0%nat) as (m' & s1' & Hm' & Hlen & _).
  assert (m' = m) by congruence. subst m'.
  unfold EfficientNet.extract_features in H1.
  apply bind_inr in H1 as ([[x skipconnection] index] & sd & Henc & _).
  exists m, s1, x, skipconnection, index, sd.
  split; [exact Hm|]. split; [exact Henc|].
  destruct (skip_lookups_defined _ _ _ _ _ _ _ Henc) as (Hindex & Hiff & _).
  rewrite Hlen in Hindex, Hiff. split; [exact Hindex|].
  apply Hiff. lia.
Defined.

(** ** The generator only moves forward *)

Lemma mono_ret {A} (a : A) : mono (mret a).
Proof. intros s. simpl. lia. Qed.

Lemma mono_raise {A} (e : exn) : mono (raise (A := A) e).
Proof. intros s. simpl. lia. Qed.

Lemma mono_sample : mono sample.
Proof. intros s. simpl. lia. Qed.

Lemma mono_bind {A B} (m : M A) (f : A -> M B) :
  mono m -> (forall a, mono (f a)) -> mono (m ≫= f).
Proof.
  intros Hm Hf s. rewrite bind_unfold. specialize (Hm s).
  destruct (m s) as [[e|a] s1]; simpl in *; [exact Hm|].
  specialize (Hf a s1). lia.
Qed.

Lemma mono_inr {A} (m : M A) (s : rng) (a : A) (s' : rng) :
  mono m -> m s = (inr a, s') -> (s <= s')%nat.
Proof. intros Hm H. specialize (Hm s). rewrite H in Hm. exact Hm. Qed.

Ltac mono_step :=
  first
    [ apply mono_ret | apply mono_raise | apply mono_sample
    | apply mono_bind; [|intros ?]
    | match goal with
      | |- mono (if ?c then _ else _) => destruct c
      | |- mono (match ?o with _ => _ end) => destruct o
      end ].

Lemma mono_conv2d c x : mono (conv2d c x).
Proof. unfold conv2d. repeat mono_step. Qed.

Lemma mono_batch_norm b x : mono (batch_norm b x).
Proof. unfold batch_norm. repeat mono_step. Qed.

Lemma mono_block_forward self x rate : mono (MBConvBlock.forward self x rate).
Proof.
  unfold MBConvBlock.forward, MBConvBlock.branch, MBConvBlock.squeeze_excite,
    MBConvBlock.gate, drop_connect, getattr, swish, sigmoid, mul, add,
    adaptive_avg_pool2d.
  repeat first [ apply mono_conv2d | apply mono_batch_norm | mono_step ].
Qed.

Lemma mono_run_blocks self blocks idx x sk index :
  mono (EfficientNet.run_blocks self blocks idx x sk index).
Proof.
  revert idx x sk index. induction blocks as [|b blocks IH]; intros; simpl.
  - apply mono_ret.
  - apply mono_bind; [apply mono_block_forward|]. intros y. apply IH.
Qed.

Lemma mono_encoder self inputs : mono (EfficientNet.encoder self inputs).
Proof.
  unfold EfficientNet.encoder, swish.
  repeat first [ apply mono_conv2d | apply mono_batch_norm
               | apply mono_run_blocks | mono_step ].
Qed.

(** ** The layers a model owns *)

Lemma sampled_before_le (n n' : rng) (l : list Conv2d) :
  (n <= n')%nat -> sampled_before n l -> sampled_before n' l.
Proof.
  intros Hle H. unfold sampled_before in *.
  eapply Forall_impl; [exact H|]. simpl. intros c Hc. lia.
Qed.

Lemma MBConvBlock_init_weights (a : BlockArgs.t) (gp : GlobalParams)
    (ct : string) (s : rng) (b : MBConvBlock.t) (s' : rng) :
  MBConvBlock.__init__ a gp ct s = (inr b, s') ->
  (s <= s')%nat /\ sampled_before s' (block_convs b).
Proof.
  unfold MBConvBlock.__init__.
  destruct (MBConvBlock.compute_has_se a) eqn:Hse.
  - destruct (num_squeezed_channels_pure a) as [[e|k] [Hk _]]; rewrite Hk;
      [destruct (expand_ratio a =? 1); run_init; discriminate|].
    destruct (expand_ratio a =? 1) eqn:He; run_init;
      intros H; injection H as <- <-; (split; [lia|]);
      unfold sampled_before, block_convs; simpl;
      repeat constructor; simpl; lia.
  - destruct (expand_ratio a =? 1) eqn:He; run_init;
      intros H; injection H as <- <-; (split; [lia|]);
      unfold sampled_before, block_convs; simpl;
      repeat constructor; simpl; lia.
Qed.

Lemma blocks_sampled_before_le (n n' : rng) (blocks : list MBConvBlock.t) :
  (n <= n')%nat -> blocks_sampled_before n blocks ->
  blocks_sampled_before n' blocks.
Proof.
  intros Hle H. unfold blocks_sampled_before in *.
  eapply Forall_impl; [exact H|]. simpl. intros b. apply sampled_before_le, Hle.
Qed.

Lemma repeat_blocks_weights (n : nat) (a : BlockArgs.t) (gp : GlobalParams)
    (ct : string) (blocks : list MBConvBlock.t) (s : rng)
    (blocks' : list MBConvBlock.t) (s' : rng) :
  blocks_sampled_before s blocks ->
  EfficientNet.repeat_blocks n a gp ct blocks s = (inr blocks', s') ->
  (s <= s')%nat /\ blocks_sampled_before s' blocks'.
Proof.
  revert blocks s. induction n as [|n IH]; intros blocks s Hbefore; simpl.
  - intros H. apply ret_inr in H as [-> ->]. auto.
  - intros H. apply bind_inr in H as (b & s1 & Hb & H).
    apply MBConvBlock_init_weights in Hb as [Hle Hb].
    apply IH in H as [Hle' H].
    + split; [lia|exact H].
    + apply Forall_app. split.
      * eapply blocks_sampled_before_le; eauto.
      * constructor; [exact Hb|constructor].
Qed.

Lemma build_blocks_weights (l : list BlockArgs.t) (gp : GlobalParams)
    (ct : string) (blocks : list MBConvBlock.t) (last : option BlockArgs.t)
    (s : rng) (r : list MBConvBlock.t * option BlockArgs.t) (s' : rng) :
  blocks_sampled_before s blocks ->
  EfficientNet.build_blocks l gp ct blocks last s = (inr r, s') ->
  (s <= s')%nat /\ blocks_sampled_before s' r.1.
Proof.
  revert blocks last s. induction l as [|a l IH]; intros blocks last s Hbefore;
    simpl.
  - intros H. apply ret_inr in H as [-> ->]. auto.
  - intros H. apply bind_inr in H as (b & s1 & Hb & H).
    apply MBConvBlock_init_weights in Hb as [Hle Hb].
    apply bind_inr in H as (blocks1 & s2 & Hrep & H).
    apply repeat_blocks_weights in Hrep as [Hle1 Hrep].
    + apply IH in H as [Hle2 H]; [|exact Hrep]. split; [lia|exact H].
    + apply Forall_app. split.
      * eapply blocks_sampled_before_le; eauto.
      * constructor; [exact Hb|constructor].
Qed.

(** Every layer of a freshly built model has been sampled by the time
    [__init__] returns. *)
Lemma EfficientNet_init_weights (ba : EfficientNet.blocks_arg)
    (gp : GlobalParams) (ct : string) (s : rng) (m : EfficientNet.t)
    (s' : rng) :
  EfficientNet.__init__ ba (Some gp) ct s = (inr m, s') ->
  sampled_before s' (stored_convs m).
Proof.
  unfold EfficientNet.__init__. destruct ba as [|l|l]; try discriminate.
  destruct (negb (0 <? Z.of_nat (length l))); [discriminate|].
  rewrite bind_unfold. cbn [EfficientNet.the_global_params mret M_ret].
  intros H.
  apply bind_inr in H as (stem & s1 & Hstem & H).
  apply new_conv_inr in Hstem as [-> ->].
  apply bind_inr in H as (built & s2 & Hbuilt & H).
  apply build_blocks_weights in Hbuilt as [Hle Hbuilt]; [|constructor].
  apply bind_inr in H as (last & s3 & Hlast & H).
  assert (s3 = s2) as -> by (destruct built.2; [apply ret_inr in Hlast as [_ ->]; reflexivity|discriminate]).
  apply bind_inr in H as (head & s4 & Hhead & H).
  apply new_conv_inr in Hhead as [-> ->].
  apply bind_inr in H as (p & s5 & Hdrop & H).
  apply new_Dropout_inr in Hdrop as (-> & -> & _).
  apply bind_inr in H as (fc & s6 & Hfc & H).
  apply new_Linear_inr in Hfc as (-> & -> & _).
  apply ret_inr in H as [-> ->].
  unfold stored_convs, sampled_before. simpl.
  constructor; [simpl; lia|]. apply Forall_app. split.
  - apply Forall_concat, Forall_map.
    eapply Forall_impl; [exact Hbuilt|]. simpl. intros b Hb.
    eapply sampled_before_le; [|exact Hb]. lia.
  - constructor; [simpl; lia|constructor].
Qed.

(** ** Decoder layers are made anew on every call *)

Lemma not_stored_by_weight (c : Conv2d) (n : rng) (l : list Conv2d) :
  (n <= weight c)%nat -> sampled_before n l -> c ∉ l.
Proof.
  intros Hc Hl Hin. unfold sampled_before in Hl.
  rewrite Forall_forall in Hl. specialize (Hl c Hin). lia.
Qed.

Lemma not_later_by_weight (c : Conv2d) (n : rng) (l : list Conv2d) :
  (weight c < n)%nat -> Forall (fun d => (n <= weight d)%nat) l -> c ∉ l.
Proof.
  intros Hc Hl Hin. rewrite Forall_forall in Hl. specialize (Hl c Hin). lia.
Qed.

(** One call: the nine decoder layers are sampled during the call. *)
Lemma decoder_layers_sampled_in_call (self : EfficientNet.t) (inputs : Tensor)
    (s : rng) (out : Tensor) (s' : rng) :
  EfficientNet.extract_features self inputs s = (inr out, s') ->
  exists l,
    decoder_layers_of out l /\ length l = 9%nat /\
    Forall (fun c => (s <= weight c < s')%nat) l /\
    exists w, outer_weight (expr out) = Some w /\ (s <= w < s')%nat.
Proof.
  intros H.
  destruct (decoder_structure _ _ _ _ _ H)
    as (x & sk & index & sd & deepest & s5 & s11 & s13 & s15 & Henc & _ & _
        & _ & _ & _ & _ & _ & Hexpr & _ & Hs').
  apply (mono_inr _ _ _ _ (mono_encoder self inputs)) in Henc.
  eexists. split; [|split; [|split]].
  - do 14 eexists. split; [reflexivity|exact Hexpr].
  - reflexivity.
  - unfold decoder_conv. repeat constructor; simpl; lia.
  - rewrite Hexpr. simpl. eexists. split; [reflexivity|]. lia.
Qed.

(** C2.  Two successive calls of [extract_features] on the same model and
    input each construct nine decoder convolutions whose weights are sampled
    during that call: the layers of the second call are not those of the
    first, none of them is among the layers the model holds, and the two
    results are different expressions, since their outermost convolutions
    carry different samples. *)
Theorem decoder_layers_fresh_each_call (self : EfficientNet.t)
    (inputs : Tensor) (s : rng) (out1 : Tensor) (s1 : rng) (out2 : Tensor)
    (s2 : rng) :
  sampled_before s (stored_convs self) ->
  EfficientNet.extract_features self inputs s = (inr out1, s1) ->
  EfficientNet.extract_features self inputs s1 = (inr out2, s2) ->
  exists l1 l2,
    decoder_layers_of out1 l1 /\ decoder_layers_of out2 l2 /\
    length l1 = 9%nat /\ length l2 = 9%nat /\
    Forall (fun c => (s <= weight c < s1)%nat) l1 /\
    Forall (fun c => (s1 <= weight c < s2)%nat) l2 /\
    Forall (fun c => c ∉ stored_convs self) (l1 ++ l2) /\
    Forall (fun c => c ∉ l2) l1 /\
    expr out1 <> expr out2.
Proof.
  intros Hstored H1 H2.
  destruct (decoder_layers_sampled_in_call _ _ _ _ _ H1)
    as (l1 & Hl1 & Hlen1 & Hw1 & w1 & Ho1 & Hr1).
  destruct (decoder_layers_sampled_in_call _ _ _ _ _ H2)
    as (l2 & Hl2 & Hlen2 & Hw2 & w2 & Ho2 & Hr2).
  exists l1, l2. repeat (split; [assumption|]).
  split; [|split].
  - apply Forall_app. split.
    + eapply Forall_impl; [exact Hw1|]. simpl. intros c Hc.
      eapply not_stored_by_weight; [|exact Hstored]. lia.
    + eapply Forall_impl; [exact Hw2|]. simpl. intros c Hc.
      eapply not_stored_by_weight; [|exact Hstored]. lia.
  - eapply Forall_impl; [exact Hw1|]. simpl. intros c Hc.
    apply (not_later_by_weight c s1); [lia|].
    eapply Forall_impl; [exact Hw2|]. simpl. intros d Hd. lia.
  - intros Heq. rewrite Heq in Ho1. rewrite Ho1 in Ho2.
    injection Ho2 as ->. lia.
Qed.

Lemma decoder_layers_fresh_each_call_witness :
  exists m s1 out1 s2 out2 s3,
    EfficientNet.__init__ (EfficientNet.PyList b0_blocks_args) (Some b0_global_params)
      "Equi" 0%nat = (inr m, s1) /\
    EfficientNet.extract_features m (image 1 3 224 224) s1 = (inr out1, s2) /\
    EfficientNet.extract_features m (image 1 3 224 224) s2 = (inr out2, s3) /\
    expr out1 <> expr out2.
Proof.
  destruct (b0_runs_twice "Equi" 0%nat)
    as (m & s1 & out1 & s2 & out2 & s3 & Hm & H1 & H2 & _).
  exists m, s1, out1, s2, out2, s3.
  split; [exact Hm|]. split; [exact H1|]. split; [exact H2|].
  destruct (decoder_layers_fresh_each_call m (image 1 3 224 224) s1 out1 s2
              out2 s3 (EfficientNet_init_weights _ _ _ _ _ _ Hm) H1 H2)
    as (l1 & l2 & _ & _ & _ & _ & _ & _ & _ & _ & Hne).
  exact Hne.
Defined.

(** ** No configuration reaches the input resolution *)

Lemma ceil_div_le (a b : Z) : 0 <= a -> 0 < b -> 0 <= ceil_div a b <= a.
Proof.
  intros Ha Hb. unfold ceil_div. split.
  - apply Z.div_pos; lia.
  - destruct (Z.eq_dec a 0) as [->|Hne].
    + rewrite Z.div_small; lia.
    + apply Z.div_le_upper_bound; nia.
Qed.

Lemma ceil_div_one (b : Z) : 0 < b -> ceil_div 1 b = 1.
Proof.
  intros Hb. unfold ceil_div. replace (1 + b - 1) with b by lia.
  apply Z.div_same. lia.
Qed.

Lemma broadcast_dim_cases (a b c : Z) :
  broadcast_dim a b = Some c -> c = a \/ c = b.
Proof.
  unfold broadcast_dim.
  destruct (a =? b); [intros H; injection H; auto|].
  destruct (a =? 1); [intros H; injection H; auto|].
  destruct (b =? 1); [intros H; injection H; auto|discriminate].
Qed.

Lemma broadcast_dimH (a b c : Shape) :
  broadcast a b = Some c -> broadcast_dim (dimH a) (dimH b) = Some (dimH c).
Proof.
  unfold broadcast.
  destruct (broadcast_dim (dimN a) (dimN b)); [|discriminate].
  destruct (broadcast_dim (dimC a) (dimC b)); [|discriminate].
  destruct (broadcast_dim (dimH a) (dimH b)); [|discriminate].
  destruct (broadcast_dim (dimW a) (dimW b)); [|discriminate].
  simpl. intros H. injection H as <-. reflexivity.
Qed.

Lemma conv2d_height (c : Conv2d) (x : Tensor) (s : rng) (y : Tensor) (s' : rng) :
  conv2d c x s = (inr y, s') ->
  (0 <= dimH (shape x) -> 0 <= dimH (shape y) <= dimH (shape x)) /\
  (dimH (shape x) = 1 -> dimH (shape y) = 1).
Proof.
  intros H. apply conv2d_inr in H as (_ & _ & Hs & ->). simpl. split.
  - intros Hx. apply ceil_div_le; assumption.
  - intros ->. apply ceil_div_one, Hs.
Qed.

Lemma batch_norm_height (b : BatchNorm2d) (x : Tensor) (s : rng) (y : Tensor)
    (s' : rng) :
  batch_norm b x s = (inr y, s') -> dimH (shape y) = dimH (shape x).
Proof. intros H. apply batch_norm_inr in H as (_ & _ & ->). reflexivity. Qed.

Lemma squeeze_excite_height (self : MBConvBlock.t) (x : Tensor) (s : rng)
    (y : Tensor) (s' : rng) :
  MBConvBlock.squeeze_excite self x s = (inr y, s') ->
  dimH (shape y) = dimH (shape x).
Proof.
  unfold MBConvBlock.squeeze_excite. intros H.
  apply bind_inr in H as (pooled & s1 & Hpool & H).
  injection Hpool as <- <-.
  apply bind_inr in H as (cr & s2 & _ & H).
  apply bind_inr in H as (ce & s3 & _ & H).
  apply bind_inr in H as (reduced & s4 & Hr & H).
  apply conv2d_height in Hr as [_ Hr]. specialize (Hr eq_refl).
  apply bind_inr in H as (activated & s5 & Ha & H).
  apply swish_inr_eqs in Ha as (_ & Ha & _).
  apply bind_inr in H as (expanded & s6 & He & H).
  apply conv2d_height in He as [_ He].
  rewrite Ha in He. specialize (He Hr).
  apply bind_inr in H as (g & s7 & Hg & H).
  injection Hg as <- <-.
  unfold mul in H. simpl in H.
  destruct (broadcast _ (shape x)) as [sh|] eqn:Hb; [|discriminate].
  injection H as <- <-. simpl.
  apply broadcast_dimH in Hb. simpl in Hb. rewrite He in Hb.
  rewrite broadcast_dim_one in Hb. injection Hb as <-. reflexivity.
Qed.

Lemma branch_height (self : MBConvBlock.t) (inputs : Tensor) (s : rng)
    (x : Tensor) (s' : rng) :
  MBConvBlock.branch self inputs s = (inr x, s') ->
  0 <= dimH (shape inputs) ->
  0 <= dimH (shape x) <= dimH (shape inputs).
Proof.
  unfold MBConvBlock.branch. intros H Hin.
  apply bind_inr in H as (x0 & s0 & Hexp & H).
  assert (H0 : 0 <= dimH (shape x0) <= dimH (shape inputs)).
  { destruct (negb _).
    - apply bind_inr in Hexp as (ec & s1 & _ & Hexp).
      apply bind_inr in Hexp as (bn & s2 & _ & Hexp).
      apply bind_inr in Hexp as (y1 & s3 & Hc & Hexp).
      apply conv2d_height in Hc as [Hc _]. specialize (Hc Hin).
      apply bind_inr in Hexp as (y2 & s4 & Hb & Hexp).
      apply batch_norm_height in Hb.
      apply swish_inr_eqs in Hexp as (_ & Hsw & _).
      rewrite Hsw, Hb. exact Hc.
    - apply ret_inr in Hexp as [-> _]. lia. }
  apply bind_inr in H as (x1 & s1 & Hc & H).
  apply conv2d_height in Hc as [Hc _].
  apply bind_inr in H as (x2 & s2 & Hb & H).
  apply batch_norm_height in Hb.
  apply bind_inr in H as (x3 & s3 & Hsw & H).
  apply swish_inr_eqs in Hsw as (_ & Hsw & _).
  apply bind_inr in H as (x4 & s4 & Hse & H).
  assert (H4 : dimH (shape x4) = dimH (shape x3)).
  { destruct (MBConvBlock.has_se self).
    - eapply squeeze_excite_height, Hse.
    - apply ret_inr in Hse as [-> _]. reflexivity. }
  apply bind_inr in H as (x5 & s5 & Hp & H).
  apply conv2d_height in Hp as [Hp _].
  apply batch_norm_height in H.
  rewrite H. rewrite H4, Hsw, Hb in Hp. lia.
Qed.

Lemma block_forward_height (self : MBConvBlock.t) (inputs : Tensor)
    (rate : option Q) (s : rng) (out : Tensor) (s' : rng) :
  MBConvBlock.forward self inputs rate s = (inr out, s') ->
  0 <= dimH (shape inputs) ->
  0 <= dimH (shape out) <= dimH (shape inputs).
Proof.
  unfold MBConvBlock.forward. intros H Hin.
  apply bind_inr in H as (x & s1 & Hbranch & H).
  apply branch_height in Hbranch; [|exact Hin].
  destruct (MBConvBlock.skip_condition self).
  - apply bind_inr in H as (g & s2 & Hg & H).
    apply gate_inr in Hg as (Hg & _).
    unfold add in H.
    destruct (broadcast (shape g) (shape inputs)) as [sh|] eqn:Hb; [|discriminate].
    injection H as <- <-. simpl.
    apply broadcast_dimH, broadcast_dim_cases in Hb. rewrite Hg in Hb. lia.
  - apply ret_inr in H as [-> _]. exact Hbranch.
Qed.

(** Every cached output is at most as high as the stem's output. *)
Lemma run_blocks_height (self : EfficientNet.t) (blocks : list MBConvBlock.t)
    (idx : Z) (x : Tensor) (sk : gmap Z Tensor) (index : Z) (s : rng)
    (r : Tensor * gmap Z Tensor * Z) (s' : rng) (h : Z) :
  0 <= dimH (shape x) <= h ->
  (forall k t, sk !! k = Some t -> 0 <= dimH (shape t) <= h) ->
  EfficientNet.run_blocks self blocks idx x sk index s = (inr r, s') ->
  forall k t, r.1.2 !! k = Some t -> 0 <= dimH (shape t) <= h.
Proof.
  revert idx x sk index s.
  induction blocks as [|b blocks IH]; intros idx x sk index s Hx Hsk; simpl.
  - intros H. apply ret_inr in H as [-> _]. exact Hsk.
  - intros H. apply bind_inr in H as (y & s1 & Hy & H).
    apply block_forward_height in Hy; [|lia].
    eapply IH; [| |exact H]; [lia|].
    intros k t. rewrite lookup_insert.
    destruct (decide (idx + 1 = k)); [|apply Hsk].
    intros Ht. injection Ht as <-. lia.
Qed.

Lemma encoder_height (self : EfficientNet.t) (inputs : Tensor) (s : rng)
    (x : Tensor) (sk : gmap Z Tensor) (index : Z) (s' : rng) :
  0 <= dimH (shape inputs) ->
  EfficientNet.encoder self inputs s = (inr (x, sk, index), s') ->
  forall k t, sk !! k = Some t ->
    0 <= dimH (shape t)
      <= ceil_div (dimH (shape inputs)) (conv_stride (EfficientNet._conv_stem self)).
Proof.
  unfold EfficientNet.encoder. intros Hin H.
  apply bind_inr in H as (x1 & s1 & Hc & H).
  apply conv2d_inr in Hc as (_ & _ & Hstride & ->).
  apply bind_inr in H as (x2 & s2 & Hb & H).
  apply batch_norm_height in Hb. simpl in Hb.
  apply bind_inr in H as (x3 & s3 & Hsw & H).
  apply swish_inr_eqs in Hsw as (_ & Hsw & _).
  apply bind_inr in H as (r & s4 & Hrun & H).
  do 3 (apply bind_inr in H; destruct H as (? & ? & _ & H)).
  apply ret_inr in H as [H _]. injection H as _ Hsk _. subst sk.
  pose proof (ceil_div_le _ _ Hin Hstride) as Hle.
  assert (Hx3 : 0 <= dimH (shape x3)
                <= ceil_div (dimH (shape inputs))
                            (conv_stride (EfficientNet._conv_stem self)))
    by (rewrite Hsw, Hb; lia).
  eapply run_blocks_height; [exact Hx3| |exact Hrun].
  intros k t. rewrite lookup_insert.
  destruct (decide (0 = k)); [|rewrite lookup_empty; discriminate].
  intros Ht. injection Ht as <-. exact Hx3.
Qed.

(** The result of a forward pass is as high as the output cached 15
    positions back, hence at most as high as the stem's output. *)
Lemma forward_height_bound (self : EfficientNet.t) (inputs : Tensor) (s : rng)
    (out : Tensor) (s' : rng) :
  0 <= dimH (shape inputs) ->
  EfficientNet.forward self inputs s = (inr out, s') ->
  dimH (shape out)
    <= ceil_div (dimH (shape inputs)) (conv_stride (EfficientNet._conv_stem self)).
Proof.
  unfold EfficientNet.forward, EfficientNet.extract_features. intros Hin H.
  apply bind_inr in H as ([[x sk] index] & sd & Henc & Hdec). simpl in Hdec.
  apply decoder_inr in Hdec
    as (s5 & s11 & s13 & s15 & _ & _ & _ & H15 & _ & _ & Hh & _).
  pose proof (encoder_height _ _ _ _ _ _ _ Hin Henc _ _ H15). lia.
Qed.

(** Whatever the block arguments and global parameters, a model built by
    [__init__] has a stem of stride 2, so on a 224x224 input its output is
    at most 112 high: no configuration returns a map of height 224. *)
Lemma built_model_never_full_resolution (ba : EfficientNet.blocks_arg)
    (gp : GlobalParams) (ct : string) (s : rng) (m : EfficientNet.t)
    (s1 : rng) (n c : Z) (s0 : rng) (out : Tensor) (s2 : rng) :
  EfficientNet.__init__ ba (Some gp) ct s = (inr m, s1) ->
  EfficientNet.forward m (image n c 224 224) s0 = (inr out, s2) ->
  dimH (shape out) <= 112.
Proof.
  intros Hm Hf.
  assert (Hstem : conv_stride (EfficientNet._conv_stem m) = 2).
  { eapply EfficientNet_init_wf, Hm. }
  apply forward_height_bound in Hf; [|simpl; lia].
  rewrite Hstem in Hf. simpl in Hf. exact Hf.
Qed.

(** * Further properties of the construction and of the forward pass *)

(** ** The blocks [EfficientNet.__init__] builds *)

Lemma MBConvBlock_init_args (a : BlockArgs.t) (gp : GlobalParams) (ct : string)
    (s : rng) (b : MBConvBlock.t) (s' : rng) :
  MBConvBlock.__init__ a gp ct s = (inr b, s') ->
  MBConvBlock._block_args b = a /\ block_wf b.
Proof.
  intros H. apply MBConvBlock_init_inr in H as (_ & Hwf & Ha & _). auto.
Qed.

Lemma repeat_blocks_args (n : nat) (a : BlockArgs.t) (gp : GlobalParams)
    (ct : string) (blocks : list MBConvBlock.t) (s : rng)
    (blocks' : list MBConvBlock.t) (s' : rng) :
  EfficientNet.repeat_blocks n a gp ct blocks s = (inr blocks', s') ->
  map MBConvBlock._block_args blocks'
    = map MBConvBlock._block_args blocks ++ replicate n a.
Proof.
  revert blocks s. induction n as [|n IH]; intros blocks s; simpl.
  - intros H. apply ret_inr in H as [-> _]. rewrite app_nil_r. reflexivity.
  - intros H. apply bind_inr in H as (b & s1 & Hb & H).
    apply MBConvBlock_init_args in Hb as [Hb _].
    apply IH in H. rewrite H, map_app. simpl. rewrite Hb, <- app_assoc.
    reflexivity.
Qed.

Lemma stage_repeats (gp : GlobalParams) (a : BlockArgs.t) :
  replicate (Z.to_nat (num_repeat (loop_variable gp a) - 1)) (loop_variable gp a)
  = replicate (Z.to_nat (num_repeat (scale_stage gp a) - 1))
              (replace_repeat (scale_stage gp a)).
Proof.
  unfold loop_variable. destruct (1 <? num_repeat (scale_stage gp a)) eqn:H.
  - reflexivity.
  - apply Z.ltb_ge in H.
    replace (Z.to_nat (num_repeat (scale_stage gp a) - 1)) with 0%nat by lia.
    reflexivity.
Qed.

Lemma build_blocks_cons (a : BlockArgs.t) (l : list BlockArgs.t)
    (gp : GlobalParams) (ct : string) (blocks : list MBConvBlock.t)
    (last0 : option BlockArgs.t) :
  EfficientNet.build_blocks (a :: l) gp ct blocks last0
  = (b ← MBConvBlock.__init__ (scale_stage gp a) gp ct;
     blocks1 ← EfficientNet.repeat_blocks
                 (Z.to_nat (num_repeat (loop_variable gp a) - 1))
                 (loop_variable gp a) gp ct (blocks ++ [b]);
     EfficientNet.build_blocks l gp ct blocks1 (Some (loop_variable gp a))).
Proof. reflexivity. Qed.

Lemma build_blocks_args (l : list BlockArgs.t) (gp : GlobalParams)
    (ct : string) (blocks : list MBConvBlock.t) (last0 : option BlockArgs.t)
    (s : rng) (r : list MBConvBlock.t * option BlockArgs.t) (s' : rng) :
  EfficientNet.build_blocks l gp ct blocks last0 s = (inr r, s') ->
  map MBConvBlock._block_args r.1
    = map MBConvBlock._block_args blocks ++ concat (map (stage_blocks gp) l) /\
  r.2 = match last l with
        | Some a => Some (loop_variable gp a)
        | None => last0
        end.
Proof.
  revert blocks last0 s. induction l as [|a l IH]; intros blocks last0 s.
  - simpl. intros H. apply ret_inr in H as [-> _]. simpl.
    rewrite app_nil_r. auto.
  - rewrite build_blocks_cons. intros H.
    apply bind_inr in H as (b & s1 & Hb & H).
    apply MBConvBlock_init_args in Hb as [Hb _].
    apply bind_inr in H as (blocks1 & s2 & Hrep & H).
    apply repeat_blocks_args in Hrep.
    apply IH in H as [Hargs Hlast].
    rewrite stage_repeats in Hrep. split.
    + rewrite Hargs, Hrep, map_app. simpl. rewrite Hb.
      unfold stage_blocks. rewrite <- !app_assoc. reflexivity.
    + rewrite Hlast. destruct l as [|a0 l0]; [reflexivity|].
      change (last (a :: a0 :: l0)) with (last (a0 :: l0)).
      destruct (last (a0 :: l0)) eqn:E; [reflexivity|].
      apply last_None in E. discriminate E.
Qed.

(** What a successful [EfficientNet.__init__] did, step by step. *)
Lemma EfficientNet_init_inr (ba : EfficientNet.blocks_arg) (gp : GlobalParams)
    (ct : string) (s : rng) (m : EfficientNet.t) (s' : rng) :
  EfficientNet.__init__ ba (Some gp) ct s = (inr m, s') ->
  exists l built s2 a,
    ba = EfficientNet.PyList l /\ l <> [] /\
    EfficientNet.build_blocks l gp ct [] None (S s) = (inr built, s2) /\
    built.2 = Some a /\ s' = S (S s2) /\
    EfficientNet._global_params m = gp /\
    EfficientNet._conv_type m = ct /\
    EfficientNet._blocks m = built.1 /\
    EfficientNet._conv_stem m =
      {| in_channels := 3; out_channels := round_filters 32 gp;
         conv_kernel := 3; conv_stride := 2; groups := 1; bias := false;
         pad_image_size := image_size gp; conv_type := ct; weight := s |} /\
    EfficientNet._bn0 m =
      new_BatchNorm2d (round_filters 32 gp)
        (1 - batch_norm_momentum gp)%Q (batch_norm_epsilon gp) /\
    EfficientNet._conv_head m =
      {| in_channels := output_filters a;
         out_channels := round_filters 1280 gp;
         conv_kernel := 1; conv_stride := 1; groups := 1; bias := false;
         pad_image_size := image_size gp; conv_type := ct; weight := s2 |} /\
    EfficientNet._bn1 m =
      new_BatchNorm2d (round_filters 1280 gp)
        (1 - batch_norm_momentum gp)%Q (batch_norm_epsilon gp).
Proof.
  unfold EfficientNet.__init__. destruct ba as [|l|l]; try discriminate.
  destruct l as [|a0 l0]; [discriminate|].
  change (negb (0 <? Z.of_nat (length (a0 :: l0)))) with false. cbv iota.
  rewrite bind_unfold. cbn [EfficientNet.the_global_params mret M_ret].
  intros H.
  apply bind_inr in H as (stem & s1 & Hstem & H).
  apply new_conv_inr in Hstem as [-> ->].
  apply bind_inr in H as (built & s2 & Hbuilt & H).
  apply bind_inr in H as (a & s3 & Hlast & H).
  destruct built.2 as [a'|] eqn:Hb2; [|discriminate].
  apply ret_inr in Hlast as [-> ->].
  apply bind_inr in H as (head & s4 & Hhead & H).
  apply new_conv_inr in Hhead as [-> ->].
  apply bind_inr in H as (p & s5 & Hdrop & H).
  apply new_Dropout_inr in Hdrop as (-> & -> & _).
  apply bind_inr in H as (fc & s6 & Hfc & H).
  apply new_Linear_inr in Hfc as (-> & -> & _).
  apply ret_inr in H as [-> ->].
  exists (a0 :: l0), built, s2, a'. simpl.
  repeat (split; [first [reflexivity | assumption | discriminate]|]).
  reflexivity.
Qed.

Lemma last_cons_replicate {A} (x y : A) (n : nat) :
  last (x :: replicate n y) = Some (match n with O => x | S _ => y end).
Proof.
  destruct n as [|n]; [reflexivity|].
  change (last (x :: replicate (S n) y)) with (last (replicate (S n) y)).
  induction n as [|n IH]; [reflexivity|].
  change (last (replicate (S (S n)) y)) with (last (replicate (S n) y)).
  exact IH.
Qed.

Lemma last_stage_blocks (gp : GlobalParams) (a : BlockArgs.t) :
  exists x, last (stage_blocks gp a) = Some x /\
            output_filters x = output_filters (loop_variable gp a).
Proof.
  unfold stage_blocks. rewrite last_cons_replicate.
  eexists. split; [reflexivity|].
  unfold loop_variable.
  destruct (1 <? num_repeat (scale_stage gp a));
    destruct (Z.to_nat _); reflexivity.
Qed.

Lemma last_concat_stages (gp : GlobalParams) (l : list BlockArgs.t)
    (a : BlockArgs.t) :
  last l = Some a ->
  last (concat (map (stage_blocks gp) l)) = last (stage_blocks gp a).
Proof.
  induction l as [|a0 l IH]; [discriminate|].
  destruct l as [|a1 l1].
  - intros H. injection H as ->. simpl. rewrite app_nil_r. reflexivity.
  - intros H. change (last (a0 :: a1 :: l1)) with (last (a1 :: l1)) in H.
    specialize (IH H).
    change (concat (map (stage_blocks gp) (a0 :: a1 :: l1)))
      with (stage_blocks gp a0 ++ concat (map (stage_blocks gp) (a1 :: l1))).
    rewrite last_app, IH.
    destruct (last_stage_blocks gp a) as (x & -> & _). reflexivity.
Qed.

(** X1.  The blocks of a built model follow the stages in order: each stage
    contributes one block with the stage's scaled arguments and declared
    stride, then [num_repeat - 1] further blocks at stride 1 whose input
    filters are the stage's output filters; the layers of every block agree
    with those arguments. *)
Theorem built_blocks_follow_stages (l : list BlockArgs.t) (gp : GlobalParams)
    (ct : string) (s : rng) (m : EfficientNet.t) (s' : rng) :
  EfficientNet.__init__ (EfficientNet.PyList l) (Some gp) ct s = (inr m, s') ->
  map MBConvBlock._block_args (EfficientNet._blocks m)
    = concat (map (stage_blocks gp) l) /\
  length (EfficientNet._blocks m)
    = sum_list (map (fun a => S (Z.to_nat (num_repeat (scale_stage gp a) - 1))) l) /\
  Forall block_wf (EfficientNet._blocks m).
Proof.
  intros H.
  assert (Hwf : Forall block_wf (EfficientNet._blocks m)).
  { eapply EfficientNet_init_wf, H. }
  apply EfficientNet_init_inr in H
    as (l' & built & s2 & a & Hl & _ & Hbuilt & _ & _ & _ & _ & Hblocks & _).
  injection Hl as <-.
  apply build_blocks_args in Hbuilt as [Hargs _]. simpl in Hargs.
  rewrite Hblocks. split; [exact Hargs|]. split; [|rewrite <- Hblocks; exact Hwf].
  rewrite <- (length_map MBConvBlock._block_args), Hargs.
  clear. induction l as [|a l IH]; [reflexivity|].
  simpl. rewrite length_app, IH. unfold stage_blocks. simpl.
  rewrite length_replicate. reflexivity.
Qed.

Lemma built_blocks_follow_stages_witness :
  exists m s1,
    EfficientNet.__init__ (EfficientNet.PyList b0_blocks_args) (Some b0_global_params)
      "Equi" 0%nat = (inr m, s1) /\
    map MBConvBlock._block_args (EfficientNet._blocks m)
      = concat (map (stage_blocks b0_global_params) b0_blocks_args).
Proof.
  destruct (b0_blocks "Equi" 0%nat) as (m & s1 & Hm & _).
  exists m, s1. split; [exact Hm|].
  apply (built_blocks_follow_stages _ _ _ _ _ _ Hm).
Defined.

(** The head is built for the output filters of the last block. *)
Lemma head_reads_last_block (l : list BlockArgs.t) (gp : GlobalParams)
    (ct : string) (s : rng) (m : EfficientNet.t) (s' : rng) :
  EfficientNet.__init__ (EfficientNet.PyList l) (Some gp) ct s = (inr m, s') ->
  exists b,
    last (EfficientNet._blocks m) = Some b /\ block_wf b /\
    conv_is (EfficientNet._conv_head m)
            (output_filters (MBConvBlock._block_args b))
            (round_filters 1280 gp) 1 1 1 false /\
    num_features (EfficientNet._bn1 m) = round_filters 1280 gp.
Proof.
  intros H.
  assert (Hargs : map MBConvBlock._block_args (EfficientNet._blocks m)
                  = concat (map (stage_blocks gp) l) /\
                  Forall block_wf (EfficientNet._blocks m)).
  { assert (Hwf : Forall block_wf (EfficientNet._blocks m)).
    { eapply EfficientNet_init_wf, H. }
    split; [|exact Hwf].
    apply EfficientNet_init_inr in H
      as (l' & built & s2 & a & Hl & _ & Hbuilt & _ & _ & _ & _ & Hblocks & _).
    injection Hl as <-.
    apply build_blocks_args in Hbuilt as [Hargs _]. simpl in Hargs.
    rewrite Hblocks. exact Hargs. }
  destruct Hargs as [Hargs Hwf].
  apply EfficientNet_init_inr in H
    as (l' & built & s2 & a & Hl & Hne & Hbuilt & Hb2 & _ & _ & _ & _ & _ & _
        & Hhead & Hbn1).
  injection Hl as <-.
  apply build_blocks_args in Hbuilt as [_ Hlast]. rewrite Hb2 in Hlast.
  destruct (last l) as [al|] eqn:Hal;
    [|apply last_None in Hal; contradiction].
  injection Hlast as ->.
  pose proof (last_concat_stages gp l al Hal) as Hc.
  rewrite <- Hargs in Hc.
  destruct (last_stage_blocks gp al) as (x & Hx & Hout).
  rewrite Hx in Hc.
  change (map MBConvBlock._block_args (EfficientNet._blocks m))
    with (MBConvBlock._block_args <$> EfficientNet._blocks m) in Hc.
  rewrite fmap_last in Hc.
  destruct (last (EfficientNet._blocks m)) as [b|] eqn:Hb; [|discriminate Hc].
  injection Hc as Hbx.
  assert (Hbwf : block_wf b).
  { rewrite Forall_forall in Hwf. apply Hwf.
    apply last_Some in Hb as [l0 ->]. apply elem_of_app. right. constructor. }
  exists b. split; [reflexivity|]. split; [exact Hbwf|].
  rewrite Hhead, Hbn1, Hbx. unfold conv_is. simpl. rewrite Hout. auto 10.
Qed.

(** X2.  The head convolution of a built model takes exactly the channels
    the last block's projection produces, and maps them to
    [round_filters(1280)] channels, which is what [_bn1] normalises. *)
Theorem head_accepts_last_block (l : list BlockArgs.t) (gp : GlobalParams)
    (ct : string) (s : rng) (m : EfficientNet.t) (s' : rng) :
  EfficientNet.__init__ (EfficientNet.PyList l) (Some gp) ct s = (inr m, s') ->
  exists b,
    last (EfficientNet._blocks m) = Some b /\
    in_channels (EfficientNet._conv_head m)
      = out_channels (MBConvBlock._project_conv b) /\
    in_channels (EfficientNet._conv_head m)
      = num_features (MBConvBlock._bn2 b) /\
    conv_is (EfficientNet._conv_head m)
            (output_filters (MBConvBlock._block_args b))
            (round_filters 1280 gp) 1 1 1 false /\
    num_features (EfficientNet._bn1 m) = round_filters 1280 gp.
Proof.
  intros H.
  destruct (head_reads_last_block _ _ _ _ _ _ H) as (b & Hb & Hwf & Hhead & Hbn1).
  exists b. split; [exact Hb|].
  destruct (wf_project b Hwf) as (_ & Hpo & _).
  destruct Hhead as (Hi & Hrest).
  rewrite Hi, Hpo, (wf_bn2 b Hwf). unfold conv_is. auto 10.
Qed.

Lemma head_accepts_last_block_witness :
  exists m s1 b,
    EfficientNet.__init__ (EfficientNet.PyList b0_blocks_args) (Some b0_global_params)
      "Equi" 0%nat = (inr m, s1) /\
    last (EfficientNet._blocks m) = Some b /\
    in_channels (EfficientNet._conv_head m)
      = out_channels (MBConvBlock._project_conv b).
Proof.
  destruct (b0_blocks "Equi" 0%nat) as (m & s1 & Hm & _).
  destruct (head_accepts_last_block _ _ _ _ _ _ Hm) as (b & Hb & Hc & _).
  exists m, s1, b. auto.
Defined.

(** ** Every layer has parameters of its own *)

Lemma sampled_within_app (s s1 s2 : rng) (l1 l2 : list Conv2d) :
  (s <= s1)%nat -> (s1 <= s2)%nat ->
  sampled_within s s1 l1 -> sampled_within s1 s2 l2 ->
  sampled_within s s2 (l1 ++ l2).
Proof.
  intros Hs Hs' [Hr1 Hd1] [Hr2 Hd2]. split.
  - apply Forall_app. split.
    + eapply Forall_impl; [exact Hr1|]. simpl. intros c Hc. lia.
    + eapply Forall_impl; [exact Hr2|]. simpl. intros c Hc. lia.
  - rewrite map_app. apply NoDup_app. split; [exact Hd1|]. split; [|exact Hd2].
    intros w Hw1 Hw2.
    apply list_elem_of_fmap in Hw1 as (c1 & -> & Hc1).
    apply list_elem_of_fmap in Hw2 as (c2 & Heq & Hc2).
    rewrite Forall_forall in Hr1, Hr2.
    specialize (Hr1 c1 Hc1). specialize (Hr2 c2 Hc2). lia.
Qed.

Lemma sampled_within_nil (s : rng) : sampled_within s s [].
Proof. split; constructor. Qed.

Ltac distinct_positions :=
  repeat (apply NoDup_cons; split;
          [rewrite ?not_elem_of_cons; repeat split; try lia;
           apply not_elem_of_nil|]);
  apply NoDup_nil_2.

Lemma MBConvBlock_init_within (a : BlockArgs.t) (gp : GlobalParams)
    (ct : string) (s : rng) (b : MBConvBlock.t) (s' : rng) :
  MBConvBlock.__init__ a gp ct s = (inr b, s') ->
  (s <= s')%nat /\ sampled_within s s' (block_convs b).
Proof.
  unfold MBConvBlock.__init__.
  destruct (MBConvBlock.compute_has_se a) eqn:Hse.
  - destruct (num_squeezed_channels_pure a) as [[e|k] [Hk _]]; rewrite Hk;
      [destruct (expand_ratio a =? 1); run_init; discriminate|].
    destruct (expand_ratio a =? 1) eqn:He; run_init;
      intros H; injection H as <- <-; (split; [lia|]);
      unfold sampled_within, block_convs; simpl;
      (split; [repeat constructor; simpl; lia | distinct_positions]).
  - destruct (expand_ratio a =? 1) eqn:He; run_init;
      intros H; injection H as <- <-; (split; [lia|]);
      unfold sampled_within, block_convs; simpl;
      (split; [repeat constructor; simpl; lia | distinct_positions]).
Qed.

Lemma block_convs_snoc (blocks : list MBConvBlock.t) (b : MBConvBlock.t) :
  concat (map block_convs (blocks ++ [b]))
  = concat (map block_convs blocks) ++ block_convs b.
Proof. rewrite map_app, concat_app. simpl. rewrite app_nil_r. reflexivity. Qed.

Lemma repeat_blocks_within (n : nat) (a : BlockArgs.t) (gp : GlobalParams)
    (ct : string) (blocks : list MBConvBlock.t) (s0 s : rng)
    (blocks' : list MBConvBlock.t) (s' : rng) :
  (s0 <= s)%nat ->
  sampled_within s0 s (concat (map block_convs blocks)) ->
  EfficientNet.repeat_blocks n a gp ct blocks s = (inr blocks', s') ->
  (s <= s')%nat /\ sampled_within s0 s' (concat (map block_convs blocks')).
Proof.
  revert blocks s. induction n as [|n IH]; intros blocks s Hle Hin; simpl.
  - intros H. apply ret_inr in H as [-> ->]. auto.
  - intros H. apply bind_inr in H as (b & s1 & Hb & H).
    apply MBConvBlock_init_within in Hb as [Hle1 Hb].
    apply IH in H as [Hle2 H]; [split; [lia|exact H] | lia |].
    rewrite block_convs_snoc.
    apply (sampled_within_app s0 s s1); assumption.
Qed.

Lemma build_blocks_within (l : list BlockArgs.t) (gp : GlobalParams)
    (ct : string) (blocks : list MBConvBlock.t) (last0 : option BlockArgs.t)
    (s0 s : rng) (r : list MBConvBlock.t * option BlockArgs.t) (s' : rng) :
  (s0 <= s)%nat ->
  sampled_within s0 s (concat (map block_convs blocks)) ->
  EfficientNet.build_blocks l gp ct blocks last0 s = (inr r, s') ->
  (s <= s')%nat /\ sampled_within s0 s' (concat (map block_convs r.1)).
Proof.
  revert blocks last0 s. induction l as [|a l IH]; intros blocks last0 s Hle Hin.
  - simpl. intros H. apply ret_inr in H as [-> ->]. auto.
  - rewrite build_blocks_cons. intros H.
    apply bind_inr in H as (b & s1 & Hb & H).
    apply MBConvBlock_init_within in Hb as [Hle1 Hb].
    apply bind_inr in H as (blocks1 & s2 & Hrep & H).
    apply repeat_blocks_within with (s0 := s0) in Hrep as [Hle2 Hrep];
      [|lia|rewrite block_convs_snoc;
            apply (sampled_within_app s0 s s1); assumption].
    apply IH in H as [Hle3 H]; [split; [lia|exact H] | lia | exact Hrep].
Qed.

(** X3.  The convolutions of a built model (stem, every layer of every block,
    head) hold weights sampled at pairwise distinct positions during the
    construction: no two layers share parameters, not even the repeated
    blocks of one stage that are built from the same block arguments. *)
Theorem built_layers_have_own_weights (ba : EfficientNet.blocks_arg)
    (gp : option GlobalParams) (ct : string) (s : rng) (m : EfficientNet.t)
    (s' : rng) :
  EfficientNet.__init__ ba gp ct s = (inr m, s') ->
  NoDup (map weight (stored_convs m)) /\
  Forall (fun c => (s <= weight c < s')%nat) (stored_convs m).
Proof.
  intros H. rewrite (EfficientNet_init_given _ _ _ _ _ _ H) in H.
  apply EfficientNet_init_inr in H
    as (l & built & s2 & a & _ & _ & Hbuilt & _ & -> & _ & _ & Hblocks & Hstem
        & _ & Hhead & _).
  apply build_blocks_within with (s0 := S s) in Hbuilt as [Hle Hbuilt];
    [|lia|apply sampled_within_nil].
  assert (Hall : sampled_within s (S (S s2)) (stored_convs m)).
  { unfold stored_convs. rewrite Hblocks, Hstem, Hhead.
    apply (sampled_within_app s (S s) (S (S s2)) [_]); [lia|lia| |].
    - split; [repeat constructor; simpl; lia | distinct_positions].
    - apply (sampled_within_app (S s) s2 (S (S s2))); [lia|lia|exact Hbuilt|].
      split; [repeat constructor; simpl; lia | distinct_positions]. }
  destruct Hall as [Hr Hd]. auto.
Qed.

Lemma built_layers_have_own_weights_witness :
  exists m s1,
    EfficientNet.__init__ (EfficientNet.PyList b0_blocks_args) (Some b0_global_params)
      "Equi" 0%nat = (inr m, s1) /\
    NoDup (map weight (stored_convs m)).
Proof.
  destruct (b0_blocks "Equi" 0%nat) as (m & s1 & Hm & _).
  exists m, s1. split; [exact Hm|].
  apply (built_layers_have_own_weights _ _ _ _ _ _ Hm).
Defined.

(** ** The stochastic-depth schedule *)


Lemma block_rate_falsy (self : EfficientNet.t) (idx : Z) :
  truthy (drop_connect_rate (EfficientNet._global_params self)) = false ->
  truthy (EfficientNet.block_rate self idx) = false.
Proof.
  unfold EfficientNet.block_rate.
  destruct (drop_connect_rate (EfficientNet._global_params self)) as [r|];
    [|reflexivity].
  intros H. rewrite H. exact H.
Qed.



(** ** The samples a forward pass consumes *)

Lemma still_ret {A} (a : A) : still (mret a).
Proof. intros s. reflexivity. Qed.

Lemma still_raise {A} (e : exn) : still (raise (A := A) e).
Proof. intros s. reflexivity. Qed.

Lemma still_bind {A B} (m : M A) (f : A -> M B) :
  still m -> (forall a, still (f a)) -> still (m ≫= f).
Proof.
  intros Hm Hf s. rewrite bind_unfold. specialize (Hm s).
  destruct (m s) as [[e|a] s1]; simpl in *; [exact Hm|].
  subst s1. apply Hf.
Qed.

Lemma still_inr {A} (m : M A) (s : rng) (a : A) (s' : rng) :
  still m -> m s = (inr a, s') -> s' = s.
Proof. intros Hm H. specialize (Hm s). rewrite H in Hm. exact Hm. Qed.

Ltac still_step :=
  first
    [ apply still_ret | apply still_raise
    | apply still_bind; [|intros ?]
    | match goal with
      | |- still (if ?c then _ else _) => destruct c
      | |- still (match ?o with _ => _ end) => destruct o
      end ].

Lemma still_conv2d c x : still (conv2d c x).
Proof. unfold conv2d. repeat still_step. Qed.

Lemma still_batch_norm b x : still (batch_norm b x).
Proof. unfold batch_norm. repeat still_step. Qed.

Lemma still_branch self x : still (MBConvBlock.branch self x).
Proof.
  unfold MBConvBlock.branch, MBConvBlock.squeeze_excite, getattr, swish,
    sigmoid, mul, adaptive_avg_pool2d.
  repeat first [ apply still_conv2d | apply still_batch_norm | still_step ].
Qed.

Lemma still_gate self x rate :
  truthy rate = false \/ MBConvBlock.training self = false ->
  still (MBConvBlock.gate self x rate).
Proof.
  intros H. unfold MBConvBlock.gate, drop_connect.
  destruct rate as [p|]; [|apply still_ret].
  destruct (truthy (Some p)) eqn:Ht; [|apply still_ret].
  destruct H as [H|H]; [discriminate H|]. rewrite H. apply still_ret.
Qed.

Lemma still_block_forward self x rate :
  truthy rate = false \/ MBConvBlock.training self = false ->
  still (MBConvBlock.forward self x rate).
Proof.
  intros H. unfold MBConvBlock.forward.
  apply still_bind; [apply still_branch|]. intros y.
  destruct (MBConvBlock.skip_condition self); [|apply still_ret].
  apply still_bind; [apply still_gate, H|]. intros g.
  unfold add. repeat still_step.
Qed.

Lemma still_run_blocks self blocks idx x sk index :
  truthy (drop_connect_rate (EfficientNet._global_params self)) = false \/
  Forall (fun b => MBConvBlock.training b = false) blocks ->
  still (EfficientNet.run_blocks self blocks idx x sk index).
Proof.
  revert idx x sk index. induction blocks as [|b blocks IH]; intros; simpl.
  - apply still_ret.
  - apply still_bind.
    + apply still_block_forward. destruct H as [H|H].
      * left. apply block_rate_falsy, H.
      * right. apply Forall_cons_1 in H as [H _]. exact H.
    + intros y. apply IH. destruct H as [H|H]; [left; exact H|].
      right. apply Forall_cons_1 in H as [_ H]. exact H.
Qed.

Lemma still_encoder self inputs :
  truthy (drop_connect_rate (EfficientNet._global_params self)) = false \/
  Forall (fun b => MBConvBlock.training b = false) (EfficientNet._blocks self) ->
  still (EfficientNet.encoder self inputs).
Proof.
  intros H. unfold EfficientNet.encoder, swish.
  repeat first [ apply still_conv2d | apply still_batch_norm
               | apply still_run_blocks; exact H | still_step ].
Qed.

(** X5.  When the global drop-connect rate is [None] or zero, or no block
    is in training mode, a forward pass that returns has sampled exactly
    nine times: once for each decoder convolution and for nothing else. *)
Theorem forward_samples_nine (self : EfficientNet.t) (inputs : Tensor)
    (s : rng) (out : Tensor) (s' : rng) :
  truthy (drop_connect_rate (EfficientNet._global_params self)) = false \/
  Forall (fun b => MBConvBlock.training b = false) (EfficientNet._blocks self) ->
  EfficientNet.forward self inputs s = (inr out, s') ->
  s' = (9 + s)%nat.
Proof.
  intros Hoff H. unfold EfficientNet.forward, EfficientNet.extract_features in H.
  apply bind_inr in H as ([[x sk] index] & sd & Henc & Hdec). simpl in Hdec.
  apply (still_inr _ _ _ _ (still_encoder self inputs Hoff)) in Henc.
  apply decoder_inr in Hdec
    as (s5 & s11 & s13 & s15 & _ & _ & _ & _ & _ & _ & _ & Hs').
  subst sd. exact Hs'.
Qed.

Lemma b0_no_drop_pass (conv_type : string) (s : rng) :
  exists s',
    (model ← EfficientNet.__init__ (EfficientNet.PyList b0_blocks_args)
               (Some b0_global_params_no_drop) conv_type;
     out ← EfficientNet.forward model (image 1 3 224 224);
     mret (shape out)) s
    = (inr b0_output_shape, s').
Proof. eexists. vm_compute. reflexivity. Qed.

Lemma forward_samples_nine_witness :
  exists m s1 out s2,
    EfficientNet.__init__ (EfficientNet.PyList b0_blocks_args)
      (Some b0_global_params_no_drop) "Equi" 0%nat = (inr m, s1) /\
    EfficientNet.forward m (image 1 3 224 224) s1 = (inr out, s2) /\
    s2 = (9 + s1)%nat.
Proof.
  destruct (b0_no_drop_pass "Equi" 0%nat) as [s' H].
  apply bind_inr in H as (m & s1 & Hm & H).
  apply bind_inr in H as (out & s2 & Hf & _).
  exists m, s1, out, s2. split; [exact Hm|]. split; [exact Hf|].
  apply (forward_samples_nine m (image 1 3 224 224) s1 out s2); [|exact Hf].
  left. apply EfficientNet_init_inr in Hm
    as (l & built & s3 & a & _ & _ & _ & _ & _ & Hgp & _).
  rewrite Hgp. reflexivity.
Defined.

(** ** The cache is a chain of block applications *)

Lemma run_blocks_untouched (self : EfficientNet.t) (blocks : list MBConvBlock.t)
    (idx : Z) (x : Tensor) (sk : gmap Z Tensor) (index : Z) (s : rng)
    (r : Tensor * gmap Z Tensor * Z) (s' : rng) :
  EfficientNet.run_blocks self blocks idx x sk index s = (inr r, s') ->
  forall k, k <= idx -> r.1.2 !! k = sk !! k.
Proof.
  revert idx x sk index s.
  induction blocks as [|b blocks IH]; intros idx x sk index s; simpl.
  - intros H. apply ret_inr in H as [-> _]. reflexivity.
  - intros H k Hk. apply bind_inr in H as (y & s1 & _ & H).
    rewrite (IH _ _ _ _ _ H k) by lia.
    apply lookup_insert_ne. lia.
Qed.

Lemma run_blocks_chain (self : EfficientNet.t) (blocks : list MBConvBlock.t)
    (idx : Z) (x : Tensor) (sk : gmap Z Tensor) (index : Z) (s : rng)
    (r : Tensor * gmap Z Tensor * Z) (s' : rng) :
  sk !! idx = Some x ->
  EfficientNet.run_blocks self blocks idx x sk index s = (inr r, s') ->
  forall (j : nat) (blk : MBConvBlock.t),
    blocks !! j = Some blk ->
    exists a b s1 s2,
      r.1.2 !! (idx + Z.of_nat j) = Some a /\
      r.1.2 !! (idx + Z.of_nat j + 1) = Some b /\
      MBConvBlock.forward blk a
        (EfficientNet.block_rate self (idx + Z.of_nat j)) s1 = (inr b, s2).
Proof.
  revert idx x sk index s.
  induction blocks as [|b0 blocks IH]; intros idx x sk index s Hx; simpl.
  - intros _ j blk Hj. destruct j; discriminate Hj.
  - intros H j blk Hj. apply bind_inr in H as (y & s1 & Hy & H).
    destruct j as [|j].
    + injection Hj as <-. exists x, y, s, s1.
      rewrite Z.add_0_r.
      rewrite (run_blocks_untouched _ _ _ _ _ _ _ _ _ H idx) by lia.
      rewrite (run_blocks_untouched _ _ _ _ _ _ _ _ _ H (idx + 1)) by lia.
      rewrite lookup_insert_ne by lia. rewrite lookup_insert_eq. auto.
    + simpl in Hj.
      destruct (IH (idx + 1) y _ (index + 1) s1 (lookup_insert_eq _ _ _) H j blk Hj)
        as (a & b & s2 & s3 & Ha & Hb & Hf).
      exists a, b, s2, s3.
      replace (idx + Z.of_nat (S j)) with (idx + 1 + Z.of_nat j) by lia.
      auto.
Qed.

(** X6.  After the encoder has run, position 0 of the cache holds the stem
    output and, for every block [j], position [j + 1] holds what that block's
    [forward] returned on the tensor cached at position [j] with the rate of
    block [j]: no position is overwritten by a later block. *)
Theorem cache_is_a_chain (self : EfficientNet.t) (inputs : Tensor) (s : rng)
    (x : Tensor) (sk : gmap Z Tensor) (index : Z) (s' : rng) :
  EfficientNet.encoder self inputs s = (inr (x, sk, index), s') ->
  (exists t0,
      sk !! 0 = Some t0 /\
      expr t0 = SwishOf (ApplyBN (EfficientNet._bn0 self)
                  (ApplyConv (EfficientNet._conv_stem self) (expr inputs)))) /\
  forall (j : nat) (blk : MBConvBlock.t),
    EfficientNet._blocks self !! j = Some blk ->
    exists a b s1 s2,
      sk !! Z.of_nat j = Some a /\
      sk !! (Z.of_nat j + 1) = Some b /\
      MBConvBlock.forward blk a
        (EfficientNet.block_rate self (Z.of_nat j)) s1 = (inr b, s2).
Proof.
  unfold EfficientNet.encoder. intros H.
  apply bind_inr in H as (x1 & s1 & Hc & H).
  apply conv2d_inr in Hc as (_ & _ & _ & ->).
  apply bind_inr in H as (x2 & s2 & Hb & H).
  apply batch_norm_inr in Hb as (_ & _ & ->).
  apply bind_inr in H as (x3 & s3 & Hsw & H).
  apply swish_inr in Hsw as (_ & ->).
  apply bind_inr in H as (r & s4 & Hrun & H).
  do 3 (apply bind_inr in H; destruct H as (? & ? & _ & H)).
  apply ret_inr in H as [H _]. injection H as _ Hsk _. subst sk.
  split.
  - eexists. split.
    + rewrite (run_blocks_untouched _ _ _ _ _ _ _ _ _ Hrun 0) by lia.
      apply lookup_insert_eq.
    + reflexivity.
  - intros j blk Hj.
    destruct (run_blocks_chain _ _ _ _ _ _ _ _ _ (lookup_insert_eq _ _ _)
                Hrun j blk Hj) as (a & b & sa & sb & Ha & Hb & Hf).
    exists a, b, sa, sb. auto.
Qed.

Lemma cache_is_a_chain_witness :
  exists m s1 x sk index s2 t0,
    EfficientNet.__init__ (EfficientNet.PyList b0_blocks_args) (Some b0_global_params)
      "Equi" 0%nat = (inr m, s1) /\
    EfficientNet.encoder m (image 1 3 224 224) s1 = (inr (x, sk, index), s2) /\
    sk !! 0 = Some t0.
Proof.
  destruct (b0_runs_twice "Equi" 0%nat)
    as (m & s1 & out1 & s2 & _ & _ & Hm & H1 & _).
  unfold EfficientNet.extract_features in H1.
  apply bind_inr in H1 as ([[x sk] index] & sd & Henc & _).
  destruct (cache_is_a_chain _ _ _ _ _ _ _ Henc) as [(t0 & Ht0 & _) _].
  exists m, s1, x, sk, index, sd, t0. auto.
Defined.

(** ** When the decoder returns *)

Lemma cat_cons_inr_dims x rest s y s' :
  cat (x :: rest) s = (inr y, s') ->
  s' = s /\
  Forall (fun t => dimN (shape t) = dimN (shape x) /\
                   dimH (shape t) = dimH (shape x) /\
                   dimW (shape t) = dimW (shape x)) rest /\
  shape y = {| dimN := dimN (shape x);
               dimC := foldr (fun t acc => dimC (shape t) + acc) 0 (x :: rest);
               dimH := dimH (shape x); dimW := dimW (shape x) |}.
Proof. intros H. apply cat_cons_inr in H as (-> & Hall & ->). auto. Qed.

(** One step backwards through [decoder], keeping what each concatenation
    demanded of the cached tensor. *)
Ltac inv_bind_dims H :=
  let a := fresh "t" in
  let s := fresh "s" in
  let Hop := fresh "Hop" in
  let Hs := fresh "Hshape" in
  apply bind_inr in H; destruct H as (a & s & Hop & H);
  lazymatch type of Hop with
  | get_same_padding_conv2d _ _ _ _ _ _ _ _ _ = _ =>
      apply new_conv_inr in Hop; destruct Hop as [-> ->]
  | conv2d _ _ _ = _ =>
      apply conv2d_inr_eqs in Hop; destruct Hop as (-> & Hs & _);
      known_shapes Hs
  | swish _ _ _ = _ =>
      apply swish_inr_eqs in Hop; destruct Hop as (-> & Hs & _);
      known_shapes Hs
  | interpolate _ _ = _ =>
      apply interpolate_inr_eqs in Hop; destruct Hop as (-> & Hs & _);
      known_shapes Hs
  | EfficientNet.getitem _ _ _ = _ =>
      apply getitem_inr in Hop; destruct Hop as [Hop ->]
  | cat (_ :: _) _ = _ =>
      let Hc := fresh "Hcat" in
      let Hn := fresh "Hn" in
      let Hh := fresh "Hh" in
      let Hw := fresh "Hw" in
      apply cat_cons_inr_dims in Hop; destruct Hop as (-> & Hc & Hs);
      apply Forall_cons_1 in Hc; destruct Hc as [(Hn & Hh & Hw) _];
      known_shapes Hn; known_shapes Hh; known_shapes Hw; known_shapes Hs
  end.

Lemma decoder_requires_alignment (self : EfficientNet.t) (x : Tensor)
    (sk : gmap Z Tensor) (index : Z) (s : rng) (out : Tensor) (s' : rng) :
  EfficientNet.decoder self x sk index s = (inr out, s') ->
  exists s5 s11 s13 s15,
    sk !! (index - 5) = Some s5 /\ sk !! (index - 11) = Some s11 /\
    sk !! (index - 13) = Some s13 /\ sk !! (index - 15) = Some s15 /\
    aligned 2 x s5 /\ aligned 4 x s11 /\ aligned 8 x s13 /\ aligned 16 x s15.
Proof.
  unfold EfficientNet.decoder. intros H.
  repeat inv_bind_dims H. clear H.
  rewrite ?ceil_div_1 in *.
  eexists _, _, _, _. repeat (split; [eassumption|]).
  unfold aligned. repeat split; lia.
Qed.

Lemma new_conv_ok (size : option Z) (ct : string) (i o k st g : Z) (b : bool)
    (s : rng) :
  get_same_padding_conv2d size ct i o k st g b s
  = (inr {| in_channels := i; out_channels := o; conv_kernel := k;
            conv_stride := st; groups := g; bias := b; pad_image_size := size;
            conv_type := ct; weight := s |}, S s).
Proof. reflexivity. Qed.

Lemma conv2d_ok_ex (c : Conv2d) (x : Tensor) (s : rng) :
  dimC (shape x) = in_channels c -> 0 < conv_stride c ->
  exists y,
    conv2d c x s = (inr y, s) /\
    shape y = {| dimN := dimN (shape x); dimC := out_channels c;
                 dimH := ceil_div (dimH (shape x)) (conv_stride c);
                 dimW := ceil_div (dimW (shape x)) (conv_stride c) |}.
Proof. intros Hc Hs. eexists. split; [apply conv2d_ok; assumption|reflexivity]. Qed.

Lemma swish_ok_ex (a : Activation) (x : Tensor) (s : rng) :
  exists y, swish a x s = (inr y, s) /\ shape y = shape x.
Proof. eexists. split; reflexivity. Qed.

Lemma interpolate_ok_ex (x : Tensor) (s : rng) :
  exists y,
    interpolate x s = (inr y, s) /\
    shape y = {| dimN := dimN (shape x); dimC := dimC (shape x);
                 dimH := 2 * dimH (shape x); dimW := 2 * dimW (shape x) |}.
Proof. eexists. split; reflexivity. Qed.

Lemma getitem_ok (sk : gmap Z Tensor) (k : Z) (t : Tensor) (s : rng) :
  sk !! k = Some t -> EfficientNet.getitem sk k s = (inr t, s).
Proof. intros H. unfold EfficientNet.getitem. rewrite H. reflexivity. Qed.

Lemma cat_ok_ex (x : Tensor) (rest : list Tensor) (s : rng) :
  Forall (fun t => dimN (shape t) = dimN (shape x) /\
                   dimH (shape t) = dimH (shape x) /\
                   dimW (shape t) = dimW (shape x)) rest ->
  exists y,
    cat (x :: rest) s = (inr y, s) /\
    shape y = {| dimN := dimN (shape x);
                 dimC := foldr (fun t acc => dimC (shape t) + acc) 0 (x :: rest);
                 dimH := dimH (shape x); dimW := dimW (shape x) |}.
Proof.
  intros Hall. unfold cat.
  assert (Hb : forallb (fun y => same_outside_channels (shape x) (shape y)) rest
               = true).
  { apply forallb_forall. intros t Ht. rewrite Forall_forall in Hall.
    apply list_elem_of_In in Ht. destruct (Hall t Ht) as (Hn & Hh & Hw).
    unfold same_outside_channels. rewrite Hn, Hh, Hw, !Z.eqb_refl. reflexivity. }
  rewrite Hb. eexists. split; reflexivity.
Qed.

Ltac use_shapes :=
  repeat match goal with
         | K : shape ?t = _ |- context [shape ?t] => rewrite K
         end;
  simpl; rewrite ?ceil_div_1.

(** One step forwards through [decoder]. *)
Ltac fwd :=
  lazymatch goal with
  | |- returns ((?m ≫= _) ?s) _ =>
      lazymatch m with
      | get_same_padding_conv2d ?a ?b ?c ?d ?e ?g ?h ?i =>
          rewrite (bind_ok _ _ _ _ _ (new_conv_ok a b c d e g h i s))
      | conv2d ?c ?x =>
          let y := fresh "t" in
          let Hy := fresh "Hy" in
          let Hs := fresh "Hshape" in
          destruct (conv2d_ok_ex c x s) as (y & Hy & Hs);
          [reflexivity | reflexivity |];
          rewrite (bind_ok _ _ _ _ _ Hy); clear Hy; known_shapes Hs
      | swish ?a ?x =>
          let y := fresh "t" in
          let Hy := fresh "Hy" in
          let Hs := fresh "Hshape" in
          destruct (swish_ok_ex a x s) as (y & Hy & Hs);
          rewrite (bind_ok _ _ _ _ _ Hy); clear Hy; known_shapes Hs
      | interpolate ?x =>
          let y := fresh "t" in
          let Hy := fresh "Hy" in
          let Hs := fresh "Hshape" in
          destruct (interpolate_ok_ex x s) as (y & Hy & Hs);
          rewrite (bind_ok _ _ _ _ _ Hy); clear Hy; known_shapes Hs
      | EfficientNet.getitem ?sk ?k =>
          match goal with
          | Hk : sk !! k = Some _ |- _ =>
              rewrite (bind_ok _ _ _ _ _ (getitem_ok sk k _ s Hk))
          end
      | cat (?x :: ?rest) =>
          let y := fresh "t" in
          let Hy := fresh "Hy" in
          let Hs := fresh "Hshape" in
          destruct (cat_ok_ex x rest s) as (y & Hy & Hs);
          [repeat constructor; use_shapes; lia |];
          rewrite (bind_ok _ _ _ _ _ Hy); clear Hy; known_shapes Hs
      end;
      cbv beta
  end.

Lemma decoder_returns_when_aligned (self : EfficientNet.t) (x : Tensor)
    (sk : gmap Z Tensor) (index : Z) (s : rng) (s5 s11 s13 s15 : Tensor) :
  sk !! (index - 5) = Some s5 -> sk !! (index - 11) = Some s11 ->
  sk !! (index - 13) = Some s13 -> sk !! (index - 15) = Some s15 ->
  aligned 2 x s5 -> aligned 4 x s11 -> aligned 8 x s13 -> aligned 16 x s15 ->
  returns (EfficientNet.decoder self x sk index s) (9 + s)%nat.
Proof.
  intros H5 H11 H13 H15 (N5 & Hh5 & Hw5) (N11 & Hh11 & Hw11)
    (N13 & Hh13 & Hw13) (N15 & Hh15 & Hw15).
  unfold EfficientNet.decoder.
  repeat fwd.
  lazymatch goal with
  | |- returns (conv2d ?c ?t ?s0) _ =>
      destruct (conv2d_ok_ex c t s0) as (out & Hout & _);
      [reflexivity | reflexivity |]; exists out; exact Hout
  end.
Qed.

(** X7.  The decoder returns exactly when the four cached outputs it reads
    exist and have the batch size of the head output and 2, 4, 8 and 16
    times its height and width; their channel counts never matter, because
    every decoder convolution is built for the tensor it is applied to.  In
    every other case the decoder raises. *)
Theorem decoder_returns_iff (self : EfficientNet.t) (x : Tensor)
    (sk : gmap Z Tensor) (index : Z) (s : rng) :
  (exists out s', EfficientNet.decoder self x sk index s = (inr out, s'))
  <->
  (exists s5 s11 s13 s15,
      sk !! (index - 5) = Some s5 /\ sk !! (index - 11) = Some s11 /\
      sk !! (index - 13) = Some s13 /\ sk !! (index - 15) = Some s15 /\
      aligned 2 x s5 /\ aligned 4 x s11 /\ aligned 8 x s13 /\
      aligned 16 x s15).
Proof.
  split.
  - intros (out & s' & H). eapply decoder_requires_alignment, H.
  - intros (s5 & s11 & s13 & s15 & H5 & H11 & H13 & H15 & A5 & A11 & A13 & A15).
    destruct (decoder_returns_when_aligned self x sk index s s5 s11 s13 s15)
      as [out Hout]; try assumption.
    exists out, (9 + s)%nat. exact Hout.
Qed.

(** ** The shape a block returns *)

(** Lines 89-95 on the output [x] of the branch: the skip connection, when
    it is taken, adds two tensors of one shape. *)
Lemma wf_skip_path (self : MBConvBlock.t) (inputs x : Tensor)
    (rate : option Q) (s : rng) :
  dimC (shape inputs) = input_filters (MBConvBlock._block_args self) ->
  shape x =
    {| dimN := dimN (shape inputs);
       dimC := output_filters (MBConvBlock._block_args self);
       dimH := ceil_div (dimH (shape inputs))
                        (stride (MBConvBlock._block_args self));
       dimW := ceil_div (dimW (shape inputs))
                        (stride (MBConvBlock._block_args self)) |} ->
  exists out s',
    (if MBConvBlock.skip_condition self
     then g ← MBConvBlock.gate self x rate; add g inputs
     else mret x) s = (inr out, s') /\
    shape out = shape x.
Proof.
  intros Hc Hshape.
  destruct (MBConvBlock.skip_condition self) eqn:Hskip.
  - apply skip_condition_true in Hskip as (_ & Hs1 & Hio).
    assert (Hgate : exists g s', MBConvBlock.gate self x rate s = (inr g, s') /\
                                 shape g = shape x).
    { unfold MBConvBlock.gate, drop_connect.
      destruct rate as [p|]; [|eauto].
      destruct (truthy (Some p)); [|eauto].
      destruct (MBConvBlock.training self); [|eauto].
      unfold sample. rewrite bind_unfold. simpl. eauto. }
    destruct Hgate as (g & s' & Hg & Hgs).
    rewrite (bind_ok _ _ _ _ _ Hg). unfold add.
    assert (Hsame : shape g = shape inputs).
    { rewrite Hgs, Hshape, Hs1, !ceil_div_1, <- Hio, <- Hc.
      destruct inputs as [[n c h w] e]. reflexivity. }
    rewrite Hsame, broadcast_refl.
    eexists _, _. split; [reflexivity|]. simpl. congruence.
  - eexists _, _. split; reflexivity.
Qed.

(** The shape a block returns on an input it accepts. *)
Lemma wf_forward_dims (self : MBConvBlock.t) (inputs : Tensor)
    (rate : option Q) (s : rng) :
  block_wf self ->
  0 < stride (MBConvBlock._block_args self) ->
  dimC (shape inputs) = input_filters (MBConvBlock._block_args self) ->
  block_norms_accept self (shape inputs) = true ->
  exists out s',
    MBConvBlock.forward self inputs rate s = (inr out, s') /\
    dimN (shape out) = dimN (shape inputs) /\
    dimC (shape out) = output_filters (MBConvBlock._block_args self) /\
    dimH (shape out) = ceil_div (dimH (shape inputs))
                                (stride (MBConvBlock._block_args self)) /\
    dimW (shape out) = ceil_div (dimW (shape inputs))
                                (stride (MBConvBlock._block_args self)).
Proof.
  intros Hwf Hstride Hc Hacc.
  pose proof (wf_branch_shape self inputs s Hwf Hstride Hc) as H.
  rewrite Hacc in H. destruct H as (x & Hx & Hshape).
  destruct (wf_skip_path self inputs x rate s Hc Hshape)
    as (out & s' & Hout & Hs).
  exists out, s'. unfold MBConvBlock.forward.
  rewrite (bind_ok _ _ _ _ _ Hx), Hs, Hshape. auto.
Qed.

(** X8.  A block whose layers agree with its arguments is given an input
    with [input_filters] channels.  When each of its batch normalisations
    takes its input (the layer is not in training mode, or the batch holds
    more than one value per channel at that point), the block returns a
    tensor with the input's batch size, [output_filters] channels and height
    and width [ceil(size / stride)], whether or not the skip connection is
    taken; otherwise it raises the ValueError of the first batch
    normalisation that is given a single value per channel, and nothing has
    been sampled. *)
Theorem block_output_shape (self : MBConvBlock.t) (inputs : Tensor)
    (rate : option Q) (s : rng) :
  block_wf self ->
  0 < stride (MBConvBlock._block_args self) ->
  dimC (shape inputs) = input_filters (MBConvBlock._block_args self) ->
  if block_norms_accept self (shape inputs)
  then exists out s',
         MBConvBlock.forward self inputs rate s = (inr out, s') /\
         shape out =
           {| dimN := dimN (shape inputs);
              dimC := output_filters (MBConvBlock._block_args self);
              dimH := ceil_div (dimH (shape inputs))
                               (stride (MBConvBlock._block_args self));
              dimW := ceil_div (dimW (shape inputs))
                               (stride (MBConvBlock._block_args self)) |}
  else exists sh,
         MBConvBlock.forward self inputs rate s
         = (inl (one_value_error sh), s).
Proof.
  intros Hwf Hstride Hc.
  pose proof (wf_branch_shape self inputs s Hwf Hstride Hc) as H.
  destruct (block_norms_accept self (shape inputs)).
  - destruct H as (x & Hx & Hshape).
    destruct (wf_skip_path self inputs x rate s Hc Hshape)
      as (out & s' & Hout & Hs).
    exists out, s'. split.
    + unfold MBConvBlock.forward. rewrite (bind_ok _ _ _ _ _ Hx). exact Hout.
    + rewrite Hs. exact Hshape.
  - destruct H as (sh & Hx). exists sh.
    unfold MBConvBlock.forward. apply bind_err, Hx.
Qed.

Lemma block_output_shape_witness :
  exists b s1 out s2,
    MBConvBlock.__init__ (stage 2 3 2 6 16 24) b0_global_params "Equi" 0%nat
      = (inr b, s1) /\
    MBConvBlock.forward b (image 1 16 112 112) (Some (1 # 10)%Q) s1
      = (inr out, s2) /\
    shape out = {| dimN := 1; dimC := 24; dimH := 56; dimW := 56 |}.
Proof.
  destruct (MBConvBlock_init_spec (stage 2 3 2 6 16 24) b0_global_params
              "Equi" 0%nat) as (b & s1 & Hb & _ & Hwf & Hargs & _);
    [intros _; simpl; lia|].
  pose proof (block_output_shape b (image 1 16 112 112) (Some (1 # 10)%Q) s1
                Hwf) as H.
  rewrite block_norms_accept_sized in H by (rewrite ?Hargs; reflexivity).
  destruct H as (out & s2 & Hf & Hshape); try (rewrite Hargs; reflexivity).
  exists b, s1, out, s2. split; [exact Hb|]. split; [exact Hf|].
  rewrite Hshape, Hargs. reflexivity.
Defined.

(** A freshly built block on a batch that the stride reduces to one value
    per channel. *)
Lemma block_refuses_single_value :
  exists b s1,
    MBConvBlock.__init__ (stage 2 3 2 6 16 24) b0_global_params "Equi" 0%nat
      = (inr b, s1) /\
    block_norms_accept b (shape (image 1 16 2 2)) = false /\
    MBConvBlock.forward b (image 1 16 2 2) None s1
    = (inl (one_value_error
              {| dimN := 1; dimC := 96; dimH := 1; dimW := 1 |}), s1).
Proof. eexists _, _. repeat split; vm_compute; reflexivity. Qed.

(** ** Inputs a block rejects *)

Lemma conv2d_wrong_channels (c : Conv2d) (x : Tensor) (s : rng) :
  dimC (shape x) <> in_channels c ->
  conv2d c x s
  = (inl (RuntimeError "conv2d: input channels do not match the layer"), s).
Proof.
  intros H. unfold conv2d. apply Z.eqb_neq in H. rewrite H. reflexivity.
Qed.

(** X9.  A block whose layers agree with its arguments rejects an input
    whose channel count is not [input_filters]: its first convolution
    raises, and nothing has been sampled. *)
Theorem block_rejects_wrong_channels (self : MBConvBlock.t) (inputs : Tensor)
    (rate : option Q) (s : rng) :
  block_wf self ->
  dimC (shape inputs) <> input_filters (MBConvBlock._block_args self) ->
  MBConvBlock.forward self inputs rate s
  = (inl (RuntimeError "conv2d: input channels do not match the layer"), s).
Proof.
  intros Hwf Hc.
  destruct Hwf as [_ _ Hexp Hdw _ _ _ _].
  destruct Hdw as (Hdi & _).
  unfold MBConvBlock.forward. apply bind_err.
  unfold MBConvBlock.branch.
  destruct (expand_ratio (MBConvBlock._block_args self) =? 1) eqn:He;
    cbn [negb].
  - apply Z.eqb_eq in He. rewrite bind_unfold. simpl.
    apply bind_err, conv2d_wrong_channels.
    rewrite Hdi. unfold working_channels. rewrite He. lia.
  - apply Z.eqb_neq in He.
    destruct (Hexp He) as (c & bn & Hc' & Hbn' & (Hci & _) & _).
    rewrite Hc', Hbn'. apply bind_err.
    rewrite bind_unfold. simpl. rewrite bind_unfold. simpl.
    apply bind_err, conv2d_wrong_channels. rewrite Hci. exact Hc.
Qed.

Lemma block_rejects_wrong_channels_witness :
  exists b s1,
    MBConvBlock.__init__ (stage 2 3 2 6 16 24) b0_global_params "Equi" 0%nat
      = (inr b, s1) /\
    MBConvBlock.forward b (image 1 3 112 112) None s1
    = (inl (RuntimeError "conv2d: input channels do not match the layer"), s1).
Proof.
  destruct (MBConvBlock_init_spec (stage 2 3 2 6 16 24) b0_global_params
              "Equi" 0%nat) as (b & s1 & Hb & _ & Hwf & Hargs & _);
    [intros _; simpl; lia|].
  exists b, s1. split; [exact Hb|].
  apply (block_rejects_wrong_channels b (image 1 3 112 112) None s1 Hwf).
  rewrite Hargs. discriminate.
Defined.

(** ** Widths behave as heights do *)

Lemma broadcast_dimW (a b c : Shape) :
  broadcast a b = Some c -> broadcast_dim (dimW a) (dimW b) = Some (dimW c).
Proof.
  unfold broadcast.
  destruct (broadcast_dim (dimN a) (dimN b)); [|discriminate].
  destruct (broadcast_dim (dimC a) (dimC b)); [|discriminate].
  destruct (broadcast_dim (dimH a) (dimH b)); [|discriminate].
  destruct (broadcast_dim (dimW a) (dimW b)); [|discriminate].
  simpl. intros H. injection H as <-. reflexivity.
Qed.

Lemma conv2d_width (c : Conv2d) (x : Tensor) (s : rng) (y : Tensor) (s' : rng) :
  conv2d c x s = (inr y, s') ->
  (0 <= dimW (shape x) -> 0 <= dimW (shape y) <= dimW (shape x)) /\
  (dimW (shape x) = 1 -> dimW (shape y) = 1).
Proof.
  intros H. apply conv2d_inr in H as (_ & _ & Hs & ->). simpl. split.
  - intros Hx. apply ceil_div_le; assumption.
  - intros ->. apply ceil_div_one, Hs.
Qed.

Lemma batch_norm_width (b : BatchNorm2d) (x : Tensor) (s : rng) (y : Tensor)
    (s' : rng) :
  batch_norm b x s = (inr y, s') -> dimW (shape y) = dimW (shape x).
Proof. intros H. apply batch_norm_inr in H as (_ & _ & ->). reflexivity. Qed.

Lemma squeeze_excite_width (self : MBConvBlock.t) (x : Tensor) (s : rng)
    (y : Tensor) (s' : rng) :
  MBConvBlock.squeeze_excite self x s = (inr y, s') ->
  dimW (shape y) = dimW (shape x).
Proof.
  unfold MBConvBlock.squeeze_excite. intros H.
  apply bind_inr in H as (pooled & s1 & Hpool & H).
  injection Hpool as <- <-.
  apply bind_inr in H as (cr & s2 & _ & H).
  apply bind_inr in H as (ce & s3 & _ & H).
  apply bind_inr in H as (reduced & s4 & Hr & H).
  apply conv2d_width in Hr as [_ Hr]. specialize (Hr eq_refl).
  apply bind_inr in H as (activated & s5 & Ha & H).
  apply swish_inr_eqs in Ha as (_ & Ha & _).
  apply bind_inr in H as (expanded & s6 & He & H).
  apply conv2d_width in He as [_ He].
  rewrite Ha in He. specialize (He Hr).
  apply bind_inr in H as (g & s7 & Hg & H).
  injection Hg as <- <-.
  unfold mul in H. simpl in H.
  destruct (broadcast _ (shape x)) as [sh|] eqn:Hb; [|discriminate].
  injection H as <- <-. simpl.
  apply broadcast_dimW in Hb. simpl in Hb. rewrite He in Hb.
  rewrite broadcast_dim_one in Hb. injection Hb as <-. reflexivity.
Qed.

Lemma branch_width (self : MBConvBlock.t) (inputs : Tensor) (s : rng)
    (x : Tensor) (s' : rng) :
  MBConvBlock.branch self inputs s = (inr x, s') ->
  0 <= dimW (shape inputs) ->
  0 <= dimW (shape x) <= dimW (shape inputs).
Proof.
  unfold MBConvBlock.branch. intros H Hin.
  apply bind_inr in H as (x0 & s0 & Hexp & H).
  assert (H0 : 0 <= dimW (shape x0) <= dimW (shape inputs)).
  { destruct (negb _).
    - apply bind_inr in Hexp as (ec & s1 & _ & Hexp).
      apply bind_inr in Hexp as (bn & s2 & _ & Hexp).
      apply bind_inr in Hexp as (y1 & s3 & Hc & Hexp).
      apply conv2d_width in Hc as [Hc _]. specialize (Hc Hin).
      apply bind_inr in Hexp as (y2 & s4 & Hb & Hexp).
      apply batch_norm_width in Hb.
      apply swish_inr_eqs in Hexp as (_ & Hsw & _).
      rewrite Hsw, Hb. exact Hc.
    - apply ret_inr in Hexp as [-> _]. lia. }
  apply bind_inr in H as (x1 & s1 & Hc & H).
  apply conv2d_width in Hc as [Hc _].
  apply bind_inr in H as (x2 & s2 & Hb & H).
  apply batch_norm_width in Hb.
  apply bind_inr in H as (x3 & s3 & Hsw & H).
  apply swish_inr_eqs in Hsw as (_ & Hsw & _).
  apply bind_inr in H as (x4 & s4 & Hse & H).
  assert (H4 : dimW (shape x4) = dimW (shape x3)).
  { destruct (MBConvBlock.has_se self).
    - eapply squeeze_excite_width, Hse.
    - apply ret_inr in Hse as [-> _]. reflexivity. }
  apply bind_inr in H as (x5 & s5 & Hp & H).
  apply conv2d_width in Hp as [Hp _].
  apply batch_norm_width in H.
  rewrite H. rewrite H4, Hsw, Hb in Hp. lia.
Qed.

Lemma block_forward_width (self : MBConvBlock.t) (inputs : Tensor)
    (rate : option Q) (s : rng) (out : Tensor) (s' : rng) :
  MBConvBlock.forward self inputs rate s = (inr out, s') ->
  0 <= dimW (shape inputs) ->
  0 <= dimW (shape out) <= dimW (shape inputs).
Proof.
  unfold MBConvBlock.forward. intros H Hin.
  apply bind_inr in H as (x & s1 & Hbranch & H).
  apply branch_width in Hbranch; [|exact Hin].
  destruct (MBConvBlock.skip_condition self).
  - apply bind_inr in H as (g & s2 & Hg & H).
    apply gate_inr in Hg as (Hg & _).
    unfold add in H.
    destruct (broadcast (shape g) (shape inputs)) as [sh|] eqn:Hb; [|discriminate].
    injection H as <- <-. simpl.
    apply broadcast_dimW, broadcast_dim_cases in Hb. rewrite Hg in Hb. lia.
  - apply ret_inr in H as [-> _]. exact Hbranch.
Qed.

(** Every cached output is at most as wide as the stem's output. *)
Lemma run_blocks_width (self : EfficientNet.t) (blocks : list MBConvBlock.t)
    (idx : Z) (x : Tensor) (sk : gmap Z Tensor) (index : Z) (s : rng)
    (r : Tensor * gmap Z Tensor * Z) (s' : rng) (h : Z) :
  0 <= dimW (shape x) <= h ->
  (forall k t, sk !! k = Some t -> 0 <= dimW (shape t) <= h) ->
  EfficientNet.run_blocks self blocks idx x sk index s = (inr r, s') ->
  forall k t, r.1.2 !! k = Some t -> 0 <= dimW (shape t) <= h.
Proof.
  revert idx x sk index s.
  induction blocks as [|b blocks IH]; intros idx x sk index s Hx Hsk; simpl.
  - intros H. apply ret_inr in H as [-> _]. exact Hsk.
  - intros H. apply bind_inr in H as (y & s1 & Hy & H).
    apply block_forward_width in Hy; [|lia].
    eapply IH; [| |exact H]; [lia|].
    intros k t. rewrite lookup_insert.
    destruct (decide (idx + 1 = k)); [|apply Hsk].
    intros Ht. injection Ht as <-. lia.
Qed.

Lemma encoder_width (self : EfficientNet.t) (inputs : Tensor) (s : rng)
    (x : Tensor) (sk : gmap Z Tensor) (index : Z) (s' : rng) :
  0 <= dimW (shape inputs) ->
  EfficientNet.encoder self inputs s = (inr (x, sk, index), s') ->
  forall k t, sk !! k = Some t ->
    0 <= dimW (shape t)
      <= ceil_div (dimW (shape inputs)) (conv_stride (EfficientNet._conv_stem self)).
Proof.
  unfold EfficientNet.encoder. intros Hin H.
  apply bind_inr in H as (x1 & s1 & Hc & H).
  apply conv2d_inr in Hc as (_ & _ & Hstride & ->).
  apply bind_inr in H as (x2 & s2 & Hb & H).
  apply batch_norm_width in Hb. simpl in Hb.
  apply bind_inr in H as (x3 & s3 & Hsw & H).
  apply swish_inr_eqs in Hsw as (_ & Hsw & _).
  apply bind_inr in H as (r & s4 & Hrun & H).
  do 3 (apply bind_inr in H; destruct H as (? & ? & _ & H)).
  apply ret_inr in H as [H _]. injection H as _ Hsk _. subst sk.
  pose proof (ceil_div_le _ _ Hin Hstride) as Hle.
  assert (Hx3 : 0 <= dimW (shape x3)
                <= ceil_div (dimW (shape inputs))
                            (conv_stride (EfficientNet._conv_stem self)))
    by (rewrite Hsw, Hb; lia).
  eapply run_blocks_width; [exact Hx3| |exact Hrun].
  intros k t. rewrite lookup_insert.
  destruct (decide (0 = k)); [|rewrite lookup_empty; discriminate].
  intros Ht. injection Ht as <-. exact Hx3.
Qed.

(** X10.  Whatever the block arguments and global parameters, a model built
    by [__init__] returns, when it returns, a 2-channel map whose height and
    width are at most half (rounded up) of the input's: the stem has stride
    2, no block enlarges its input, and the last concatenation ties the
    output to a cached encoder output. *)
Theorem built_model_output_bound (ba : EfficientNet.blocks_arg)
    (gp : option GlobalParams) (ct : string) (s : rng) (m : EfficientNet.t)
    (s1 : rng) (inputs : Tensor) (s0 : rng) (out : Tensor) (s2 : rng) :
  EfficientNet.__init__ ba gp ct s = (inr m, s1) ->
  0 <= dimH (shape inputs) -> 0 <= dimW (shape inputs) ->
  EfficientNet.forward m inputs s0 = (inr out, s2) ->
  dimC (shape out) = 2 /\
  dimH (shape out) <= ceil_div (dimH (shape inputs)) 2 /\
  dimW (shape out) <= ceil_div (dimW (shape inputs)) 2.
Proof.
  intros Hm Hh Hw Hf.
  assert (Hstride : conv_stride (EfficientNet._conv_stem m) = 2)
    by (eapply EfficientNet_init_wf, Hm).
  unfold EfficientNet.forward, EfficientNet.extract_features in Hf.
  apply bind_inr in Hf as ([[x sk] index] & sd & Henc & Hdec). simpl in Hdec.
  destruct (decoder_requires_alignment _ _ _ _ _ _ _ Hdec)
    as (s5 & s11 & s13 & s15 & _ & _ & _ & H15 & _ & _ & _ & (_ & A15h & A15w)).
  apply decoder_inr in Hdec
    as (s5' & s11' & s13' & s15' & _ & _ & _ & _ & _ & Hshape & _).
  pose proof (encoder_height _ _ _ _ _ _ _ Hh Henc _ _ H15) as Hbh.
  pose proof (encoder_width _ _ _ _ _ _ _ Hw Henc _ _ H15) as Hbw.
  rewrite Hstride in Hbh, Hbw.
  rewrite Hshape. simpl. repeat split; lia.
Qed.

Lemma built_model_output_bound_witness :
  exists m s1 out s2,
    EfficientNet.__init__ (EfficientNet.PyList b0_blocks_args) (Some b0_global_params)
      "Equi" 0%nat = (inr m, s1) /\
    EfficientNet.forward m (image 1 3 224 224) s1 = (inr out, s2) /\
    dimH (shape out) <= 112.
Proof.
  destruct (b0_runs_twice "Equi" 0%nat)
    as (m & s1 & out1 & s2 & _ & _ & Hm & H1 & _).
  exists m, s1, out1, s2. split; [exact Hm|]. split; [exact H1|].
  destruct (built_model_output_bound _ _ _ _ _ _ (image 1 3 224 224) s1 out1
              s2 Hm) as (_ & Hh & _);
    [simpl; lia | simpl; lia | exact H1 | exact Hh].
Defined.

(** ** Construction by name *)

Lemma not_a_model_name : "efficientnet-b9" ∉ nine_names.
Proof.
  intros H. unfold nine_names in H.
  rewrite !elem_of_cons, elem_of_nil in H. intuition discriminate.
Qed.

(** The error of the name check is not one [__init__] raises. *)
Lemma init_never_name_error (ba : EfficientNet.blocks_arg)
    (gp : option GlobalParams) (ct : string) (s s' : rng) :
  EfficientNet.__init__ ba gp ct s <> (inl invalid_name_error, s').
Proof.
  unfold invalid_name_error. intros H.
  destruct ba as [|l|[|b l]]; try discriminate H.
  apply EfficientNet_init_inl in H.
  destruct H as [H|[H|[H|[H|H]]]];
    [exact H | discriminate H | discriminate H | | discriminate H].
  vm_compute in H. discriminate H.
Qed.

(** X11.  The ValueError of the name check comes from the name and from
    nothing else: when the registry returns, whatever it returns,
    [from_name] raises that error exactly on the names outside the nine;
    on each of the nine, construction is started, and it does not end in
    that error. *)
Theorem from_name_fails_iff {Overrides : Type}
    (get_model_params :
       string -> option Overrides -> M (EfficientNet.blocks_arg * GlobalParams))
    (name conv_type : string) (override_params : option Overrides) (s : rng) :
  (exists p s1, get_model_params name override_params s = (inr p, s1)) ->
  ((exists s', EfficientNet.from_name get_model_params name conv_type
                 override_params s = (inl invalid_name_error, s'))
   <-> name ∉ nine_names).
Proof.
  intros (p & s1 & Hreg).
  unfold EfficientNet.from_name.
  destruct (decide (name ∈ nine_names)) as [Hin|Hout].
  - rewrite (bind_ok _ _ _ _ _ (check_valid name s Hin)).
    rewrite (bind_ok _ _ _ _ _ Hreg).
    split; [|contradiction].
    intros (s' & H). exfalso. eapply init_never_name_error, H.
  - rewrite (bind_err _ _ _ _ _ (check_invalid name s Hout)).
    split; [auto|]. intros _. exists s. reflexivity.
Qed.

Lemma from_name_fails_iff_witness :
  exists s',
    EfficientNet.from_name b0_registry "efficientnet-b9" "Equi" None 0%nat
    = (inl invalid_name_error, s').
Proof.
  apply (from_name_fails_iff b0_registry "efficientnet-b9" "Equi" None 0%nat).
  - eexists _, _. reflexivity.
  - exact not_a_model_name.
Defined.

Section PretrainedFacts.
Context {Overrides : Type}.
Variable get_model_params :
  string -> option Overrides -> M (EfficientNet.blocks_arg * GlobalParams).
Variable num_classes_override : Z -> Overrides.
Variable load_pretrained_weights :
  EfficientNet.t -> string -> bool -> bool -> M EfficientNet.t.

(** X12.  [from_pretrained] builds the model by name with the class count as
    override, then loads the weights, asking for the final linear layer
    exactly when there are 1000 classes.  With 3 input channels the loaded
    model is returned as it is; otherwise its stem is replaced by a
    convolution from [in_channels] channels whose weights are sampled after
    the loading, so the new stem is not pretrained, while every other layer
    is the loaded one. *)
Theorem from_pretrained_stem (model_name conv_type : string) (advprop : bool)
    (num_classes in_channels : Z) (s : rng) (m : EfficientNet.t) (s' : rng) :
  from_pretrained get_model_params num_classes_override load_pretrained_weights
    model_name conv_type advprop num_classes in_channels s
    = (inr m, s') ->
  exists built s1 loaded s2,
    EfficientNet.from_name get_model_params model_name conv_type
      (Some (num_classes_override num_classes)) s = (inr built, s1) /\
    load_pretrained_weights built model_name (num_classes =? 1000) advprop s1
      = (inr loaded, s2) /\
    (in_channels = 3 -> m = loaded /\ s' = s2) /\
    (in_channels <> 3 ->
       s' = S s2 /\
       m = set_conv_stem loaded
             {| in_channels := in_channels;
                out_channels :=
                  round_filters 32 (EfficientNet._global_params loaded);
                conv_kernel := 3; conv_stride := 2; groups := 1; bias := false;
                pad_image_size :=
                  image_size (EfficientNet._global_params loaded);
                conv_type := EfficientNet._conv_type loaded;
                weight := s2 |} /\
       EfficientNet._blocks m = EfficientNet._blocks loaded /\
       EfficientNet._conv_head m = EfficientNet._conv_head loaded).
Proof.
  unfold from_pretrained. intros H.
  apply bind_inr in H as (built & s1 & Hbuilt & H).
  apply bind_inr in H as (loaded & s2 & Hload & H).
  exists built, s1, loaded, s2. split; [exact Hbuilt|]. split; [exact Hload|].
  destruct (in_channels =? 3) eqn:Hc; cbn [negb] in H.
  - apply Z.eqb_eq in Hc. apply ret_inr in H as [-> ->].
    split; [auto|]. intros Hne. contradiction.
  - apply Z.eqb_neq in Hc.
    apply bind_inr in H as (stem & s3 & Hstem & H).
    apply new_conv_inr in Hstem as [-> ->].
    apply ret_inr in H as [-> ->].
    split; [intros He; contradiction|]. intros _. auto.
Qed.

(** X13.  On a name outside the nine identifiers [from_pretrained] raises
    the ValueError of the name check; no weights are loaded and nothing is
    sampled. *)
Theorem from_pretrained_invalid_name (model_name conv_type : string)
    (advprop : bool) (num_classes in_channels : Z) (s : rng) :
  model_name ∉ nine_names ->
  from_pretrained get_model_params num_classes_override load_pretrained_weights
    model_name conv_type advprop num_classes in_channels s
    = (inl invalid_name_error, s).
Proof.
  intros Hout. unfold from_pretrained, EfficientNet.from_name.
  apply bind_err, bind_err, check_invalid, Hout.
Qed.
End PretrainedFacts.

Lemma b0_from_name (conv_type : string) (s : rng) :
  exists m s1,
    EfficientNet.from_name b0_registry "efficientnet-b0" conv_type (Some tt) s
    = (inr m, s1).
Proof.
  unfold EfficientNet.from_name.
  rewrite (bind_ok _ _ _ _ _ (check_valid "efficientnet-b0" s
                                (list_elem_of_here _ _))).
  unfold b0_registry. rewrite bind_unfold. cbn [mret M_ret fst snd].
  destruct (b0_blocks conv_type s) as (m & s1 & Hm & _). eauto.
Qed.

Lemma from_pretrained_stem_witness :
  exists m s',
    from_pretrained b0_registry (fun _ => tt) load_nothing "efficientnet-b0"
      "Equi" false 1000 1 0%nat = (inr m, s') /\
    in_channels (EfficientNet._conv_stem m) = 1.
Proof.
  destruct (b0_from_name "Equi" 0%nat) as (built & s1 & Hbuilt).
  destruct (from_pretrained b0_registry (fun _ => tt) load_nothing
              "efficientnet-b0" "Equi" false 1000 1 0%nat)
    as [[e|m] s'] eqn:H.
  - exfalso. unfold from_pretrained in H.
    rewrite (bind_ok _ _ _ _ _ Hbuilt) in H. discriminate H.
  - exists m, s'. split; [reflexivity|].
    destruct (from_pretrained_stem _ _ _ _ _ _ _ _ _ _ _ H)
      as (b & t1 & l & t2 & _ & _ & _ & Hne).
    destruct Hne as (_ & -> & _); [discriminate|]. reflexivity.
Defined.

Lemma from_pretrained_invalid_name_witness :
  from_pretrained b0_registry (fun _ => tt) load_nothing "efficientnet-b9"
    "Equi" false 1000 3 0%nat = (inl invalid_name_error, 0%nat).
Proof.
  apply (from_pretrained_invalid_name b0_registry (fun _ => tt) load_nothing).
  exact not_a_model_name.
Defined.

(** ** Inputs the model rejects *)

(** X14.  A model built by [__init__] takes 3-channel images: on an input
    with any other channel count [forward] raises at the stem convolution,
    before anything is cached or sampled. *)
Theorem forward_rejects_wrong_channels (ba : EfficientNet.blocks_arg)
    (gp : option GlobalParams) (ct : string) (s : rng) (m : EfficientNet.t)
    (s1 : rng) (inputs : Tensor) (s0 : rng) :
  EfficientNet.__init__ ba gp ct s = (inr m, s1) ->
  dimC (shape inputs) <> 3 ->
  EfficientNet.forward m inputs s0
  = (inl (RuntimeError "conv2d: input channels do not match the layer"), s0).
Proof.
  intros Hm Hc. rewrite (EfficientNet_init_given _ _ _ _ _ _ Hm) in Hm.
  apply EfficientNet_init_inr in Hm
    as (l & built & s3 & a & _ & _ & _ & _ & _ & _ & _ & _ & Hstem & _).
  unfold EfficientNet.forward, EfficientNet.extract_features,
    EfficientNet.encoder.
  apply bind_err, bind_err, conv2d_wrong_channels.
  rewrite Hstem. exact Hc.
Qed.

Lemma forward_rejects_wrong_channels_witness :
  exists m s1,
    EfficientNet.__init__ (EfficientNet.PyList b0_blocks_args) (Some b0_global_params)
      "Equi" 0%nat = (inr m, s1) /\
    EfficientNet.forward m (image 1 1 224 224) s1
    = (inl (RuntimeError "conv2d: input channels do not match the layer"), s1).
Proof.
  destruct (b0_blocks "Equi" 0%nat) as (m & s1 & Hm & _).
  exists m, s1. split; [exact Hm|].
  apply (forward_rejects_wrong_channels _ _ _ _ _ _ (image 1 1 224 224) s1 Hm).
  discriminate.
Defined.

(** ** The squeeze-and-excitation layers *)

(** X15.  For a ratio in (0,1] and a non-negative filter count below 2^53,
    where every integer is a double, the number of squeezed channels is at
    least 1 and at most [max(1, input_filters)]: rounding the product to a
    double does not carry it past the filter count, so the squeeze never
    widens the descriptor and never empties it. *)
Theorem num_squeezed_channels_bounds (a : BlockArgs.t) (r : Q) (s : rng) :
  se_ratio a = Some r -> (0 < r)%Q -> (r <= 1)%Q -> 0 <= input_filters a ->
  input_filters a < 2 ^ 53 ->
  exists n,
    MBConvBlock.num_squeezed_channels a s = (inr n, s) /\
    1 <= n <= Z.max 1 (input_filters a).
Proof.
  intros Hr H0 H1 Hi Hlt.
  destruct (num_squeezed_channels_returns a r s Hr H0 H1 (conj Hi Hlt))
    as (k & q & Hk & _ & -> & Hq0 & Hqn).
  eexists. split; [exact Hk|].
  rewrite (int_nonneg _ Hq0).
  assert (Hle : Qfloor q <= input_filters a).
  { rewrite <- (Qfloor_Z (input_filters a)). apply Qfloor_resp_le, Hqn. }
  lia.
Qed.

Lemma num_squeezed_channels_bounds_witness :
  exists n,
    MBConvBlock.num_squeezed_channels (stage 2 3 2 6 16 24) 0%nat
      = (inr n, 0%nat) /\
    1 <= n <= 16.
Proof.
  destruct (num_squeezed_channels_bounds (stage 2 3 2 6 16 24) (1 # 4)%Q 0%nat)
    as (n & Hn & Hb); try reflexivity; try discriminate.
  exists n. split; [exact Hn|]. simpl in Hb. lia.
Defined.

(** Beyond 2^53 the bound is lost: the filter count 2^53 + 3 is not a
    double, and at ratio 1 line 58 gives 2^53 + 4 channels. *)
Lemma num_squeezed_channels_beyond_doubles :
  MBConvBlock.num_squeezed_channels
    {| kernel_size := 3; num_repeat := 1; input_filters := 2 ^ 53 + 3;
       output_filters := 8; expand_ratio := 1; id_skip := true; stride := 1;
       se_ratio := Some 1%Q |} 0%nat
  = (inr (2 ^ 53 + 4), 0%nat).
Proof. vm_compute. reflexivity. Qed.

(** X16.  A squeeze-excite ratio that is absent, not positive, or above 1
    does not raise: the block is built with [has_se] false and with neither
    of the two squeeze-and-excitation layers, and only the layers of the
    other phases have been sampled. *)
Theorem se_disabled_outside_range (a : BlockArgs.t) (gp : GlobalParams)
    (ct : string) (s : rng) :
  se_ratio a = None \/
  (exists r, se_ratio a = Some r /\ ((r <= 0)%Q \/ (1 < r)%Q)) ->
  exists b s',
    MBConvBlock.__init__ a gp ct s = (inr b, s') /\
    MBConvBlock.has_se b = false /\
    MBConvBlock._se_reduce b = None /\
    MBConvBlock._se_expand b = None /\
    s' = if expand_ratio a =? 1 then (2 + s)%nat else (3 + s)%nat.
Proof.
  intros Hout.
  assert (Hse : MBConvBlock.compute_has_se a = false).
  { unfold MBConvBlock.compute_has_se.
    destruct Hout as [->|(r & -> & [Hr|Hr])]; [reflexivity| |].
    - apply Qle_bool_iff in Hr. rewrite Hr. reflexivity.
    - apply andb_false_iff. right.
      destruct (Qle_bool r 1) eqn:H; [|reflexivity].
      apply Qle_bool_iff in H. exfalso. apply (Qlt_not_le _ _ Hr H). }
  unfold MBConvBlock.__init__. rewrite Hse.
  destruct (expand_ratio a =? 1); run_init;
    eexists _, _; (split; [reflexivity|]); simpl; auto.
Qed.

Lemma se_disabled_outside_range_witness :
  exists b s',
    MBConvBlock.__init__
      {| kernel_size := 3; num_repeat := 1; input_filters := 16;
         output_filters := 16; expand_ratio := 1; id_skip := true; stride := 1;
         se_ratio := Some (3 # 2)%Q |} b0_global_params "Equi" 0%nat
      = (inr b, s') /\
    MBConvBlock.has_se b = false.
Proof.
  destruct (se_disabled_outside_range
              {| kernel_size := 3; num_repeat := 1; input_filters := 16;
                 output_filters := 16; expand_ratio := 1; id_skip := true;
                 stride := 1; se_ratio := Some (3 # 2)%Q |}
              b0_global_params "Equi" 0%nat)
    as (b & s' & Hb & Hse & _).
  - right. exists (3 # 2)%Q. split; [reflexivity|]. right. reflexivity.
  - exists b, s'. auto.
Defined.

(** ** Configurations the encoder accepts *)

Lemma wf_forward_inr (self : MBConvBlock.t) (inputs : Tensor) (rate : option Q)
    (s : rng) (out : Tensor) (s' : rng) :
  block_wf self ->
  MBConvBlock.forward self inputs rate s = (inr out, s') ->
  dimC (shape inputs) = input_filters (MBConvBlock._block_args self) /\
  0 < stride (MBConvBlock._block_args self).
Proof.
  intros Hwf H.
  destruct Hwf as [_ _ Hexp Hdw _ _ _ _].
  destruct Hdw as (Hdi & _ & _ & Hds & _).
  unfold MBConvBlock.forward in H.
  apply bind_inr in H as (x & s1 & Hbr & _).
  unfold MBConvBlock.branch in Hbr.
  apply bind_inr in Hbr as (x0 & s2 & Hx0 & Hbr).
  apply bind_inr in Hbr as (x1 & s3 & Hconv & _).
  apply conv2d_inr in Hconv as (_ & Hc & Hs & _).
  rewrite Hds in Hs. split; [|exact Hs].
  destruct (expand_ratio (MBConvBlock._block_args self) =? 1) eqn:He;
    cbn [negb] in Hx0.
  - apply Z.eqb_eq in He. apply ret_inr in Hx0 as [-> _].
    rewrite Hc, Hdi. unfold working_channels. rewrite He. lia.
  - apply Z.eqb_neq in He.
    destruct (Hexp He) as (c & bn & Hc' & Hbn' & (Hci & _) & _).
    rewrite Hc', Hbn' in Hx0.
    apply bind_inr in Hx0 as (c0 & s4 & Hg & Hx0).
    apply ret_inr in Hg as [-> ->].
    apply bind_inr in Hx0 as (bn0 & s5 & Hg & Hx0).
    apply ret_inr in Hg as [-> ->].
    apply bind_inr in Hx0 as (y & s6 & Hconv & _).
    apply conv2d_inr in Hconv as (_ & Hy & _). rewrite Hy. exact Hci.
Qed.

Lemma last_filters_cons (c : Z) (a : BlockArgs.t) (rest : list BlockArgs.t) :
  last_filters c (a :: rest) = last_filters (output_filters a) rest.
Proof.
  unfold last_filters. destruct rest as [|b rest]; [reflexivity|].
  change (last (a :: b :: rest)) with (last (b :: rest)).
  destruct (last (b :: rest)) eqn:E; [reflexivity|].
  apply last_None in E. discriminate E.
Qed.

Lemma blocks_fit_app (c : Z) (l1 l2 : list BlockArgs.t) :
  blocks_fit c (l1 ++ l2)
  = blocks_fit c l1 && blocks_fit (last_filters c l1) l2.
Proof.
  revert c. induction l1 as [|a l1 IH]; intros c; [reflexivity|].
  simpl. rewrite IH, last_filters_cons, andb_assoc. reflexivity.
Qed.

Lemma blocks_fit_repeats (a : BlockArgs.t) (n : nat) :
  blocks_fit (output_filters a) (replicate n (replace_repeat a)) = true.
Proof.
  induction n as [|n IH]; [reflexivity|].
  simpl. rewrite Z.eqb_refl. exact IH.
Qed.

Lemma blocks_fit_stage (gp : GlobalParams) (c : Z) (a : BlockArgs.t) :
  blocks_fit c (stage_blocks gp a)
  = (round_filters (input_filters a) gp =? c) && (0 <? stride a).
Proof.
  unfold stage_blocks.
  change (blocks_fit c (scale_stage gp a :: ?l))
    with ((round_filters (input_filters a) gp =? c) && (0 <? stride a)
          && blocks_fit (output_filters (scale_stage gp a)) l).
  rewrite blocks_fit_repeats, andb_true_r. reflexivity.
Qed.

Lemma last_filters_stage (gp : GlobalParams) (c : Z) (a : BlockArgs.t) :
  last_filters c (stage_blocks gp a) = round_filters (output_filters a) gp.
Proof.
  unfold last_filters, stage_blocks. rewrite last_cons_replicate.
  destruct (Z.to_nat _); reflexivity.
Qed.

Lemma stages_fit_blocks (gp : GlobalParams) (c : Z) (l : list BlockArgs.t) :
  stages_fit gp c l = blocks_fit c (concat (map (stage_blocks gp) l)).
Proof.
  revert c. induction l as [|a l IH]; intros c; [reflexivity|].
  change (concat (map (stage_blocks gp) (a :: l)))
    with (stage_blocks gp a ++ concat (map (stage_blocks gp) l)).
  rewrite blocks_fit_app, blocks_fit_stage, last_filters_stage, <- IH.
  reflexivity.
Qed.

Lemma ceil_div_pos (a b : Z) : 1 <= a -> 0 < b -> 1 <= ceil_div a b.
Proof.
  intros Ha Hb. unfold ceil_div. apply Z.div_le_lower_bound; lia.
Qed.

(** A batch of two or more images of positive size passes every batch
    normalisation of a block. *)
Lemma block_norms_accept_batch (self : MBConvBlock.t) (sh : Shape) :
  0 < stride (MBConvBlock._block_args self) ->
  2 <= dimN sh -> 1 <= dimH sh -> 1 <= dimW sh ->
  block_norms_accept self sh = true.
Proof.
  intros Hs HN HH HW. unfold block_norms_accept.
  rewrite !(norm_accepts_batch _ (strided sh _))
    by (simpl; try apply ceil_div_pos; assumption).
  rewrite !andb_true_r.
  destruct (expand_ratio _ =? 1); [reflexivity|].
  destruct (MBConvBlock._bn0 self); [|reflexivity].
  apply norm_accepts_batch; assumption.
Qed.

Lemma run_blocks_fit (self : EfficientNet.t) (blocks : list MBConvBlock.t)
    (idx : Z) (x : Tensor) (sk : gmap Z Tensor) (index : Z) (s : rng) :
  Forall block_wf blocks ->
  2 <= dimN (shape x) -> 1 <= dimH (shape x) -> 1 <= dimW (shape x) ->
  if blocks_fit (dimC (shape x)) (map MBConvBlock._block_args blocks)
  then exists r s',
         EfficientNet.run_blocks self blocks idx x sk index s = (inr r, s') /\
         dimN (shape r.1.1) = dimN (shape x) /\
         dimC (shape r.1.1)
           = last_filters (dimC (shape x))
                          (map MBConvBlock._block_args blocks) /\
         1 <= dimH (shape r.1.1) /\ 1 <= dimW (shape r.1.1)
  else fails (EfficientNet.run_blocks self blocks idx x sk index s).
Proof.
  intros Hwf. revert idx x sk index s.
  induction Hwf as [|b blocks Hb _ IH]; intros idx x sk index s HN HH HW.
  - simpl. eexists _, _. split; [reflexivity|]. simpl. auto.
  - change (map MBConvBlock._block_args (b :: blocks))
      with (MBConvBlock._block_args b :: map MBConvBlock._block_args blocks).
    rewrite last_filters_cons.
    change (blocks_fit (dimC (shape x))
              (MBConvBlock._block_args b
               :: map MBConvBlock._block_args blocks))
      with ((input_filters (MBConvBlock._block_args b) =? dimC (shape x))
            && (0 <? stride (MBConvBlock._block_args b))
            && blocks_fit (output_filters (MBConvBlock._block_args b))
                 (map MBConvBlock._block_args blocks)).
    change (EfficientNet.run_blocks self (b :: blocks) idx x sk index)
      with (x' ← MBConvBlock.forward b x (EfficientNet.block_rate self idx);
            EfficientNet.run_blocks self blocks (idx + 1) x'
              (<[idx + 1 := x']> sk) (index + 1)).
    destruct (input_filters (MBConvBlock._block_args b) =? dimC (shape x))
      eqn:Hc;
      [destruct (0 <? stride (MBConvBlock._block_args b)) eqn:Hs|];
      cbn [andb].
    + apply Z.eqb_eq in Hc. apply Z.ltb_lt in Hs.
      destruct (wf_forward_dims b x (EfficientNet.block_rate self idx) s
                  Hb Hs (eq_sym Hc)
                  (block_norms_accept_batch b (shape x) Hs HN HH HW))
        as (out & s1 & Hout & HN' & HC' & HH' & HW').
      rewrite (bind_ok _ _ _ _ _ Hout).
      specialize (IH (idx + 1) out (<[idx + 1 := out]> sk) (index + 1) s1).
      rewrite HC', HN' in IH. apply IH.
      * exact HN.
      * rewrite HH'. apply ceil_div_pos; assumption.
      * rewrite HW'. apply ceil_div_pos; assumption.
    + apply Z.ltb_ge in Hs. apply fails_bind. intros out s1 Hout.
      apply (wf_forward_inr _ _ _ _ _ _ Hb) in Hout as [_ Hpos]. lia.
    + apply Z.eqb_neq in Hc. apply fails_bind. intros out s1 Hout.
      apply (wf_forward_inr _ _ _ _ _ _ Hb) in Hout as [Heq _].
      symmetry in Heq. contradiction.
Qed.

(** The blocks of a built model and the layers around them. *)
Lemma built_model_layers (l : list BlockArgs.t) (gp : GlobalParams)
    (ct : string) (s : rng) (m : EfficientNet.t) (s' : rng) :
  EfficientNet.__init__ (EfficientNet.PyList l) (Some gp) ct s = (inr m, s') ->
  Forall block_wf (EfficientNet._blocks m) /\
  map MBConvBlock._block_args (EfficientNet._blocks m)
    = concat (map (stage_blocks gp) l) /\
  conv_is (EfficientNet._conv_stem m) 3 (round_filters 32 gp) 3 2 1 false /\
  num_features (EfficientNet._bn0 m) = round_filters 32 gp /\
  conv_is (EfficientNet._conv_head m)
          (last_filters (round_filters 32 gp)
             (map MBConvBlock._block_args (EfficientNet._blocks m)))
          (round_filters 1280 gp) 1 1 1 false /\
  num_features (EfficientNet._bn1 m) = round_filters 1280 gp.
Proof.
  intros H.
  destruct (head_reads_last_block _ _ _ _ _ _ H)
    as (b & Hlast & _ & Hhead & Hbn1).
  assert (Hwf : Forall block_wf (EfficientNet._blocks m)).
  { eapply EfficientNet_init_wf, H. }
  apply EfficientNet_init_inr in H
    as (l' & built & s2 & a & Hl & _ & Hbuilt & _ & _ & _ & _ & Hblocks
        & Hstem & Hbn0 & _).
  injection Hl as <-.
  apply build_blocks_args in Hbuilt as [Hargs _]. simpl in Hargs.
  rewrite <- Hblocks in Hargs.
  split; [exact Hwf|]. split; [exact Hargs|].
  split; [rewrite Hstem; unfold conv_is; simpl; auto 10|].
  split; [rewrite Hbn0; reflexivity|].
  split; [|exact Hbn1].
  unfold last_filters.
  change (map MBConvBlock._block_args (EfficientNet._blocks m))
    with (MBConvBlock._block_args <$> EfficientNet._blocks m).
  rewrite fmap_last, Hlast. exact Hhead.
Qed.

(** X17.  For a batch of two or more 3-channel images of positive size,
    which gives every batch normalisation more than one value per channel,
    whether the encoder of a built model returns is decided by the
    configuration alone.  When the first stage takes the
    [round_filters(32)] channels of the stem, every stage takes the rounded
    output filters of the stage before it and every stride is positive, the
    stem, all blocks and the head return, with the batch size of the input
    and [round_filters(1280)] channels; for any other configuration the
    encoder of the built model raises. *)
Theorem encoder_accepts_iff_stages_fit (l : list BlockArgs.t)
    (gp : GlobalParams) (ct : string) (s : rng) (m : EfficientNet.t)
    (s' : rng) (inputs : Tensor) (s0 : rng) :
  EfficientNet.__init__ (EfficientNet.PyList l) (Some gp) ct s = (inr m, s') ->
  dimC (shape inputs) = 3 ->
  2 <= dimN (shape inputs) ->
  1 <= dimH (shape inputs) -> 1 <= dimW (shape inputs) ->
  if stages_fit gp (round_filters 32 gp) l
  then exists x sk index s1,
         EfficientNet.encoder m inputs s0 = (inr (x, sk, index), s1) /\
         dimN (shape x) = dimN (shape inputs) /\
         dimC (shape x) = round_filters 1280 gp
  else fails (EfficientNet.encoder m inputs s0).
Proof.
  intros Hm Hc HN HH HW.
  destruct (built_model_layers _ _ _ _ _ _ Hm)
    as (Hwf & Hargs & Hstem & Hbn0 & Hhead & Hbn1).
  destruct Hstem as (Hsi & Hso & _ & Hss & _).
  destruct Hhead as (Hhi & Hho & _ & Hhs & _).
  rewrite stages_fit_blocks, <- Hargs.
  unfold EfficientNet.encoder.
  rewrite bind_unfold, conv2d_ok by (rewrite ?Hsi, ?Hss; lia).
  rewrite bind_unfold, batch_norm_ok
    by (try apply norm_accepts_batch; simpl; rewrite ?Hss;
        try apply ceil_div_pos; lia).
  rewrite bind_unfold. cbn [swish mret M_ret].
  lazymatch goal with
  | |- context [EfficientNet.run_blocks m _ 0 ?x ?sk0 0] =>
      assert (Hx0 : dimN (shape x) = dimN (shape inputs) /\
                    dimC (shape x) = round_filters 32 gp /\
                    1 <= dimH (shape x) /\ 1 <= dimW (shape x))
        by (simpl; rewrite Hss; repeat split;
            [exact Hso | apply ceil_div_pos; lia | apply ceil_div_pos; lia]);
      generalize dependent x; intros x0 (HN0 & HC0 & HH0 & HW0);
      pose proof (run_blocks_fit m (EfficientNet._blocks m) 0 x0
                    (<[0 := x0]> ∅) 0 s0 Hwf) as Hrun;
      rewrite HC0, HN0 in Hrun;
      specialize (Hrun HN HH0 HW0)
  end.
  destruct (blocks_fit (round_filters 32 gp)
              (map MBConvBlock._block_args (EfficientNet._blocks m))).
  - destruct Hrun as (r & s1 & Hrun & HNr & HCr & HHr & HWr).
    rewrite (bind_ok _ _ _ _ _ Hrun).
    rewrite bind_unfold, conv2d_ok by (rewrite ?HCr, ?Hhi, ?Hhs; lia).
    rewrite bind_unfold, batch_norm_ok
      by (try apply norm_accepts_batch; simpl; rewrite ?Hhs, ?ceil_div_1;
          lia).
    rewrite bind_unfold. cbn [swish mret M_ret].
    eexists _, _, _, _. split; [reflexivity|]. simpl. split; [exact HNr|].
    exact Hho.
  - destruct Hrun as (e & s1 & Hrun).
    exists e, s1. rewrite bind_unfold, Hrun. reflexivity.
Qed.

Lemma encoder_accepts_iff_stages_fit_witness :
  exists m s1 x sk index s2,
    EfficientNet.__init__ (EfficientNet.PyList b0_blocks_args)
      (Some b0_global_params) "Equi" 0%nat = (inr m, s1) /\
    EfficientNet.encoder m (image 2 3 224 224) s1 = (inr (x, sk, index), s2) /\
    dimC (shape x) = 1280.
Proof.
  destruct (b0_blocks "Equi" 0%nat) as (m & s1 & Hm & _).
  pose proof (encoder_accepts_iff_stages_fit _ _ _ _ _ _ (image 2 3 224 224)
                s1 Hm eq_refl) as H.
  change (stages_fit b0_global_params (round_filters 32 b0_global_params)
            b0_blocks_args) with true in H.
  destruct H as (x & sk & index & s2 & Henc & _ & HC);
    [simpl; lia | simpl; lia | simpl; lia |].
  exists m, s1, x, sk, index, s2. split; [exact Hm|]. split; [exact Henc|].
  exact HC.
Defined.

(** On a single small image the encoder of the same model raises although
    the stages fit: at the last stages each channel holds one value, which
    a batch normalisation in training mode refuses. *)
Lemma encoder_refuses_single_small_image :
  stages_fit b0_global_params (round_filters 32 b0_global_params)
    b0_blocks_args = true /\
  exists m s1 s2,
    EfficientNet.__init__ (EfficientNet.PyList b0_blocks_args)
      (Some b0_global_params) "Equi" 0%nat = (inr m, s1) /\
    EfficientNet.encoder m (image 1 3 32 32) s1
      = (inl (one_value_error
                {| dimN := 1; dimC := 672; dimH := 1; dimW := 1 |}), s2).
Proof.
  split; [reflexivity|]. eexists _, _, _. split; vm_compute; reflexivity.
Qed.
